(** * Verification of the market-data ingestion service

    A shallow embedding of the four components of the live data path:

    - [ConnectionManager]   the MQTT client factory with its reconnect back-off;
    - [SubscriptionManager] index and option-chain subscriptions, token lookup;
    - [MessageProcessor]    payload decoding, ATM tracking, forwarding of ticks;
    - [Sink]                the batching database module ([src/db/index.ts]).

    JavaScript numbers that carry prices and delays are modelled by exact
    rationals ([Q]); strikes and strike increments are integers ([Z]).
    Module-level mutable state becomes a record that every operation takes
    and returns; calls that leave the module (transport, HTTP, console,
    database) are either recorded in a log or performed on an explicit model
    of the collaborator.  Collaborators whose code is not part of the
    sources (configuration, [utils], the generated protobuf decoders,
    [JSON.parse], the HTTP endpoint) are section variables. *)

From Stdlib Require Import ZArith QArith Qminmax Qabs Qpower Qround List String Ascii Lia Bool.
From stdpp Require Import gmap strings list pretty.

Set Warnings "-clear-no-such-hyp,-register-all".

(* ================================================================== *)
(** * Connection manager: reconnect back-off *)
(* ================================================================== *)

Module ConnectionManager.

Local Open Scope Q_scope.

(** [const MAX_RECONNECT_DELAY = 5000]. *)
Definition MAX_RECONNECT_DELAY : Q := 5000.

(** The two pieces of state the handlers touch: the module variable
    [reconnectCount] and the field [client.options.reconnectPeriod]. *)
Record state : Type := mkState {
  reconnectCount : nat;
  reconnectPeriod : Q
}.

(** [createClient]: [let reconnectCount = 0] and the option
    [reconnectPeriod: 100]. *)
Definition createClient : state :=
  {| reconnectCount := 0; reconnectPeriod := 100 |}.

(** [Math.min(100 * Math.pow(1.5, n), MAX_RECONNECT_DELAY)].  Every value
    of [100 * 1.5^n] below the cap is a dyadic rational that binary64
    represents exactly, so the rational model loses nothing there. *)
Definition backoff (n : nat) : Q :=
  Qmin (100 * Qpower (3 # 2) (Z.of_nat n)) MAX_RECONNECT_DELAY.

(** [client.on('connect', ...)]: the counter is reset, the period is not
    (the health check the handler also starts touches neither). *)
Definition on_connect (s : state) : state :=
  {| reconnectCount := 0; reconnectPeriod := reconnectPeriod s |}.

(** [client.on('reconnect', ...)]: increment first, then compute. *)
Definition on_reconnect (s : state) : state :=
  let reconnectCount' := S (reconnectCount s) in
  let delay := backoff reconnectCount' in
  {| reconnectCount := reconnectCount'; reconnectPeriod := delay |}.

(** [n] consecutive failed attempts: the [reconnect] event fires [n] times
    with no [connect] in between. *)
Fixpoint attempts (n : nat) (s : state) : state :=
  match n with
  | O => s
  | S k => on_reconnect (attempts k s)
  end.

(** The delay computed by the handler at attempt [n] (numbered from 1)
    after a successful connect. *)
Definition computed_delay (s : state) (n : nat) : Q :=
  reconnectPeriod (attempts n (on_connect s)).

(** The delays computed at attempts [1 .. k]. *)
Definition computed_delays (s : state) (k : nat) : list Q :=
  map (computed_delay s) (seq 1 k).

(** The period in force when attempts [1 .. k] are made: the period the
    client had when it connected, then the value computed at each failed
    attempt. *)
Definition periods_in_force (s : state) (k : nat) : list Q :=
  map (fun n => reconnectPeriod (attempts n (on_connect s))) (seq 0 k).

(** The same for a freshly created client, which starts from the
    configured period. *)
Definition period_trace (k : nat) : list Q := periods_in_force createClient k.

(** ** Health monitoring

    [const HEALTH_CHECK_INTERVAL = 5000]. *)
Definition HEALTH_CHECK_INTERVAL : Z := 5000.

(** [healthCheckTimer] and [lastPacketTime], together with the runtime's
    side of [setInterval] / [clearInterval]: the handles of the intervals
    that are set and not cleared, and the next handle to be handed out. *)
Record monitor : Type := mkMonitor {
  healthCheckTimer : option nat;
  lastPacketTime : Z;
  intervals : list nat;
  next_interval : nat
}.

Definition clearInterval (h : nat) (m : monitor) : monitor :=
  mkMonitor (healthCheckTimer m) (lastPacketTime m)
            (List.filter (fun h' => negb (Nat.eqb h' h)) (intervals m))
            (next_interval m).

(** [startHealthCheck]: clear the running interval, if any, and set a new
    one. *)
Definition startHealthCheck (m : monitor) : monitor :=
  let m1 := match healthCheckTimer m with
            | Some h => clearInterval h m
            | None => m
            end in
  let h := next_interval m1 in
  mkMonitor (Some h) (lastPacketTime m1) (h :: intervals m1) (S h).

(** [client.on('close', ...)]. *)
Definition on_close (m : monitor) : monitor :=
  match healthCheckTimer m with
  | Some h =>
      let m1 := clearInterval h m in
      mkMonitor None (lastPacketTime m1) (intervals m1) (next_interval m1)
  | None => m
  end.

(** [client.on('packetsend' / 'packetreceive', ...)]:
    [lastPacketTime = Date.now()]. *)
Definition on_packet (now : Z) (m : monitor) : monitor :=
  mkMonitor (healthCheckTimer m) now (intervals m) (next_interval m).

(** [timeSinceLastPacket > 10000]. *)
Definition stale (now last : Z) : bool := (10000 <? now - last)%Z.

(** What the interval callback does when the connection is stale:
    [console.error] and [client.end(true, {}, () => client.reconnect())]. *)
Inductive action : Type := ForceReconnect.

(** The whole client: the back-off state and the monitor. *)
Record client : Type := mkClient {
  retry : state;
  mon : monitor
}.

(** The module once loaded, at time [now], with the client created:
    [let healthCheckTimer = null], [let lastPacketTime = Date.now()]. *)
Definition loaded (now : Z) : client :=
  mkClient createClient (mkMonitor None now [] 0).

(** What reaches the handlers: the client's events, and the runtime
    calling back an interval (at time [now]; a cleared interval is not
    called back). *)
Inductive event : Type :=
| Connected
| Reconnecting
| Closed
| PacketSent (now : Z)
| PacketReceived (now : Z)
| IntervalFires (h : nat) (now : Z).

Definition handle (e : event) (c : client) : client * list action :=
  match e with
  | Connected => (mkClient (on_connect (retry c)) (startHealthCheck (mon c)), [])
  | Reconnecting => (mkClient (on_reconnect (retry c)) (mon c), [])
  | Closed => (mkClient (retry c) (on_close (mon c)), [])
  | PacketSent now | PacketReceived now =>
      (mkClient (retry c) (on_packet now (mon c)), [])
  | IntervalFires h now =>
      if existsb (Nat.eqb h) (intervals (mon c))
      then (c, if stale now (lastPacketTime (mon c)) then [ForceReconnect] else [])
      else (c, [])
  end.

Fixpoint run (events : list event) (c : client) : client * list action :=
  match events with
  | [] => (c, [])
  | e :: rest =>
      let '(c1, a1) := handle e c in
      let '(c2, a2) := run rest c1 in
      (c2, a1 ++ a2)
  end.

(** The time of the most recent packet event of a trace, [t0] if none. *)
Definition last_packet (events : list event) (t0 : Z) : Z :=
  fold_left (fun t e => match e with
                        | PacketSent now | PacketReceived now => now
                        | _ => t
                        end) events t0.

(** The failed attempts since the last connect. *)
Definition attempts_since_connect (events : list event) (n0 : nat) : nat :=
  fold_left (fun n e => match e with
                        | Connected => O
                        | Reconnecting => S n
                        | _ => n
                        end) events n0.

(** The only interval the runtime runs is the one [healthCheckTimer]
    names, and handles are never reused. *)
Definition monitor_ok (m : monitor) : Prop :=
  intervals m = match healthCheckTimer m with Some h => [h] | None => [] end /\
  forall h, In h (intervals m) -> (h < next_interval m)%nat.

(** ** Facts *)

Lemma attempts_count (n : nat) (s : state) :
  reconnectCount (attempts n s) = (n + reconnectCount s)%nat.
Proof.
  induction n as [|n IH]; simpl; [reflexivity|].
  now rewrite IH.
Qed.

Lemma computed_delay_backoff (s : state) (n : nat) :
  (1 <= n)%nat -> computed_delay s n = backoff n.
Proof.
  intros Hn. destruct n as [|n]; [lia|].
  unfold computed_delay. simpl. rewrite attempts_count. simpl.
  now rewrite Nat.add_0_r.
Qed.

Lemma pow_three_halves_succ (n : nat) :
  Qpower (3 # 2) (Z.of_nat (S n)) == (3 # 2) * Qpower (3 # 2) (Z.of_nat n).
Proof.
  rewrite Nat2Z.inj_succ. unfold Z.succ.
  rewrite Qpower_plus by discriminate.
  rewrite Qmult_comm. reflexivity.
Qed.

Lemma pow_three_halves_pos (n : nat) : 0 < Qpower (3 # 2) (Z.of_nat n).
Proof.
  apply Qpower_0_lt. reflexivity.
Qed.

Lemma pow_three_halves_mono (n m : nat) :
  (n <= m)%nat -> Qpower (3 # 2) (Z.of_nat n) <= Qpower (3 # 2) (Z.of_nat m).
Proof.
  induction 1 as [|m _ IH]; [apply Qle_refl|].
  rewrite pow_three_halves_succ.
  eapply Qle_trans; [exact IH|].
  pose proof (pow_three_halves_pos m) as Hp.
  apply Qle_trans with (1 * Qpower (3 # 2) (Z.of_nat m)).
  - rewrite Qmult_1_l. apply Qle_refl.
  - apply Qmult_le_compat_r; [discriminate | now apply Qlt_le_weak].
Qed.

(** From attempt 10 on the uncapped value exceeds the cap. *)
Lemma uncapped_exceeds_cap (n : nat) :
  (10 <= n)%nat -> MAX_RECONNECT_DELAY < 100 * Qpower (3 # 2) (Z.of_nat n).
Proof.
  intros Hn.
  apply Qlt_le_trans with (100 * Qpower (3 # 2) (Z.of_nat 10)).
  - reflexivity.
  - apply Qmult_le_l; [reflexivity|]. now apply pow_three_halves_mono.
Qed.

(** Up to attempt 9 it stays below the cap. *)
Lemma uncapped_below_cap (n : nat) :
  (n <= 9)%nat -> 100 * Qpower (3 # 2) (Z.of_nat n) < MAX_RECONNECT_DELAY.
Proof.
  intros Hn.
  apply Qle_lt_trans with (100 * Qpower (3 # 2) (Z.of_nat 9)).
  - apply Qmult_le_l; [reflexivity|]. now apply pow_three_halves_mono.
  - reflexivity.
Qed.

Lemma backoff_capped (n : nat) : (10 <= n)%nat -> backoff n == MAX_RECONNECT_DELAY.
Proof.
  intros Hn. unfold backoff.
  apply Q.min_r. apply Qlt_le_weak. now apply uncapped_exceeds_cap.
Qed.

Lemma backoff_uncapped (n : nat) :
  (n <= 9)%nat -> backoff n == 100 * Qpower (3 # 2) (Z.of_nat n).
Proof.
  intros Hn. unfold backoff.
  apply Q.min_l. apply Qlt_le_weak. now apply uncapped_below_cap.
Qed.

(** C5, as the spec words it, fails: numbered from attempt 1 the handler's
    delays do not start 100, 150, 225, 337.5; the first computed delay is
    150, since the counter is incremented before the power is taken.  Nor
    do the periods in force start at 100 in general: a client that comes
    back from an outage of twelve attempts goes into the next one with the
    period still at the cap. *)
Lemma C5_sequence_counterexample :
  computed_delay createClient 1 == 150 /\
  ~ Forall2 Qeq (computed_delays createClient 4) [100; 150; 225; 675 # 2] /\
  ~ Forall2 Qeq (periods_in_force (attempts 12 createClient) 4)
                [100; 150; 225; 675 # 2].
Proof.
  split; [reflexivity|]. split.
  - intros H. inversion H as [|x y l l' Hxy _]; subst.
    revert Hxy. vm_compute. discriminate.
  - intros H. inversion H as [|x y l l' Hxy _]; subst.
    revert Hxy. vm_compute. discriminate.
Qed.

(** C5 (amended): at the [n]-th consecutive failed attempt after a connect
    the handler sets the period to [min(100 * 1.5^n, 5000)]; the computed
    delays from attempt 1 are 150, 225, 337.5, 506.25, ...; they stay below
    the cap up to attempt 9 and equal 5000 from attempt 10, the first whose
    uncapped value (about 5766.5) exceeds it.  The value 100 is the
    configured period of a fresh client, in force before its first attempt:
    the successive periods of a fresh client are 100, 150, 225, 337.5, ... *)
Theorem C5_backoff_sequence (s : state) (n : nat) :
  (1 <= n)%nat ->
  computed_delay s n ==
    Qmin (100 * Qpower (3 # 2) (Z.of_nat n)) 5000 /\
  Forall2 Qeq (computed_delays s 4) [150; 225; 675 # 2; 2025 # 4] /\
  ((n <= 9)%nat ->
     computed_delay s n == 100 * Qpower (3 # 2) (Z.of_nat n) /\
     computed_delay s n < 5000) /\
  ((10 <= n)%nat ->
     5000 < 100 * Qpower (3 # 2) (Z.of_nat n) /\
     computed_delay s n == 5000) /\
  Forall2 Qeq (period_trace 5) [100; 150; 225; 675 # 2; 2025 # 4].
Proof.
  intros Hn. rewrite (computed_delay_backoff s n Hn).
  split; [reflexivity|]. split.
  - unfold computed_delays. simpl.
    rewrite !computed_delay_backoff by lia.
    repeat constructor; reflexivity.
  - split; [|split].
    + intros H9. split; [now apply backoff_uncapped|].
      rewrite backoff_uncapped by assumption. now apply uncapped_below_cap.
    + intros H10. split; [now apply uncapped_exceeds_cap | now apply backoff_capped].
    + repeat constructor; reflexivity.
Qed.

Lemma C5_backoff_sequence_witness :
  (1 <= 12)%nat /\
  computed_delay createClient 12 ==
    Qmin (100 * Qpower (3 # 2) (Z.of_nat 12)) 5000.
Proof.
  split; [lia|].
  exact (proj1 (C5_backoff_sequence createClient 12 ltac:(lia))).
Defined.

(** A connect resets the counter only: after a long outage the period
    stays at the cap until the next [reconnect] event recomputes it, so the
    value 100 is seen by a fresh client only. *)
Example period_survives_connect :
  reconnectPeriod (on_connect (attempts 12 createClient)) == 5000 /\
  reconnectCount (on_connect (attempts 12 createClient)) = 0%nat /\
  reconnectPeriod (on_reconnect (on_connect (attempts 12 createClient))) == 150.
Proof. repeat split; reflexivity. Qed.

(** ** Facts: the monitor and the period over whole traces *)

Lemma startHealthCheck_ok (m : monitor) : monitor_ok m -> monitor_ok (startHealthCheck m).
Proof.
  intros [Hi Hfresh]. unfold startHealthCheck.
  destruct (healthCheckTimer m) as [h|] eqn:Eh.
  - split; cbn.
    + rewrite Hi. cbn. rewrite Nat.eqb_refl. reflexivity.
    + rewrite Hi. cbn. rewrite Nat.eqb_refl. cbn. intros h' [<-|[]]. lia.
  - split; cbn.
    + now rewrite Hi.
    + rewrite Hi. intros h' [<-|[]]. lia.
Qed.

Lemma on_close_ok (m : monitor) : monitor_ok m -> monitor_ok (on_close m).
Proof.
  intros [Hi Hfresh]. unfold on_close.
  destruct (healthCheckTimer m) as [h|] eqn:Eh.
  - split; cbn.
    + rewrite Hi. cbn. now rewrite Nat.eqb_refl.
    + rewrite Hi. cbn. rewrite Nat.eqb_refl. intros h' [].
  - split; [now rewrite Eh|exact Hfresh].
Qed.

Lemma handle_ok (e : event) (c : client) :
  monitor_ok (mon c) -> monitor_ok (mon (fst (handle e c))).
Proof.
  intros Hok. destruct e; cbn [handle fst mon].
  - now apply startHealthCheck_ok.
  - exact Hok.
  - now apply on_close_ok.
  - exact Hok.
  - exact Hok.
  - destruct (existsb _ _); exact Hok.
Qed.

Lemma run_app (xs ys : list event) (c : client) :
  run (xs ++ ys) c =
    let '(c1, a1) := run xs c in
    let '(c2, a2) := run ys c1 in
    (c2, a1 ++ a2).
Proof.
  revert c. induction xs as [|e xs IH]; intros c; cbn [run app].
  - now destruct (run ys c).
  - destruct (handle e c) as [c1 a1]. rewrite IH.
    destruct (run xs c1) as [c2 a2]. destruct (run ys c2) as [c3 a3].
    now rewrite app_assoc.
Qed.

Lemma run_ok (events : list event) (c : client) :
  monitor_ok (mon c) -> monitor_ok (mon (fst (run events c))).
Proof.
  revert c. induction events as [|e events IH]; intros c Hok; [exact Hok|].
  cbn [run]. pose proof (handle_ok e c Hok) as H1.
  destruct (handle e c) as [c1 a1]. cbn [fst] in H1.
  specialize (IH c1 H1). destruct (run events c1) as [c2 a2]. exact IH.
Qed.

Lemma loaded_ok (t0 : Z) : monitor_ok (mon (loaded t0)).
Proof. split; [reflexivity|intros h []]. Qed.

Lemma run_last_packet (events : list event) (c : client) :
  lastPacketTime (mon (fst (run events c)))
  = last_packet events (lastPacketTime (mon c)).
Proof.
  revert c. induction events as [|e events IH]; intros c; [reflexivity|].
  cbn [run]. unfold last_packet. cbn [fold_left].
  fold (last_packet events
          match e with PacketSent now | PacketReceived now => now
                  | _ => lastPacketTime (mon c) end).
  assert (H1 : lastPacketTime (mon (fst (handle e c)))
               = match e with PacketSent now | PacketReceived now => now
                         | _ => lastPacketTime (mon c) end).
  { destruct e; cbn; try reflexivity.
    - unfold startHealthCheck. destruct (healthCheckTimer (mon c)); reflexivity.
    - unfold on_close. destruct (healthCheckTimer (mon c)); reflexivity.
    - destruct (existsb _ _); reflexivity. }
  destruct (handle e c) as [c1 a1]. cbn [fst] in H1.
  specialize (IH c1). destruct (run events c1) as [c2 a2]. cbn [fst] in *.
  now rewrite IH, H1.
Qed.

(** X1: over every sequence of events, at most one health-check interval
    is running, and it is the one [healthCheckTimer] names: a connect
    replaces the interval of the previous session instead of adding one,
    and after a close no interval is left. *)
Theorem X1_single_health_check (events : list event) (t0 : Z) :
  let m := mon (fst (run events (loaded t0))) in
  intervals m = match healthCheckTimer m with Some h => [h] | None => [] end /\
  (length (intervals m) <= 1)%nat /\
  intervals (mon (fst (run (events ++ [Closed]) (loaded t0)))) = [] /\
  healthCheckTimer (mon (fst (run (events ++ [Closed]) (loaded t0)))) = None.
Proof.
  intros m.
  pose proof (run_ok events (loaded t0) (loaded_ok t0)) as [Hi _].
  fold m in Hi. split; [exact Hi|]. split.
  - rewrite Hi. destruct (healthCheckTimer m); cbn; lia.
  - rewrite run_app. destruct (run events (loaded t0)) as [c1 a1] eqn:E.
    cbn [fst] in m. subst m. cbn [run handle fst mon].
    unfold on_close. destruct (healthCheckTimer (mon c1)) as [h|] eqn:Eh.
    + cbn. rewrite Hi. cbn. rewrite Nat.eqb_refl. split; reflexivity.
    + cbn. rewrite Eh. split; [exact Hi|reflexivity].
Qed.

(** X2: whatever happened before, the check run by the interval compares
    the current time with the time of the most recent packet, sent or
    received (the load time if there was none): it forces a reconnection
    exactly when it is the running interval and more than 10000 ms have
    passed since; it changes no state. *)
Theorem X2_staleness_check (events : list event) (t0 : Z) (h : nat) (now : Z) :
  let c := fst (run events (loaded t0)) in
  lastPacketTime (mon c) = last_packet events t0 /\
  fst (handle (IntervalFires h now) c) = c /\
  (snd (handle (IntervalFires h now) c) = [ForceReconnect] <->
   healthCheckTimer (mon c) = Some h /\ (10000 < now - last_packet events t0)%Z) /\
  (snd (handle (IntervalFires h now) c) = [] \/
   snd (handle (IntervalFires h now) c) = [ForceReconnect]).
Proof.
  intros c.
  pose proof (run_ok events (loaded t0) (loaded_ok t0)) as [Hi _].
  pose proof (run_last_packet events (loaded t0)) as Hl.
  fold c in Hi, Hl. cbn [loaded mon lastPacketTime] in Hl.
  split; [exact Hl|]. cbn [handle]. rewrite Hi, Hl. unfold stale.
  destruct (healthCheckTimer (mon c)) as [h0|]; cbn [existsb orb].
  - destruct (Nat.eqb_spec h h0) as [->|Hne]; cbn [fst snd].
    + split; [reflexivity|].
      destruct (Z.ltb_spec 10000 (now - last_packet events t0)).
      * split; [|now right]. split; [intros _; split; [reflexivity|assumption]|reflexivity].
      * split; [|now left]. split; [discriminate|]. intros [_ Hlt]. lia.
    + split; [reflexivity|]. split; [|now left].
      split; [discriminate|]. intros [[= Heq] _]. congruence.
  - cbn [fst snd]. split; [reflexivity|]. split; [|now left].
    split; [discriminate|]. intros [Hcontra _]. discriminate.
Qed.

(** X3: with no packet after time [last], the checks of an interval set
    at [set_at] (one every 5000 ms) stay quiet up to [last + 10000] and
    force the reconnection at a check no later than [last + 15000]. *)
Theorem X3_detection_window (set_at last : Z) :
  (set_at <= last)%Z ->
  exists k : Z,
    (1 <= k)%Z /\
    stale (set_at + HEALTH_CHECK_INTERVAL * k) last = true /\
    (last + 10000 < set_at + HEALTH_CHECK_INTERVAL * k <= last + 15000)%Z /\
    forall j : Z, (1 <= j < k)%Z ->
                  stale (set_at + HEALTH_CHECK_INTERVAL * j) last = false.
Proof.
  intros Hle. unfold HEALTH_CHECK_INTERVAL, stale.
  set (q := ((last + 10000 - set_at) / 5000)%Z).
  assert (Hq : (5000 * q <= last + 10000 - set_at < 5000 * (q + 1))%Z).
  { unfold q. pose proof (Z.div_mod (last + 10000 - set_at) 5000 ltac:(lia)).
    pose proof (Z.mod_pos_bound (last + 10000 - set_at) 5000 ltac:(lia)). lia. }
  exists (q + 1)%Z.
  assert (Hq0 : (0 <= q)%Z) by (unfold q; apply Z.div_pos; lia).
  split; [lia|]. split; [apply Z.ltb_lt; lia|]. split; [lia|].
  intros j Hj. apply Z.ltb_ge. nia.
Qed.

Lemma X3_detection_window_witness :
  (0 <= 7300)%Z /\
  exists k : Z,
    (1 <= k)%Z /\ stale (0 + HEALTH_CHECK_INTERVAL * k) 7300 = true /\
    (7300 + 10000 < 0 + HEALTH_CHECK_INTERVAL * k <= 7300 + 15000)%Z.
Proof.
  split; [lia|].
  destruct (X3_detection_window 0 7300 ltac:(lia)) as (k & Hk & Hs & Hw & _).
  exists k. split; [exact Hk|]. split; [exact Hs|exact Hw].
Defined.

Lemma backoff_ge_base (n : nat) : 100 <= backoff n.
Proof.
  unfold backoff. apply Q.min_glb; [|discriminate].
  apply Qle_trans with (100 * Qpower (3 # 2) (Z.of_nat 0)); [discriminate|].
  apply Qmult_le_l; [reflexivity|]. apply pow_three_halves_mono. lia.
Qed.

Lemma backoff_le_cap (n : nat) : backoff n <= MAX_RECONNECT_DELAY.
Proof. unfold backoff. apply Q.le_min_r. Qed.

Lemma backoff_mono (n : nat) : backoff n <= backoff (S n).
Proof.
  unfold backoff. apply Q.min_le_compat_r.
  apply Qmult_le_l; [reflexivity|]. apply pow_three_halves_mono. lia.
Qed.

Lemma run_retry (events : list event) (c : client) :
  reconnectCount (retry (fst (run events c)))
  = attempts_since_connect events (reconnectCount (retry c)) /\
  (100 <= reconnectPeriod (retry c) <= 5000 ->
   100 <= reconnectPeriod (retry (fst (run events c))) <= 5000).
Proof.
  revert c. induction events as [|e events IH]; intros c.
  - cbn. split; [reflexivity|tauto].
  - cbn [run]. unfold attempts_since_connect. cbn [fold_left].
    fold (attempts_since_connect events
            match e with Connected => O | Reconnecting => S (reconnectCount (retry c))
                    | _ => reconnectCount (retry c) end).
    assert (H1 : reconnectCount (retry (fst (handle e c)))
                 = match e with Connected => O
                           | Reconnecting => S (reconnectCount (retry c))
                           | _ => reconnectCount (retry c) end /\
                 (100 <= reconnectPeriod (retry c) <= 5000 ->
                  100 <= reconnectPeriod (retry (fst (handle e c))) <= 5000)).
    { destruct e; cbn; try (split; [reflexivity|tauto]).
      - split; [reflexivity|]. intros _.
        split; [apply backoff_ge_base|apply backoff_le_cap].
      - destruct (existsb _ _); cbn; (split; [reflexivity|tauto]). }
    destruct (handle e c) as [c1 a1]. cbn [fst] in H1. destruct H1 as [Hc Hp].
    destruct (IH c1) as [IHc IHp]. destruct (run events c1) as [c2 a2].
    cbn [fst] in *. rewrite IHc, Hc. split; [reflexivity|]. tauto.
Qed.

(** X4: the back-off is bounded and monotone: every computed delay lies
    between 100 and the cap 5000 and is at least the previous one; over
    every sequence of events the period of the client stays within these
    bounds, and the counter holds the number of [reconnect] events since
    the last [connect]. *)
Theorem X4_backoff_bounds (n : nat) (events : list event) (t0 : Z) :
  100 <= backoff n <= MAX_RECONNECT_DELAY /\
  backoff n <= backoff (S n) /\
  100 <= reconnectPeriod (retry (fst (run events (loaded t0)))) <= 5000 /\
  reconnectCount (retry (fst (run events (loaded t0))))
  = attempts_since_connect events 0.
Proof.
  split; [split; [apply backoff_ge_base|apply backoff_le_cap]|].
  split; [apply backoff_mono|].
  destruct (run_retry events (loaded t0)) as [Hc Hp].
  split; [|exact Hc]. apply Hp. cbn. split; discriminate.
Qed.

End ConnectionManager.

(* ================================================================== *)
(** * Storage sink: [src/db/index.ts] *)
(* ================================================================== *)

Module Sink.

(** ** Data *)

(** [interface BatchItem]. *)
Record BatchItem : Type := mkBatchItem {
  topic : string;
  ltp : Q;
  indexName : option string;
  type : option string;
  strike : option Z
}.

(** A row of [topics]; [topic_id] is the generated key. *)
Record TopicRow : Type := mkTopicRow {
  topic_id : nat;
  topic_name : string;
  index_name : option string;
  topic_type : option string;
  topic_strike : option Z
}.

(** A row of [ltp_data]; [received_at] is assigned by the server ([NOW()])
    and plays no role below. *)
Record LtpRow : Type := mkLtpRow {
  ltp_topic_id : nat;
  ltp_value : Q
}.

(** Modelled from the spec: the persisted schema is owned by a collaborator
    and is not part of the sources.  Section 6 of the spec describes a
    topics table keyed by a generated identifier and an observations table
    that refers to it; [topics_seq] is the last identifier handed out. *)
Record Store : Type := mkStore {
  topics : list TopicRow;
  topics_seq : nat;
  ltp_data : list LtpRow
}.

(** The statements the module sends to the database. *)
Inductive DbCall : Type :=
| Connect                         (* pool.connect() *)
| Begin                           (* client.query('BEGIN') *)
| Commit                          (* client.query('COMMIT') *)
| Rollback                        (* client.query('ROLLBACK') *)
| InsertLtp (rows : list LtpRow)  (* INSERT INTO ltp_data ... VALUES ... *)
| SelectTopic (name : string)     (* SELECT topic_id FROM topics WHERE topic_name = $1 *)
| InsertTopic (name : string)     (* INSERT INTO topics ... RETURNING topic_id *)
| SelectAllTopics                 (* SELECT topic_id, topic_name FROM topics *)
| Release.                        (* client.release() *)

(** An in-flight [getTopicId] call, suspended at one of its two [await]s,
    or settled. *)
Inductive Proc : Type :=
| AwaitSelect (item : BatchItem)  (* cache miss; the SELECT is under way *)
| AwaitInsert (item : BatchItem)  (* no row found; the INSERT is under way *)
| Resolved (id : nat)
| Rejected.

(** The module variables ([dataBatch], [batchTimer], [topicCache]) together
    with the database behind [pool]:
    - [db] holds what is durable;
    - [txn] holds the rows written inside the open transaction of the
      client checked out by [flushBatch] ([None] outside a transaction);
    - [faults] decides the outcome of the coming database calls, in the
      order they are made ([true]: the call fails and has no effect; an
      exhausted list means no further failure);
    - [oplog] records every call with its outcome ([true]: it succeeded);
    - [inflight] holds [getTopicId] calls that a rejected [Promise.all]
      left running. *)
Record World : Type := mkWorld {
  dataBatch : list BatchItem;
  batchTimer : bool;
  topicCache : gmap string nat;
  db : Store;
  txn : option (list LtpRow);
  faults : list bool;
  oplog : list (DbCall * bool);
  inflight : list Proc
}.

Definition set_dataBatch (b : list BatchItem) (w : World) : World :=
  mkWorld b (batchTimer w) (topicCache w) (db w) (txn w) (faults w) (oplog w) (inflight w).
Definition set_batchTimer (t : bool) (w : World) : World :=
  mkWorld (dataBatch w) t (topicCache w) (db w) (txn w) (faults w) (oplog w) (inflight w).
Definition set_topicCache (c : gmap string nat) (w : World) : World :=
  mkWorld (dataBatch w) (batchTimer w) c (db w) (txn w) (faults w) (oplog w) (inflight w).
Definition set_db (d : Store) (w : World) : World :=
  mkWorld (dataBatch w) (batchTimer w) (topicCache w) d (txn w) (faults w) (oplog w) (inflight w).
Definition set_txn (t : option (list LtpRow)) (w : World) : World :=
  mkWorld (dataBatch w) (batchTimer w) (topicCache w) (db w) t (faults w) (oplog w) (inflight w).
Definition set_faults (f : list bool) (w : World) : World :=
  mkWorld (dataBatch w) (batchTimer w) (topicCache w) (db w) (txn w) f (oplog w) (inflight w).
Definition set_oplog (l : list (DbCall * bool)) (w : World) : World :=
  mkWorld (dataBatch w) (batchTimer w) (topicCache w) (db w) (txn w) (faults w) l (inflight w).
Definition set_inflight (p : list Proc) (w : World) : World :=
  mkWorld (dataBatch w) (batchTimer w) (topicCache w) (db w) (txn w) (faults w) (oplog w) p.

(** The module right after it is loaded, in front of a database [d]. *)
Definition initial (d : Store) (f : list bool) : World :=
  mkWorld [] false ∅ d None f [] [].

(** ** A state monad with exceptions

    [Throw] is a rejected promise or a thrown error; the world it comes
    with is the world at the point of the throw. *)
Inductive Res (A : Type) : Type :=
| Ok (a : A)
| Throw.
Arguments Ok {A} a.
Arguments Throw {A}.

Definition M (A : Type) : Type := World -> Res A * World.

Definition ret {A} (a : A) : M A := fun w => (Ok a, w).
Definition throw {A} : M A := fun w => (Throw, w).
Definition bind {A B} (m : M A) (k : A -> M B) : M B :=
  fun w => match m w with
           | (Ok a, w') => k a w'
           | (Throw, w') => (Throw, w')
           end.
(** [try { m } catch (e) { h }]. *)
Definition try_catch {A} (m : M A) (h : M A) : M A :=
  fun w => match m w with
           | (Ok a, w') => (Ok a, w')
           | (Throw, w') => h w'
           end.
(** [try { m } finally { f }], for an [f] that cannot throw. *)
Definition try_finally {A} (m : M A) (f : World -> World) : M A :=
  fun w => let '(r, w') := m w in (r, f w').
Definition modify (f : World -> World) : M unit := fun w => (Ok tt, f w).
Definition gets {A} (f : World -> A) : M A := fun w => (Ok (f w), w).

Notation "x <- m ;; k" := (bind m (fun x => k))
  (at level 100, m at next level, right associativity).
Notation "m ;;; k" := (bind m (fun _ => k))
  (at level 100, right associativity).

(** ** The database

    One round trip: the next fault decides whether the call fails; the
    outcome is logged. *)
Definition round_trip (c : DbCall) : M unit :=
  fun w =>
    match faults w with
    | true :: fs => (Throw, set_oplog (oplog w ++ [(c, false)]) (set_faults fs w))
    | false :: fs => (Ok tt, set_oplog (oplog w ++ [(c, true)]) (set_faults fs w))
    | [] => (Ok tt, set_oplog (oplog w ++ [(c, true)]) w)
    end.

Definition pool_connect : M unit := round_trip Connect.

Definition query_begin : M unit :=
  round_trip Begin ;;; modify (set_txn (Some [])).

Definition query_rollback : M unit :=
  round_trip Rollback ;;; modify (set_txn None).

Definition add_ltp_rows (rows : list LtpRow) (d : Store) : Store :=
  mkStore (topics d) (topics_seq d) (ltp_data d ++ rows).

Definition query_commit : M unit :=
  round_trip Commit ;;;
  modify (fun w => match txn w with
                   | Some rows => set_txn None (set_db (add_ltp_rows rows (db w)) w)
                   | None => w
                   end).

(** The bulk insert: inside a transaction the rows are pending until the
    commit; outside one the statement commits on its own. *)
Definition query_insert_ltp (rows : list LtpRow) : M unit :=
  round_trip (InsertLtp rows) ;;;
  modify (fun w => match txn w with
                   | Some pending => set_txn (Some (pending ++ rows)) w
                   | None => set_db (add_ltp_rows rows (db w)) w
                   end).

Definition rows_named (name : string) (d : Store) : list TopicRow :=
  filter (fun r => topic_name r = name) (topics d).

(** [pool.query] runs on a connection of its own: topic statements are
    not part of the transaction of [flushBatch]. *)
Definition query_select_topic (name : string) : M (list TopicRow) :=
  round_trip (SelectTopic name) ;;; gets (fun w => rows_named name (db w)).

Definition add_topic_row (item : BatchItem) (d : Store) : Store :=
  let id := S (topics_seq d) in
  mkStore (topics d ++ [mkTopicRow id (topic item) (indexName item) (type item) (strike item)])
          id (ltp_data d).

Definition query_insert_topic (item : BatchItem) : M nat :=
  round_trip (InsertTopic (topic item)) ;;;
  modify (fun w => set_db (add_topic_row item (db w)) w) ;;;
  gets (fun w => topics_seq (db w)).

Definition query_select_all_topics : M (list TopicRow) :=
  round_trip SelectAllTopics ;;; gets (fun w => topics (db w)).

Definition cache_set (name : string) (id : nat) : M unit :=
  modify (fun w => set_topicCache (<[name := id]> (topicCache w)) w).

(** ** The module's functions *)

Section Operations.

(** [config.app.batchSize]. *)
Variable batchSize : nat.

(** [initialize]: preload the cache with every row of [topics]. *)
Definition preload (rows : list TopicRow) (c : gmap string nat) : gmap string nat :=
  fold_left (fun c row => <[topic_name row := topic_id row]> c) rows c.

Definition initialize : M unit :=
  try_catch
    (rows <- query_select_all_topics ;;
     modify (fun w => set_topicCache (preload rows (topicCache w)) w))
    throw.

(** [getTopicId], run from call to return with nothing in between.  Its
    four arguments are the fields of the batch item it is called for. *)
Definition getTopicId (item : BatchItem) : M nat :=
  fun w =>
    let cacheKey := topic item in
    match topicCache w !! cacheKey with
    | Some id => ret id w
    | None =>
        try_catch
          (result <- query_select_topic (topic item) ;;
           match result with
           | row :: _ =>
               let topicId := topic_id row in
               cache_set cacheKey topicId ;;; ret topicId
           | [] =>
               newTopicId <- query_insert_topic item ;;
               cache_set cacheKey newTopicId ;;; ret newTopicId
           end)
          throw w
    end.

(** The same function cut at its [await]s.  [getTopicId_call] is the part
    that runs when the function is called: the cache test (a hit returns at
    once).  [getTopicId_resume] runs one database round trip and the code
    up to the next [await] or to the return. *)
Definition getTopicId_call (item : BatchItem) (w : World) : Proc :=
  match topicCache w !! topic item with
  | Some id => Resolved id
  | None => AwaitSelect item
  end.

Definition getTopicId_resume (p : Proc) (w : World) : Proc * World :=
  match p with
  | AwaitSelect item =>
      match query_select_topic (topic item) w with
      | (Throw, w') => (Rejected, w')
      | (Ok (row :: _), w') =>
          (Resolved (topic_id row),
           set_topicCache (<[topic item := topic_id row]> (topicCache w')) w')
      | (Ok [], w') => (AwaitInsert item, w')
      end
  | AwaitInsert item =>
      match query_insert_topic item w with
      | (Throw, w') => (Rejected, w')
      | (Ok newTopicId, w') =>
          (Resolved newTopicId,
           set_topicCache (<[topic item := newTopicId]> (topicCache w')) w')
      end
  | Resolved _ | Rejected => (p, w)
  end.

Definition is_rejected (p : Proc) : bool :=
  match p with Rejected => true | _ => false end.

Definition is_pending (p : Proc) : bool :=
  match p with AwaitSelect _ | AwaitInsert _ => true | _ => false end.

Definition resolved_id (p : Proc) : option nat :=
  match p with Resolved id => Some id | _ => None end.

(** The calls of one [Promise.all] advance in the order the database
    answers them: [sched] lists, step by step, the position of the call
    that moves next.  The first rejection settles the [Promise.all], and
    [flushBatch] goes on from there. *)
Fixpoint run_schedule (sched : list nat) (ps : list Proc) (w : World)
  : list Proc * World :=
  match sched with
  | [] => (ps, w)
  | i :: sched' =>
      if existsb is_rejected ps then (ps, w)
      else match ps !! i with
           | Some p =>
               let '(p', w') := getTopicId_resume p w in
               run_schedule sched' (<[i := p']> ps) w'
           | None => run_schedule sched' ps w
           end
  end.

(** Whatever [sched] leaves pending is answered in batch order: two round
    trips at most bring a call to its end. *)
Definition remaining_steps (n : nat) : list nat :=
  flat_map (fun i => [i; i]) (seq 0 n).

(** [Promise.all(batchToProcess.map(item => getTopicId(...)))]: every call
    tests the cache before any of them is resumed. *)
Definition Promise_all_getTopicId (sched : list nat) (batch : list BatchItem)
  : M (list nat) :=
  fun w =>
    let topicPromises := map (fun item => getTopicId_call item w) batch in
    let '(ps, w') :=
      run_schedule (sched ++ remaining_steps (length batch)) topicPromises w in
    if existsb is_rejected ps
    then (Throw, set_inflight (inflight w' ++ filter is_pending ps) w')
    else (Ok (omap resolved_id ps), w').



(** What a call of [flushBatch] does before its first [await]. *)
Inductive FlushCall : Type :=
| Skipped                              (* nothing to write: early return *)
| Snapshot (batchToProcess : list BatchItem).

Definition flushBatch_sync (w : World) : FlushCall * World :=
  let w1 := if batchTimer w then set_batchTimer false w else w in
  match dataBatch w1 with
  | [] => (Skipped, w1)
  | _ :: _ =>
      let batchToProcess := dataBatch w1 in
      (Snapshot batchToProcess, set_dataBatch [] w1)
  end.

(** [VALUES (topicIds[index], item.ltp, NOW()), ...]. *)
Definition values (batchToProcess : list BatchItem) (topicIds : list nat)
  : list LtpRow :=
  zip_with (fun item id => mkLtpRow id (ltp item)) batchToProcess topicIds.

(** [client.release()]: logged, never fails. *)
Definition client_release (w : World) : World :=
  set_oplog (oplog w ++ [(Release, true)]) w.

(** The rest of [flushBatch], from [pool.connect()] on. *)
Definition flushBatch_async (sched : list nat) (batchToProcess : list BatchItem)
  : M unit :=
  try_catch
    (pool_connect ;;;
     try_finally
       (try_catch
          (query_begin ;;;
           topicIds <- Promise_all_getTopicId sched batchToProcess ;;
           query_insert_ltp (values batchToProcess topicIds) ;;;
           query_commit)
          (query_rollback ;;; throw))
       client_release)
    throw.

Definition flushBatch (sched : list nat) : M unit :=
  fun w =>
    match flushBatch_sync w with
    | (Skipped, w1) => (Ok tt, w1)
    | (Snapshot batchToProcess, w1) => flushBatch_async sched batchToProcess w1
    end.

(** [saveToDatabase], its five arguments taken as the [BatchItem] they
    are pushed as.  The result lists the [flushBatch] invocations the call
    made ([void flushBatch()] runs the synchronous part at once). *)
Definition saveToDatabase (item : BatchItem) (w : World) : list FlushCall * World :=
  let w1 := set_dataBatch (dataBatch w ++ [item]) w in
  let w2 := if batchTimer w1 then w1 else set_batchTimer true w1 in
  if (batchSize <=? length (dataBatch w2))%nat
  then let '(c, w3) := flushBatch_sync w2 in ([c], w3)
  else ([], w2).

(** The timer callback: [await flushBatch()]. *)
Definition timer_fires (w : World) : FlushCall * World := flushBatch_sync w.




(** A run of enqueues with no timer callback in between. *)
Fixpoint enqueue_all (items : list BatchItem) (w : World) : list FlushCall * World :=
  match items with
  | [] => ([], w)
  | item :: rest =>
      let '(c1, w1) := saveToDatabase item w in
      let '(c2, w2) := enqueue_all rest w1 in
      (c1 ++ c2, w2)
  end.

(** [getTopicId] calls made one after the other. *)
Fixpoint getTopicId_seq (items : list BatchItem) (w : World) : World :=
  match items with
  | [] => w
  | item :: rest => getTopicId_seq rest (snd (getTopicId item w))
  end.

(** Successful topic inserts for [name] in a log. *)
Definition is_topic_insert (name : string) (e : DbCall * bool) : bool :=
  match e with
  | (InsertTopic n, true) => bool_decide (n = name)
  | _ => false
  end.

Definition topic_inserts (name : string) (l : list (DbCall * bool)) : nat :=
  length (List.filter (is_topic_insert name) l).


(** What reaches the pending buffer: a call of [saveToDatabase], the
    timer callback (the runtime runs it only while the timer is pending),
    and the flush that [cleanupDatabase] asks for when something is
    pending.  Each is taken up to the first [await] of [flushBatch]. *)
Inductive input : Type :=
| Enqueue (item : BatchItem)
| TimerFires
| Shutdown.

Definition feed (e : input) (w : World) : list FlushCall * World :=
  match e with
  | Enqueue item => saveToDatabase item w
  | TimerFires =>
      if batchTimer w
      then let '(c, w') := timer_fires w in ([c], w')
      else ([], w)
  | Shutdown =>
      if (0 <? length (dataBatch w))%nat
      then let '(c, w') := flushBatch_sync w in ([c], w')
      else ([], w)
  end.

Fixpoint feed_all (es : list input) (w : World) : list FlushCall * World :=
  match es with
  | [] => ([], w)
  | e :: rest =>
      let '(c1, w1) := feed e w in
      let '(c2, w2) := feed_all rest w1 in
      (c1 ++ c2, w2)
  end.

(** [pool.end()]: not a statement, so it is not logged; the next fault
    decides whether it fails. *)
Definition pool_end : M unit :=
  fun w =>
    match faults w with
    | true :: fs => (Throw, set_faults fs w)
    | false :: fs => (Ok tt, set_faults fs w)
    | [] => (Ok tt, w)
    end.

(** [cleanupDatabase], for the module once [initialize] has set [pool].
    The boolean of the result tells whether [pool.end()] was called. *)
Definition cleanupDatabase (sched : list nat) (w : World) : Res unit * World * bool :=
  match (if (0 <? length (dataBatch w))%nat
         then flushBatch sched w
         else (Ok tt, w)) with
  | (Throw, w1) => (Throw, w1, false)
  | (Ok _, w1) => let '(r, w2) := pool_end w1 in (r, w2, true)
  end.

(** ** Vocabulary of the statements *)

(** [w'] differs from [w] on the topic side only: cache, [topics] table,
    faults, log and background calls may have moved; the pending batch,
    the timer, the open transaction and the observations have not. *)
Definition topic_side (w w' : World) : Prop :=
  dataBatch w' = dataBatch w /\
  batchTimer w' = batchTimer w /\
  txn w' = txn w /\
  ltp_data (db w') = ltp_data (db w) /\
  exists ops, oplog w' = oplog w ++ ops /\
              forall e, In e ops ->
                        match fst e with
                        | SelectTopic _ | InsertTopic _ => True
                        | _ => False
                        end.

(** How many round trips a call may still need. *)
Definition rank (p : Proc) : nat :=
  match p with
  | AwaitSelect _ => 2
  | AwaitInsert _ => 1
  | Resolved _ | Rejected => 0
  end.

(** The turns a schedule gives to the call at position [i]. *)
Definition turns (i : nat) (sched : list nat) : nat :=
  length (List.filter (Nat.eqb i) sched).



(** Two calls for the same identifier, made by two flushes that overlap:
    both test the cache before either database answer has arrived, both
    SELECTs are answered before either INSERT. *)
Definition first_sight_race (itemA itemB : BatchItem) (w : World)
  : Proc * Proc * World :=
  let pA := getTopicId_call itemA w in
  let pB := getTopicId_call itemB w in
  let '(pA1, w1) := getTopicId_resume pA w in
  let '(pB1, w2) := getTopicId_resume pB w1 in
  let '(pA2, w3) := getTopicId_resume pA1 w2 in
  let '(pB2, w4) := getTopicId_resume pB1 w3 in
  (pA2, pB2, w4).

(** The observations handed to flushes, in order. *)
Definition snapshots (calls : list FlushCall) : list BatchItem :=
  flat_map (fun c => match c with Snapshot b => b | Skipped => [] end) calls.

(** The observations a run of inputs enqueues, in order. *)
Definition enqueued (es : list input) : list BatchItem :=
  flat_map (fun e => match e with Enqueue item => [item] | _ => [] end) es.

(** A flush that has something to write, and no more than a full batch. *)
Definition flush_ok (c : FlushCall) : Prop :=
  exists b, c = Snapshot b /\ b <> [] /\ (length b <= batchSize)%nat.

(** The timer is pending exactly when something is pending, and the
    buffer is below the threshold. *)
Definition buffer_ok (w : World) : Prop :=
  (batchTimer w = true <-> dataBatch w <> []) /\
  (length (dataBatch w) < batchSize)%nat.

(** A Topic Record named [name] with identifier [id] is stored. *)
Definition stored (d : Store) (name : string) (id : nat) : Prop :=
  exists row, In row (topics d) /\ topic_name row = name /\ topic_id row = id.

(** Every cached identifier is the identifier of a stored Topic Record of
    that name. *)
Definition cache_sound (w : World) : Prop :=
  forall name id, topicCache w !! name = Some id -> stored (db w) name id.

(** [row] is the row written for [item]: its price, under the identifier
    of a stored Topic Record named as its topic. *)
Definition written_for (d : Store) (item : BatchItem) (row : LtpRow) : Prop :=
  ltp_value row = ltp item /\ stored d (topic item) (ltp_topic_id row).

(** The call at some position of a [Promise.all] works for the item at
    that position. *)
Definition proc_for (d : Store) (item : BatchItem) (p : Proc) : Prop :=
  match p with
  | AwaitSelect it | AwaitInsert it => it = item
  | Resolved id => stored d (topic item) id
  | Rejected => True
  end.

Definition procs_for (d : Store) (batch : list BatchItem) (ps : list Proc) : Prop :=
  forall i item p, batch !! i = Some item -> ps !! i = Some p -> proc_for d item p.

(** A statement on the [topics] table. *)
Definition topic_call (e : DbCall * bool) : Prop :=
  match fst e with
  | SelectTopic _ | InsertTopic _ => True
  | _ => False
  end.

(** The statements of a flush that has something to write, in order and
    with their outcomes; [mid] stands for the topic statements of its
    [getTopicId] calls. *)
Inductive flush_log : Res unit -> list (DbCall * bool) -> Prop :=
| log_no_connection :
    flush_log Throw [(Connect, false)]
| log_begin_failed (ok : bool) :
    flush_log Throw [(Connect, true); (Begin, false); (Rollback, ok); (Release, true)]
| log_topic_failed (mid : list (DbCall * bool)) (ok : bool) :
    Forall topic_call mid ->
    flush_log Throw ((Connect, true) :: (Begin, true) :: mid
                     ++ [(Rollback, ok); (Release, true)])
| log_insert_failed (mid : list (DbCall * bool)) (rows : list LtpRow) (ok : bool) :
    Forall topic_call mid ->
    flush_log Throw ((Connect, true) :: (Begin, true) :: mid
                     ++ [(InsertLtp rows, false); (Rollback, ok); (Release, true)])
| log_commit_failed (mid : list (DbCall * bool)) (rows : list LtpRow) (ok : bool) :
    Forall topic_call mid ->
    flush_log Throw ((Connect, true) :: (Begin, true) :: mid
                     ++ [(InsertLtp rows, true); (Commit, false);
                         (Rollback, ok); (Release, true)])
| log_committed (mid : list (DbCall * bool)) (rows : list LtpRow) :
    Forall topic_call mid ->
    flush_log (Ok tt) ((Connect, true) :: (Begin, true) :: mid
                       ++ [(InsertLtp rows, true); (Commit, true); (Release, true)]).

(** No two Topic Records have the same name. *)
Definition one_record_per_name (d : Store) : Prop :=
  NoDup (map topic_name (topics d)).

(** ** Facts: what a database call can change *)

Ltac unfold_m :=
  unfold pool_connect, query_begin, query_rollback, query_commit,
    query_insert_ltp, query_select_topic, query_insert_topic,
    query_select_all_topics, cache_set, bind, ret, throw, try_catch,
    try_finally, modify, gets in *.

Lemma round_trip_inv (c : DbCall) (w : World) (r : Res unit) (w' : World) :
  round_trip c w = (r, w') ->
  exists (ok : bool) (fs : list bool),
    w' = set_oplog (oplog w ++ [(c, ok)]) (set_faults fs w) /\
    r = (if ok then Ok tt else Throw).
Proof.
  unfold round_trip. intros H.
  destruct (faults w) as [|[|] fs]; inversion H; subst.
  - exists true, (faults w). split; [|reflexivity].
    destruct w; reflexivity.
  - exists false, fs. split; reflexivity.
  - exists true, fs. split; reflexivity.
Qed.

Lemma topic_side_refl (w : World) : topic_side w w.
Proof.
  repeat split. exists []. split; [now rewrite app_nil_r | intros e []].
Qed.

Lemma topic_side_trans (w1 w2 w3 : World) :
  topic_side w1 w2 -> topic_side w2 w3 -> topic_side w1 w3.
Proof.
  intros (Hb & Ht & Hx & Hl & ops & Ho & Hk) (Hb' & Ht' & Hx' & Hl' & ops' & Ho' & Hk').
  unfold topic_side. split; [congruence|]. split; [congruence|].
  split; [congruence|]. split; [congruence|].
  exists (ops ++ ops'). split.
  - rewrite Ho', Ho. now rewrite <- app_assoc.
  - intros e He. apply in_app_or in He as [He|He];
      [now apply Hk | now apply Hk'].
Qed.

Lemma getTopicId_resume_topic_side (p : Proc) (w : World) :
  topic_side w (snd (getTopicId_resume p w)).
Proof.
  destruct p as [item|item|id|]; simpl; try apply topic_side_refl.
  - unfold_m.
    destruct (round_trip (SelectTopic (topic item)) w) as [[[]|] w1] eqn:E;
      apply round_trip_inv in E as (ok & fs & -> & _).
    + destruct (rows_named _ _); simpl; repeat split;
        (eexists; split; [reflexivity|]); intros e [<-|[]]; exact I.
    + simpl. repeat split.
      eexists; split; [reflexivity|]. intros e [<-|[]]; exact I.
  - unfold_m.
    destruct (round_trip (InsertTopic (topic item)) w) as [[[]|] w1] eqn:E;
      apply round_trip_inv in E as (ok & fs & -> & _);
      simpl; repeat split;
      (eexists; split; [reflexivity|]); intros e [<-|[]]; exact I.
Qed.

Lemma run_schedule_topic_side (sched : list nat) (ps : list Proc) (w : World) :
  topic_side w (snd (run_schedule sched ps w)).
Proof.
  revert ps w. induction sched as [|i sched IH]; intros ps w; simpl.
  - apply topic_side_refl.
  - destruct (existsb is_rejected ps); [apply topic_side_refl|].
    destruct (ps !! i) as [p|]; [|apply IH].
    pose proof (getTopicId_resume_topic_side p w) as Hs.
    destruct (getTopicId_resume p w) as [p' w1]. simpl in Hs.
    eapply topic_side_trans; [exact Hs | apply IH].
Qed.

Lemma Promise_all_topic_side (sched : list nat) (batch : list BatchItem)
      (w : World) :
  topic_side w (snd (Promise_all_getTopicId sched batch w)).
Proof.
  unfold Promise_all_getTopicId.
  pose proof (run_schedule_topic_side
                (sched ++ remaining_steps (length batch))
                (map (fun item => getTopicId_call item w) batch) w) as Hs.
  destruct (run_schedule _ _ w) as [ps w1]. simpl in Hs.
  destruct (existsb is_rejected ps); simpl; [|exact Hs].
  destruct Hs as (Hb & Ht & Hx & Hl & Ho). repeat split; assumption.
Qed.


(** ** Facts: [Promise.all] settles *)

Lemma getTopicId_resume_rank (p : Proc) (w : World) :
  (rank (fst (getTopicId_resume p w)) <= pred (rank p))%nat.
Proof.
  destruct p as [item|item|id|]; cbn [getTopicId_resume]; unfold_m.
  - destruct (round_trip (SelectTopic (topic item)) w) as [[[]|] w1]; cbn; [|lia].
    destruct (rows_named (topic item) (db w1)); cbn; lia.
  - destruct (round_trip (InsertTopic (topic item)) w) as [[[]|] w1]; cbn; lia.
  - cbn. lia.
  - cbn. lia.
Qed.

Lemma turns_app (i : nat) (s s' : list nat) :
  turns i (s ++ s') = (turns i s + turns i s')%nat.
Proof. unfold turns. now rewrite List.filter_app, length_app. Qed.

Lemma turns_remaining (i a n : nat) :
  (a <= i < a + n)%nat ->
  turns i (flat_map (fun k => [k; k]) (seq a n)) = 2%nat.
Proof.
  revert a. induction n as [|n IH]; intros a Hi; [lia|].
  cbn [seq flat_map]. rewrite turns_app.
  destruct (Nat.eq_dec i a) as [->|Hne].
  - unfold turns at 1. cbn [List.filter]. rewrite Nat.eqb_refl. cbn [length].
    assert (H0 : turns a (flat_map (fun k => [k; k]) (seq (S a) n)) = 0%nat).
    { clear. unfold turns.
      assert (H : forall b, (a < b)%nat ->
                  List.filter (Nat.eqb a) (flat_map (fun k => [k; k]) (seq b n)) = []).
      { induction n as [|n IH]; intros b Hb; [reflexivity|].
        cbn [seq flat_map app List.filter].
        destruct (Nat.eqb_spec a b); [lia|]. apply IH. lia. }
      now rewrite H by lia. }
    rewrite H0. reflexivity.
  - unfold turns at 1. cbn [List.filter app].
    destruct (Nat.eqb_spec i a); [contradiction|]. cbn [length].
    apply IH. lia.
Qed.

(** Unless a call is rejected, every call has moved once per turn it was
    given. *)
Lemma run_schedule_progress (sched : list nat) (ps : list Proc) (w : World) :
  length (fst (run_schedule sched ps w)) = length ps /\
  (existsb is_rejected (fst (run_schedule sched ps w)) = true \/
   forall i p, ps !! i = Some p ->
     exists p', fst (run_schedule sched ps w) !! i = Some p' /\
                (rank p' <= rank p - turns i sched)%nat).
Proof.
  revert ps w. induction sched as [|k sched IH]; intros ps w.
  - cbn. split; [reflexivity|]. right. intros i p Hp. exists p. split; [exact Hp|lia].
  - cbn [run_schedule].
    destruct (existsb is_rejected ps) eqn:Erej.
    { cbn [fst]. split; [reflexivity|]. now left. }
    destruct (ps !! k) as [pk|] eqn:Ek.
    + pose proof (getTopicId_resume_rank pk w) as Hrank.
      destruct (getTopicId_resume pk w) as [pk' w1]. cbn [fst] in Hrank.
      destruct (IH (<[k := pk']> ps) w1) as (Hlen & Hprog).
      rewrite length_insert in Hlen. split; [exact Hlen|].
      destruct Hprog as [Hrej|Hprog]; [now left|]. right.
      intros i p Hp. unfold turns. cbn [List.filter].
      destruct (Nat.eqb_spec i k) as [->|Hne].
      * assert (Hk : <[k := pk']> ps !! k = Some pk').
        { apply list_lookup_insert_eq. now apply lookup_lt_Some in Ek. }
        destruct (Hprog k pk' Hk) as (p' & Hp' & Hr).
        exists p'. split; [exact Hp'|].
        rewrite Ek in Hp. injection Hp as <-.
        cbn [length]. unfold turns in Hr. lia.
      * assert (Hi : <[k := pk']> ps !! i = Some p).
        { rewrite list_lookup_insert_ne by congruence. exact Hp. }
        destruct (Hprog i p Hi) as (p' & Hp' & Hr).
        exists p'. split; [exact Hp'|exact Hr].
    + destruct (IH ps w) as (Hlen & Hprog). split; [exact Hlen|].
      destruct Hprog as [Hrej|Hprog]; [now left|]. right.
      intros i p Hp. unfold turns. cbn [List.filter].
      destruct (Nat.eqb_spec i k) as [->|Hne]; [congruence|].
      exact (Hprog i p Hp).
Qed.

Lemma all_resolved_length (ps : list Proc) :
  existsb is_rejected ps = false ->
  (forall i p, ps !! i = Some p -> rank p = 0%nat) ->
  length (omap resolved_id ps) = length ps.
Proof.
  induction ps as [|p ps IH]; intros Hrej Hrank; [reflexivity|].
  cbn [existsb] in Hrej. apply orb_false_iff in Hrej as [Hp Hrej].
  pose proof (Hrank 0%nat p eq_refl) as H0.
  destruct p; cbn in H0, Hp; try discriminate.
  cbn [omap list_omap resolved_id length]. f_equal.
  apply IH; [exact Hrej|]. intros i q Hq. exact (Hrank (S i) q Hq).
Qed.

(** When [Promise.all] resolves, it resolves with one id per item. *)
Lemma Promise_all_ok_length (sched : list nat) (batch : list BatchItem)
      (w : World) (topicIds : list nat) (w' : World) :
  Promise_all_getTopicId sched batch w = (Ok topicIds, w') ->
  length topicIds = length batch.
Proof.
  unfold Promise_all_getTopicId.
  set (ps := map (fun item => getTopicId_call item w) batch).
  pose proof (run_schedule_progress
                (sched ++ remaining_steps (length batch)) ps w) as (Hlen & Hprog).
  destruct (run_schedule (sched ++ remaining_steps (length batch)) ps w)
    as [ps' w1]. cbn [fst] in *.
  destruct (existsb is_rejected ps') eqn:Erej; [discriminate|].
  intros [= <- <-].
  destruct Hprog as [Hrej|Hprog]; [congruence|].
  rewrite all_resolved_length; [|exact Erej|].
  - rewrite Hlen. unfold ps. apply length_map.
  - intros i p' Hp'.
    assert (Hi : (i < length ps)%nat).
    { rewrite <- Hlen. now apply lookup_lt_Some in Hp'. }
    destruct (lookup_lt_is_Some_2 ps i Hi) as [p Hp].
    destruct (Hprog i p Hp) as (q & Hq & Hr).
    rewrite Hp' in Hq. injection Hq as <-.
    rewrite turns_app in Hr. unfold remaining_steps in Hr.
    rewrite turns_remaining in Hr.
    + destruct p; cbn in Hr; lia.
    + unfold ps in Hi. rewrite length_map in Hi. lia.
Qed.

(** ** Facts: the transaction of [flushBatch] *)

(** The body of the inner [try]: either it commits the whole snapshot, or
    it throws and nothing has become durable. *)
Lemma transaction_outcome (sched : list nat) (b : list BatchItem)
      (w : World) (r : Res unit) (w' : World) :
  (query_begin ;;;
   topicIds <- Promise_all_getTopicId sched b ;;
   query_insert_ltp (values b topicIds) ;;;
   query_commit) w = (r, w') ->
  dataBatch w' = dataBatch w /\
  batchTimer w' = batchTimer w /\
  (exists ops, oplog w' = oplog w ++ ops) /\
  match r with
  | Throw => ltp_data (db w') = ltp_data (db w)
  | Ok _ => exists topicIds,
      length topicIds = length b /\
      ltp_data (db w') = ltp_data (db w) ++ values b topicIds /\ txn w' = None
  end.
Proof.
  unfold_m. intros H.
  destruct (round_trip Begin w) as [[[]|] w1] eqn:E1;
    apply round_trip_inv in E1 as (ok1 & fs1 & -> & _).
  2:{ inversion H; subst; simpl. repeat split. eexists; reflexivity. }
  match type of H with
  | context [Promise_all_getTopicId sched b ?w0] =>
      pose proof (Promise_all_topic_side sched b w0) as Hs;
      pose proof (Promise_all_ok_length sched b w0) as Hn;
      destruct (Promise_all_getTopicId sched b w0) as [[ids|] w2]
  end; simpl in Hs, H;
    destruct Hs as (Hb & Ht & Hx & Hl & ops2 & Ho2 & _).
  2:{ inversion H; subst. repeat split; try assumption.
      eexists. rewrite Ho2. simpl. rewrite <- app_assoc. reflexivity. }
  destruct (round_trip (InsertLtp (values b ids)) w2) as [[[]|] w3] eqn:E3;
    apply round_trip_inv in E3 as (ok3 & fs3 & -> & _).
  2:{ inversion H; subst; simpl. repeat split; try assumption.
      eexists. rewrite Ho2. simpl. rewrite <- !app_assoc. reflexivity. }
  simpl in H. rewrite Hx in H. simpl in H.
  match type of H with
  | context [round_trip Commit ?w0] =>
      destruct (round_trip Commit w0) as [[[]|] w4] eqn:E4;
      apply round_trip_inv in E4 as (ok4 & fs4 & -> & _)
  end.
  2:{ inversion H; subst; simpl. repeat split; try assumption.
      eexists. rewrite Ho2. simpl. rewrite <- !app_assoc. reflexivity. }
  simpl in H. inversion H; subst; simpl.
  repeat split; try assumption.
  - eexists. rewrite Ho2. simpl. rewrite <- !app_assoc. reflexivity.
  - exists ids. rewrite Hl. simpl.
    split; [exact (Hn ids w2 eq_refl)|]. split; reflexivity.
Qed.

(** The [catch] block of the transaction. *)
Lemma rollback_outcome (w : World) (r : Res unit) (w' : World) :
  (query_rollback ;;; throw) w = (r, w') ->
  r = Throw /\
  dataBatch w' = dataBatch w /\
  batchTimer w' = batchTimer w /\
  db w' = db w /\
  exists ok, oplog w' = oplog w ++ [(Rollback, ok)] /\
             (ok = true -> txn w' = None).
Proof.
  unfold_m. intros H.
  destruct (round_trip Rollback w) as [[[]|] w1] eqn:E1;
    apply round_trip_inv in E1 as (ok1 & fs1 & -> & Hr);
    destruct ok1; try discriminate Hr;
    inversion H; subst; simpl; repeat split.
  - exists true. split; reflexivity.
  - exists false. split; [reflexivity|discriminate].
Qed.

(** A flush that fails leaves the observations table as it was; if it got
    a connection, its last statement was a [ROLLBACK], and unless that
    statement failed too no transaction stays open. *)
Lemma flushBatch_async_failure (sched : list nat) (b : list BatchItem)
      (w w' : World) :
  flushBatch_async sched b w = (Throw, w') ->
  dataBatch w' = dataBatch w /\
  batchTimer w' = batchTimer w /\
  ltp_data (db w') = ltp_data (db w) /\
  exists ops, oplog w' = oplog w ++ ops /\
    (ops = [(Connect, false)] \/
     exists mid ok,
       ops = (Connect, true) :: mid ++ [(Rollback, ok); (Release, true)] /\
       (ok = true -> txn w' = None)).
Proof.
  unfold flushBatch_async, try_catch at 1, bind at 1, pool_connect.
  intros H.
  destruct (round_trip Connect w) as [[[]|] w1] eqn:E1;
    apply round_trip_inv in E1 as (ok1 & fs1 & -> & Hr1);
    destruct ok1; try discriminate Hr1; clear Hr1.
  2:{ unfold throw in H. inversion H; subst; simpl. repeat split.
      eexists. split; [reflexivity|]. now left. }
  unfold try_finally, try_catch at 1 in H.
  match type of H with
  | context [bind query_begin ?k ?w0] =>
      pose proof (transaction_outcome sched b w0) as Ht;
      destruct (bind query_begin k w0) as [[[]|] w2] eqn:E2
  end.
  { unfold throw in H. simpl in H. inversion H. }
  specialize (Ht _ _ eq_refl). simpl in Ht.
  destruct Ht as (Hb & Htm & (ops & Ho) & Hl).
  destruct ((query_rollback ;;; throw) w2) as [r3 w3] eqn:E3.
  apply rollback_outcome in E3 as (-> & Hb3 & Ht3 & Hd3 & ok & Ho3 & Hx3).
  unfold throw in H. inversion H; subst; simpl.
  repeat split; try congruence.
  eexists. split.
  - rewrite Ho3, Ho. simpl. rewrite <- !app_assoc. simpl. reflexivity.
  - right. exists ops, ok. split; [reflexivity|]. exact Hx3.
Qed.

(** A flush that succeeds appends one row per observation of the
    snapshot, in order. *)
Lemma flushBatch_async_success (sched : list nat) (b : list BatchItem)
      (w w' : World) :
  flushBatch_async sched b w = (Ok tt, w') ->
  dataBatch w' = dataBatch w /\
  exists topicIds,
    length topicIds = length b /\
    ltp_data (db w') = ltp_data (db w) ++ values b topicIds /\
    map ltp_value (values b topicIds) = map ltp b /\
    txn w' = None.
Proof.
  unfold flushBatch_async, try_catch at 1, bind at 1, pool_connect.
  intros H.
  destruct (round_trip Connect w) as [[[]|] w1] eqn:E1;
    apply round_trip_inv in E1 as (ok1 & fs1 & -> & Hr1);
    destruct ok1; try discriminate Hr1; clear Hr1.
  2:{ unfold throw in H. inversion H. }
  unfold try_finally, try_catch at 1 in H.
  match type of H with
  | context [bind query_begin ?k ?w0] =>
      pose proof (transaction_outcome sched b w0) as Ht;
      destruct (bind query_begin k w0) as [[[]|] w2] eqn:E2
  end.
  - specialize (Ht _ _ eq_refl). simpl in Ht.
    destruct Ht as (Hb & _ & _ & ids & Hn & Hl & Hx).
    inversion H; subst; simpl. split; [exact Hb|]. exists ids.
    split; [exact Hn|]. split; [exact Hl|]. split; [|exact Hx].
    clear -Hn. revert ids Hn. induction b as [|x b IH]; intros [|i ids] Hn;
      try discriminate; [reflexivity|].
    cbn. f_equal. apply IH. now injection Hn.
  - destruct ((query_rollback ;;; throw) w2) as [r3 w3] eqn:E3.
    apply rollback_outcome in E3 as (-> & _).
    unfold throw in H. inversion H.
Qed.

(** ** Facts: the pending buffer *)

Lemma flushBatch_sync_nonempty (w : World) :
  dataBatch w <> [] ->
  flushBatch_sync w =
    (Snapshot (dataBatch w), set_dataBatch [] (set_batchTimer false w)).
Proof.
  intros Hne. unfold flushBatch_sync.
  destruct w as [b t c d x f o i]. simpl in *.
  destruct t; simpl; destruct b; try congruence; reflexivity.
Qed.

Lemma saveToDatabase_below (item : BatchItem) (w : World) :
  (S (length (dataBatch w)) < batchSize)%nat ->
  saveToDatabase item w =
    ([], set_batchTimer true (set_dataBatch (dataBatch w ++ [item]) w)).
Proof.
  intros Hlt. unfold saveToDatabase.
  destruct w as [b t c d x f o i]. simpl in *.
  assert (Hlen : (batchSize <=? length (b ++ [item]))%nat = false).
  { apply Nat.leb_gt. rewrite length_app. simpl. lia. }
  destruct t; simpl; rewrite Hlen; reflexivity.
Qed.

Lemma saveToDatabase_reaches (item : BatchItem) (w : World) :
  (batchSize <= S (length (dataBatch w)))%nat ->
  saveToDatabase item w =
    ([Snapshot (dataBatch w ++ [item])],
     set_dataBatch [] (set_batchTimer false w)).
Proof.
  intros Hle. unfold saveToDatabase.
  destruct w as [b t c d x f o i]. simpl in *.
  assert (Hlen : (batchSize <=? length (b ++ [item]))%nat = true).
  { apply Nat.leb_le. rewrite length_app. simpl. lia. }
  destruct t; simpl; rewrite Hlen; unfold flushBatch_sync; simpl;
    destruct (b ++ [item]) eqn:E; try reflexivity;
    now apply app_eq_nil in E as [_ ?].
Qed.

Lemma enqueue_all_app (xs ys : list BatchItem) (w : World) :
  enqueue_all (xs ++ ys) w =
    let '(c1, w1) := enqueue_all xs w in
    let '(c2, w2) := enqueue_all ys w1 in
    (c1 ++ c2, w2).
Proof.
  revert w. induction xs as [|x xs IH]; intros w; simpl.
  - now destruct (enqueue_all ys w).
  - destruct (saveToDatabase x w) as [c1 w1]. rewrite IH.
    destruct (enqueue_all xs w1) as [c2 w2].
    destruct (enqueue_all ys w2) as [c3 w3].
    now rewrite app_assoc.
Qed.

(** Below the threshold nothing is flushed: the items pile up. *)
Lemma enqueue_all_below (items : list BatchItem) (w : World) :
  items <> [] ->
  (length (dataBatch w) + length items < batchSize)%nat ->
  enqueue_all items w =
    ([], set_batchTimer true (set_dataBatch (dataBatch w ++ items) w)).
Proof.
  revert w. induction items as [|x items IH]; intros w Hne Hlt; [congruence|].
  simpl in *. rewrite saveToDatabase_below by lia.
  destruct items as [|y items].
  - reflexivity.
  - rewrite IH; [|discriminate|simpl; rewrite length_app; simpl in *; lia].
    destruct w as [b t c d xx f o i]. simpl.
    now rewrite <- app_assoc.
Qed.

(** C4: from an empty buffer, enqueuing exactly [batchSize] observations
    with no timer callback invokes [flushBatch] exactly once; the snapshot
    it takes is exactly these observations, in order; the buffer is empty
    again (and the timer cleared) before the write starts, so whatever is
    enqueued later is handled as a new batch. *)
Theorem C4_size_triggered_flush (items : list BatchItem) (w : World) :
  (0 < batchSize)%nat ->
  length items = batchSize ->
  dataBatch w = [] ->
  enqueue_all items w = ([Snapshot items], set_batchTimer false w) /\
  dataBatch (snd (enqueue_all items w)) = [] /\
  forall later : list BatchItem,
    enqueue_all (items ++ later) w =
      let '(calls, w') := enqueue_all later (set_batchTimer false w) in
      (Snapshot items :: calls, w').
Proof.
  intros Hpos Hlen Hempty.
  assert (Hrun : enqueue_all items w = ([Snapshot items], set_batchTimer false w)).
  { destruct (exists_last (l := items)) as (init & last & ->).
    { intros ->. simpl in Hlen. lia. }
    rewrite length_app in Hlen. simpl in Hlen.
    rewrite enqueue_all_app.
    destruct init as [|x init]; simpl in Hlen.
    - simpl. rewrite saveToDatabase_reaches by (rewrite Hempty; simpl; lia).
      rewrite Hempty. simpl.
      destruct w as [b t c d xx f o i]. simpl in *. now subst b.
    - rewrite enqueue_all_below;
        [|discriminate|rewrite Hempty; simpl in *; lia].
      simpl. rewrite saveToDatabase_reaches.
      + simpl. rewrite Hempty. simpl.
        destruct w as [b t c d xx f o i]. simpl in *. now subst b.
      + simpl. rewrite Hempty. simpl. lia. }
  split; [exact Hrun|]. split.
  - rewrite Hrun. simpl. exact Hempty.
  - intros later. rewrite enqueue_all_app, Hrun.
    now destruct (enqueue_all later (set_batchTimer false w)).
Qed.

(** ** Facts: a failed flush *)


(** ** Facts: the topic cache in sequential execution *)

Lemma topic_inserts_app (name : string) (l l' : list (DbCall * bool)) :
  topic_inserts name (l ++ l') = (topic_inserts name l + topic_inserts name l')%nat.
Proof.
  unfold topic_inserts. now rewrite List.filter_app, length_app.
Qed.

Lemma topic_inserts_snoc (name : string) (l : list (DbCall * bool)) (e : DbCall * bool) :
  topic_inserts name (l ++ [e])
  = (topic_inserts name l + (if is_topic_insert name e then 1 else 0))%nat.
Proof.
  rewrite topic_inserts_app. unfold topic_inserts at 2. simpl.
  now destruct (is_topic_insert name e).
Qed.

Lemma getTopicId_hit (item : BatchItem) (w : World) (id : nat) :
  topicCache w !! topic item = Some id -> getTopicId item w = (Ok id, w).
Proof.
  intros H. unfold getTopicId. now rewrite H.
Qed.

(** Everything one call can do to the cache and to the [topics] table. *)
Lemma getTopicId_effect (item : BatchItem) (w : World) (r : Res nat) (w' : World) :
  getTopicId item w = (r, w') ->
  (forall id, r = Ok id -> topicCache w' !! topic item = Some id) /\
  (forall name, name <> topic item ->
     topicCache w' !! name = topicCache w !! name /\
     topic_inserts name (oplog w') = topic_inserts name (oplog w)) /\
  (topic_inserts (topic item) (oplog w') <= S (topic_inserts (topic item) (oplog w)))%nat /\
  (topic_inserts (topic item) (oplog w') <> topic_inserts (topic item) (oplog w) ->
     is_Some (topicCache w' !! topic item)).
Proof.
  unfold getTopicId.
  destruct (topicCache w !! topic item) as [id0|] eqn:Ec.
  { unfold ret. intros H. inversion H; subst.
    refine (conj _ (conj _ (conj _ _))).
    - intros id [= <-]. exact Ec.
    - intros name _. split; reflexivity.
    - lia.
    - congruence. }
  unfold_m.
  destruct (round_trip (SelectTopic (topic item)) w) as [[[]|] w1] eqn:E1;
    apply round_trip_inv in E1 as (ok1 & fs1 & -> & Hr1); simpl.
  2:{ intros H. inversion H; subst; simpl.
      refine (conj _ (conj _ (conj _ _))).
      - discriminate.
      - intros name _. rewrite topic_inserts_snoc. simpl. split; [reflexivity|lia].
      - rewrite topic_inserts_snoc. simpl. lia.
      - intros Hne. exfalso. apply Hne. rewrite topic_inserts_snoc. simpl. lia. }
  destruct (rows_named (topic item) (db w)) as [|row rows] eqn:Er.
  2:{ intros H. inversion H; subst; simpl.
      refine (conj _ (conj _ (conj _ _))).
      - intros id [= <-]. apply lookup_insert_eq.
      - intros name Hne. rewrite lookup_insert_ne by congruence.
        rewrite topic_inserts_snoc. simpl. split; [reflexivity|lia].
      - rewrite topic_inserts_snoc. simpl. lia.
      - intros _. rewrite lookup_insert_eq. eauto. }
  match goal with
  | |- context [round_trip (InsertTopic ?n) ?w0] =>
      destruct (round_trip (InsertTopic n) w0) as [[[]|] w2] eqn:E2;
      apply round_trip_inv in E2 as (ok2 & fs2 & -> & Hr2)
  end; simpl; intros H; inversion H; subst; simpl;
    destruct ok2; try discriminate Hr2;
    refine (conj _ (conj _ (conj _ _))).
  - intros id [= <-]. apply lookup_insert_eq.
  - intros name Hne. rewrite lookup_insert_ne by congruence.
    rewrite !topic_inserts_snoc. simpl.
    rewrite bool_decide_eq_false_2 by congruence. split; [reflexivity|lia].
  - rewrite !topic_inserts_snoc. simpl.
    rewrite bool_decide_eq_true_2 by reflexivity. lia.
  - intros _. rewrite lookup_insert_eq. eauto.
  - discriminate.
  - intros name _. rewrite !topic_inserts_snoc. simpl.
    split; [reflexivity|lia].
  - rewrite !topic_inserts_snoc. simpl. lia.
  - intros Hne. exfalso. apply Hne. rewrite !topic_inserts_snoc. simpl. lia.
Qed.

(** A cached identifier is never replaced, and no insert is made for it. *)
Lemma getTopicId_cached_stable (item : BatchItem) (w : World)
      (name : string) (id : nat) :
  topicCache w !! name = Some id ->
  topicCache (snd (getTopicId item w)) !! name = Some id /\
  topic_inserts name (oplog (snd (getTopicId item w))) = topic_inserts name (oplog w).
Proof.
  intros Hc. destruct (decide (name = topic item)) as [->|Hne].
  - rewrite (getTopicId_hit item w id Hc). simpl. split; [exact Hc|reflexivity].
  - destruct (getTopicId item w) as [r w'] eqn:E.
    apply getTopicId_effect in E as (_ & Ho & _). simpl.
    destruct (Ho name Hne) as [-> ->]. split; [exact Hc|reflexivity].
Qed.

Lemma getTopicId_seq_cached_stable (calls : list BatchItem) (w : World)
      (name : string) (id : nat) :
  topicCache w !! name = Some id ->
  topicCache (getTopicId_seq calls w) !! name = Some id /\
  topic_inserts name (oplog (getTopicId_seq calls w)) = topic_inserts name (oplog w).
Proof.
  revert w. induction calls as [|item calls IH]; intros w Hc; simpl.
  - split; [exact Hc|reflexivity].
  - destruct (getTopicId_cached_stable item w name id Hc) as [Hc1 Hi1].
    destruct (IH _ Hc1) as [Hc2 Hi2]. split; [exact Hc2|congruence].
Qed.

Lemma getTopicId_seq_one_insert (calls : list BatchItem) (w : World) (name : string) :
  (topic_inserts name (oplog (getTopicId_seq calls w))
   <= S (topic_inserts name (oplog w)))%nat.
Proof.
  revert w. induction calls as [|item calls IH]; intros w; simpl; [lia|].
  destruct (getTopicId item w) as [r w1] eqn:E. simpl.
  pose proof E as E'.
  apply getTopicId_effect in E as (_ & Ho & Hle & Hc).
  destruct (decide (name = topic item)) as [->|Hne].
  - destruct (decide (topic_inserts (topic item) (oplog w1)
                      = topic_inserts (topic item) (oplog w))) as [Heq|Hneq].
    + rewrite <- Heq. apply IH.
    + destruct (Hc Hneq) as [id Hid].
      destruct (getTopicId_seq_cached_stable calls w1 _ id Hid) as [_ ->].
      exact Hle.
  - destruct (Ho name Hne) as [_ <-]. apply IH.
Qed.

(** C10: in sequential execution, once [getTopicId] has returned an id
    for an identifier, every later call for that identifier returns the
    same id straight from the cache: the call changes nothing, so it sends
    no query and no insert.  Hence a run of sequential calls, from any
    state, performs at most one successful topic insert per identifier. *)
Theorem C10_cached_topic_id (item : BatchItem) (w w1 : World) (id : nat) :
  getTopicId item w = (Ok id, w1) ->
  (forall (calls : list BatchItem) (item' : BatchItem),
     topic item' = topic item ->
     getTopicId item' (getTopicId_seq calls w1)
       = (Ok id, getTopicId_seq calls w1) /\
     topic_inserts (topic item) (oplog (getTopicId_seq calls w1))
       = topic_inserts (topic item) (oplog w1)) /\
  (forall (calls : list BatchItem) (w0 : World) (name : string),
     (topic_inserts name (oplog (getTopicId_seq calls w0))
      <= S (topic_inserts name (oplog w0)))%nat).
Proof.
  intros H. split.
  - intros calls item' Ht.
    apply getTopicId_effect in H as (Hc & _).
    specialize (Hc id eq_refl).
    destruct (getTopicId_seq_cached_stable calls w1 _ id Hc) as [Hc' Hi].
    split; [|exact Hi].
    apply getTopicId_hit. now rewrite Ht.
  - intros calls w0 name. apply getTopicId_seq_one_insert.
Qed.


(** [initialize] fills the cache from the table: afterwards every stored
    identifier is answered from the cache. *)
Lemma preload_lookup (rows : list TopicRow) (c : gmap string nat) (name : string) :
  (exists row, In row rows /\ topic_name row = name) ->
  exists row, In row rows /\ topic_name row = name /\
              preload rows c !! name = Some (topic_id row).
Proof.
  revert c. induction rows as [|row rows IH]; intros c (r & Hin & Hn).
  - destruct Hin.
  - unfold preload. cbn [fold_left]. fold (preload rows (<[topic_name row := topic_id row]> c)).
    assert (Hdec : (exists r', In r' rows /\ topic_name r' = name) \/
                   ~ (exists r', In r' rows /\ topic_name r' = name)).
    { destruct (existsb (fun r' => bool_decide (topic_name r' = name)) rows) eqn:E.
      - left. apply existsb_exists in E as (r' & Hr' & Hb).
        exists r'. split; [exact Hr'|]. now apply bool_decide_eq_true_1 in Hb.
      - right. intros (r' & Hr' & Hb).
        assert (existsb (fun r' => bool_decide (topic_name r' = name)) rows = true);
          [|congruence].
        apply existsb_exists. exists r'. split; [exact Hr'|].
        now apply bool_decide_eq_true_2. }
    destruct Hdec as [Hlater|Hnot].
    + destruct (IH (<[topic_name row := topic_id row]> c) Hlater)
        as (r' & Hin' & Hn' & Hl).
      exists r'. split; [now right|]. split; assumption.
    + destruct Hin as [<-|Hin]; [|exfalso; apply Hnot; eauto].
      exists row. split; [now left|]. split; [exact Hn|].
      assert (Hkeep : forall rows' c',
                 (forall r', In r' rows' -> topic_name r' <> name) ->
                 preload rows' c' !! name = c' !! name).
      { clear. induction rows' as [|r' rows' IH']; intros c' Hno; [reflexivity|].
        unfold preload. cbn [fold_left].
        fold (preload rows' (<[topic_name r' := topic_id r']> c')).
        rewrite IH' by (intros r'' Hr''; apply Hno; now right).
        apply lookup_insert_ne. apply Hno. now left. }
      rewrite Hkeep.
      * rewrite Hn. apply lookup_insert_eq.
      * intros r' Hr' Hname. apply Hnot. eauto.
Qed.

Lemma initialize_preloads (w w' : World) (item : BatchItem) :
  initialize w = (Ok tt, w') ->
  (exists row, In row (topics (db w)) /\ topic_name row = topic item) ->
  exists id, getTopicId item w' = (Ok id, w').
Proof.
  unfold initialize. unfold_m. intros H Hrow.
  destruct (round_trip SelectAllTopics w) as [[[]|] w1] eqn:E1;
    apply round_trip_inv in E1 as (ok & fs & -> & _); [|discriminate].
  cbn in H. injection H as <-.
  destruct (preload_lookup (topics (db w)) (topicCache w) (topic item) Hrow)
    as (row & _ & _ & Hl).
  exists (topic_id row). apply getTopicId_hit. exact Hl.
Qed.

(** ** Facts: [getTopicId] cut at its [await]s *)

(** Run without interruption, the three pieces make up the function. *)
Lemma getTopicId_uninterrupted (item : BatchItem) (w : World) :
  getTopicId item w =
    let '(p1, w1) := getTopicId_resume (getTopicId_call item w) w in
    let '(p2, w2) := getTopicId_resume p1 w1 in
    (match p2 with Resolved id => Ok id | _ => Throw end, w2).
Proof.
  unfold getTopicId, getTopicId_call.
  destruct (topicCache w !! topic item) as [id|]; [reflexivity|].
  simpl. unfold_m.
  destruct (round_trip (SelectTopic (topic item)) w) as [[[]|] w1]; simpl;
    [|reflexivity].
  destruct (rows_named (topic item) (db w1)) as [|row rows]; simpl;
    [|reflexivity].
  unfold_m.
  destruct (round_trip (InsertTopic (topic item)) w1) as [[[]|] w2]; reflexivity.
Qed.

Lemma rows_named_add_same (item : BatchItem) (d : Store) :
  rows_named (topic item) (add_topic_row item d)
  = rows_named (topic item) d
      ++ [mkTopicRow (S (topics_seq d)) (topic item) (indexName item)
                     (type item) (strike item)].
Proof.
  unfold rows_named, add_topic_row. simpl.
  rewrite filter_app. f_equal.
  rewrite filter_cons_True by reflexivity. reflexivity.
Qed.

Lemma round_trip_no_fault (c : DbCall) (w : World) :
  faults w = [] ->
  round_trip c w = (Ok tt, set_oplog (oplog w ++ [(c, true)]) w).
Proof.
  intros Hf. unfold round_trip. now rewrite Hf.
Qed.

Lemma resume_select_no_row (item : BatchItem) (w : World) :
  faults w = [] ->
  rows_named (topic item) (db w) = [] ->
  getTopicId_resume (AwaitSelect item) w
  = (AwaitInsert item,
     set_oplog (oplog w ++ [(SelectTopic (topic item), true)]) w).
Proof.
  intros Hf Hr. simpl. unfold_m.
  rewrite round_trip_no_fault by assumption. simpl. now rewrite Hr.
Qed.

Lemma resume_insert_no_fault (item : BatchItem) (w : World) :
  faults w = [] ->
  getTopicId_resume (AwaitInsert item) w
  = (Resolved (S (topics_seq (db w))),
     set_topicCache (<[topic item := S (topics_seq (db w))]> (topicCache w))
       (set_db (add_topic_row item (db w))
          (set_oplog (oplog w ++ [(InsertTopic (topic item), true)]) w))).
Proof.
  intros Hf. simpl. unfold_m.
  rewrite round_trip_no_fault by assumption. reflexivity.
Qed.

(** Whenever the identifier is neither cached nor stored and the database
    does not fail, that interleaving creates two Topic Records for it, and
    the two flushes go on with different ids. *)
Lemma first_sight_race_two_records (itemA itemB : BatchItem) (w : World) :
  topic itemB = topic itemA ->
  topicCache w !! topic itemA = None ->
  rows_named (topic itemA) (db w) = [] ->
  faults w = [] ->
  let '(pA, pB, w') := first_sight_race itemA itemB w in
  pA = Resolved (S (topics_seq (db w))) /\
  pB = Resolved (S (S (topics_seq (db w)))) /\
  length (rows_named (topic itemA) (db w')) = 2%nat.
Proof.
  intros Ht Hc Hr Hf.
  unfold first_sight_race, getTopicId_call. rewrite Ht, Hc.
  rewrite resume_select_no_row by assumption.
  rewrite resume_select_no_row by (simpl; congruence).
  rewrite resume_insert_no_fault by (simpl; assumption).
  rewrite resume_insert_no_fault by (simpl; assumption).
  simpl. split; [reflexivity|]. split; [reflexivity|].
  rewrite <- Ht at 1. rewrite rows_named_add_same. rewrite Ht.
  rewrite rows_named_add_same. rewrite Hr. reflexivity.
Qed.

(** ** Facts: the buffer over whole runs *)

Lemma flushBatch_sync_snapshot (w : World) :
  snapshots [fst (flushBatch_sync w)] ++ dataBatch (snd (flushBatch_sync w))
  = dataBatch w.
Proof.
  unfold flushBatch_sync.
  destruct w as [b t c d x f o i]. destruct t; destruct b; cbn;
    rewrite ?app_nil_r; reflexivity.
Qed.

Lemma feed_snapshot (e : input) (w : World) :
  snapshots (fst (feed e w)) ++ dataBatch (snd (feed e w))
  = dataBatch w ++ enqueued [e].
Proof.
  destruct e as [item| |]; cbn [feed enqueued flat_map]; rewrite ?app_nil_r.
  - unfold saveToDatabase.
    match goal with |- context [if ?c then _ else _] => set (w2 := c) end.
    set (w1 := if batchTimer (set_dataBatch (dataBatch w ++ [item]) w)
               then set_dataBatch (dataBatch w ++ [item]) w
               else set_batchTimer true (set_dataBatch (dataBatch w ++ [item]) w)).
    assert (Hb : dataBatch w1 = dataBatch w ++ [item]).
    { unfold w1. destruct (batchTimer _); reflexivity. }
    subst w2. fold w1.
    destruct (batchSize <=? length (dataBatch w1))%nat.
    + pose proof (flushBatch_sync_snapshot w1) as Hs.
      destruct (flushBatch_sync w1) as [c w3]. cbn [fst snd] in *. now rewrite Hs.
    + cbn. exact Hb.
  - unfold timer_fires. destruct (batchTimer w); [|reflexivity].
    pose proof (flushBatch_sync_snapshot w) as Hs.
    destruct (flushBatch_sync w) as [c w3]. exact Hs.
  - destruct (0 <? length (dataBatch w))%nat; [|reflexivity].
    pose proof (flushBatch_sync_snapshot w) as Hs.
    destruct (flushBatch_sync w) as [c w3]. exact Hs.
Qed.

Lemma snapshots_app (c c' : list FlushCall) :
  snapshots (c ++ c') = snapshots c ++ snapshots c'.
Proof. unfold snapshots. apply flat_map_app. Qed.

(** X5: between [saveToDatabase] and the flushes no observation is lost,
    duplicated or reordered: after any run of enqueues, timer callbacks
    and shutdown flushes, the snapshots handed to the flushes, followed
    by what is still pending, are exactly what was pending at the start
    followed by the enqueued observations, in order. *)
Theorem X5_buffer_conservation (es : list input) (w : World) :
  snapshots (fst (feed_all es w)) ++ dataBatch (snd (feed_all es w))
  = dataBatch w ++ enqueued es.
Proof.
  revert w. induction es as [|e es IH]; intros w.
  - cbn. now rewrite app_nil_r.
  - cbn [feed_all]. pose proof (feed_snapshot e w) as H1.
    destruct (feed e w) as [c1 w1]. specialize (IH w1).
    destruct (feed_all es w1) as [c2 w2]. cbn [fst snd] in *.
    rewrite snapshots_app, <- app_assoc, IH, app_assoc, H1.
    rewrite <- app_assoc. f_equal.
    unfold enqueued. cbn [flat_map]. now rewrite app_nil_r.
Qed.

Lemma flushBatch_sync_ok (w : World) :
  dataBatch w <> [] -> (length (dataBatch w) <= batchSize)%nat ->
  (0 < batchSize)%nat ->
  flush_ok (fst (flushBatch_sync w)) /\ buffer_ok (snd (flushBatch_sync w)).
Proof.
  intros Hne Hlen Hpos. rewrite flushBatch_sync_nonempty by exact Hne.
  cbn [fst snd]. split.
  - exists (dataBatch w). split; [reflexivity|]. split; assumption.
  - split; cbn; [|exact Hpos]. split; [discriminate|congruence].
Qed.

Lemma feed_ok (e : input) (w : World) :
  (0 < batchSize)%nat -> buffer_ok w ->
  buffer_ok (snd (feed e w)) /\ Forall flush_ok (fst (feed e w)).
Proof.
  intros Hpos [Ht Hlen]. destruct e as [item| |]; cbn [feed].
  - destruct (Nat.lt_ge_cases (S (length (dataBatch w))) batchSize) as [Hlt|Hge].
    + rewrite saveToDatabase_below by exact Hlt. cbn [fst snd].
      split; [|constructor]. split; cbn.
      * split; [intros _|reflexivity]. intros E. now apply app_eq_nil in E as [_ ?].
      * rewrite length_app. cbn. lia.
    + rewrite saveToDatabase_reaches by exact Hge. cbn [fst snd]. split.
      * split; cbn; [|exact Hpos]. split; [discriminate|congruence].
      * constructor; [|constructor]. exists (dataBatch w ++ [item]).
        split; [reflexivity|]. split.
        -- intros E. now apply app_eq_nil in E as [_ ?].
        -- rewrite length_app. cbn. lia.
  - unfold timer_fires. destruct (batchTimer w) eqn:Et.
    + destruct (flushBatch_sync_ok w) as [Hc Hb]; [now apply Ht|lia|exact Hpos|].
      destruct (flushBatch_sync w) as [c w']. cbn [fst snd] in *.
      split; [exact Hb|]. constructor; [exact Hc|constructor].
    + cbn. split; [|constructor]. split; [rewrite Et; exact Ht|exact Hlen].
  - destruct (Nat.ltb_spec 0 (length (dataBatch w))) as [Hl|Hl].
    + destruct (flushBatch_sync_ok w) as [Hc Hb]; [|lia|exact Hpos|].
      { intros E. rewrite E in Hl. cbn in Hl. lia. }
      destruct (flushBatch_sync w) as [c w']. cbn [fst snd] in *.
      split; [exact Hb|]. constructor; [exact Hc|constructor].
    + cbn. split; [|constructor]. split; assumption.
Qed.

(** X6: with a positive [batchSize], from the freshly loaded module on,
    whatever is enqueued and whenever the timer fires: the timer is
    pending exactly when observations are pending, the buffer stays below
    [batchSize], and every flush that is invoked takes a snapshot that is
    not empty and holds at most [batchSize] observations. *)
Theorem X6_buffer_invariant (es : list input) (d : Store) (f : list bool) :
  (0 < batchSize)%nat ->
  buffer_ok (snd (feed_all es (initial d f))) /\
  Forall flush_ok (fst (feed_all es (initial d f))).
Proof.
  intros Hpos.
  assert (H0 : buffer_ok (initial d f)).
  { split; cbn; [|exact Hpos]. split; [discriminate|congruence]. }
  revert H0. generalize (initial d f). intros w.
  revert w. induction es as [|e es IH]; intros w Hw.
  - cbn. split; [exact Hw|constructor].
  - cbn [feed_all]. destruct (feed_ok e w Hpos Hw) as [Hb Hc].
    destruct (feed e w) as [c1 w1]. cbn [fst snd] in *.
    destruct (IH w1 Hb) as [Hb2 Hc2].
    destruct (feed_all es w1) as [c2 w2]. cbn [fst snd] in *.
    split; [exact Hb2|]. apply Forall_app. split; assumption.
Qed.

(** ** Facts: every branch of a flush *)

Lemma transaction_cases (sched : list nat) (b : list BatchItem)
      (w : World) (r : Res unit) (w' : World) :
  (query_begin ;;;
   topicIds <- Promise_all_getTopicId sched b ;;
   query_insert_ltp (values b topicIds) ;;;
   query_commit) w = (r, w') ->
  exists ops, oplog w' = oplog w ++ ops /\
    match r with
    | Throw =>
        ops = [(Begin, false)] \/
        exists mid, Forall topic_call mid /\
          (ops = (Begin, true) :: mid \/
           (exists rows, ops = (Begin, true) :: mid ++ [(InsertLtp rows, false)]) \/
           (exists rows, ops = (Begin, true) :: mid
                               ++ [(InsertLtp rows, true); (Commit, false)]))
    | Ok _ =>
        exists mid rows w0 w1 ids,
          Forall topic_call mid /\
          ops = (Begin, true) :: mid ++ [(InsertLtp rows, true); (Commit, true)] /\
          Promise_all_getTopicId sched b w0 = (Ok ids, w1) /\
          topicCache w0 = topicCache w /\ db w0 = db w /\
          topicCache w' = topicCache w1 /\ topics (db w') = topics (db w1) /\
          ltp_data (db w') = ltp_data (db w) ++ values b ids /\
          txn w' = None
    end.
Proof.
  unfold_m. intros H.
  destruct (round_trip Begin w) as [[[]|] w1] eqn:E1;
    apply round_trip_inv in E1 as (ok1 & fs1 & -> & Hr1);
    destruct ok1; try discriminate Hr1; clear Hr1.
  2:{ inversion H; subst; simpl. eexists. split; [reflexivity|]. now left. }
  match type of H with
  | context [Promise_all_getTopicId sched b ?w0] =>
      pose proof (Promise_all_topic_side sched b w0) as Hs;
      destruct (Promise_all_getTopicId sched b w0) as [[ids|] w2] eqn:EP
  end; simpl in Hs, H;
    destruct Hs as (Hb & Ht & Hx & Hl & ops2 & Ho2 & Hk2).
  2:{ inversion H; subst. eexists. split.
      - rewrite Ho2. simpl. rewrite <- app_assoc. reflexivity.
      - right. exists ops2. split; [apply List.Forall_forall; exact Hk2|]. now left. }
  assert (Hmid : Forall topic_call ops2) by (apply List.Forall_forall; exact Hk2).
  destruct (round_trip (InsertLtp (values b ids)) w2) as [[[]|] w3] eqn:E3;
    apply round_trip_inv in E3 as (ok3 & fs3 & -> & Hr3);
    destruct ok3; try discriminate Hr3; clear Hr3.
  2:{ inversion H; subst; simpl. eexists. split.
      - rewrite Ho2. simpl. rewrite <- !app_assoc. reflexivity.
      - right. exists ops2. split; [exact Hmid|]. right. left.
        eexists. reflexivity. }
  simpl in H. rewrite Hx in H. simpl in H.
  match type of H with
  | context [round_trip Commit ?w0] =>
      destruct (round_trip Commit w0) as [[[]|] w4] eqn:E4;
      apply round_trip_inv in E4 as (ok4 & fs4 & -> & Hr4);
      destruct ok4; try discriminate Hr4; clear Hr4
  end.
  2:{ inversion H; subst; simpl. eexists. split.
      - rewrite Ho2. simpl. rewrite <- !app_assoc. reflexivity.
      - right. exists ops2. split; [exact Hmid|]. right. right.
        eexists. reflexivity. }
  simpl in H. inversion H; subst; simpl.
  eexists. split.
  - rewrite Ho2. simpl. rewrite <- !app_assoc. reflexivity.
  - exists ops2, (values b ids). do 3 eexists.
    split; [exact Hmid|]. split; [reflexivity|].
    split; [exact EP|]. simpl.
    split; [reflexivity|]. split; [reflexivity|].
    split; [reflexivity|]. split; [reflexivity|].
    split; [|reflexivity]. now rewrite Hl.
Qed.

Lemma flushBatch_async_cases (sched : list nat) (b : list BatchItem)
      (w : World) (r : Res unit) (w' : World) :
  flushBatch_async sched b w = (r, w') ->
  (exists ops, oplog w' = oplog w ++ ops /\ flush_log r ops) /\
  (r = Ok tt ->
   exists w0 w1 ids,
     Promise_all_getTopicId sched b w0 = (Ok ids, w1) /\
     topicCache w0 = topicCache w /\ db w0 = db w /\
     topicCache w' = topicCache w1 /\ topics (db w') = topics (db w1) /\
     ltp_data (db w') = ltp_data (db w) ++ values b ids /\
     txn w' = None).
Proof.
  unfold flushBatch_async, try_catch at 1, bind at 1, pool_connect.
  intros H.
  destruct (round_trip Connect w) as [[[]|] w1] eqn:E1;
    apply round_trip_inv in E1 as (ok1 & fs1 & -> & Hr1);
    destruct ok1; try discriminate Hr1; clear Hr1.
  2:{ unfold throw in H. inversion H; subst; simpl.
      split; [|discriminate].
      eexists. split; [reflexivity|]. constructor. }
  unfold try_finally, try_catch at 1 in H.
  match type of H with
  | context [bind query_begin ?k ?w0] =>
      pose proof (transaction_cases sched b w0) as Ht;
      destruct (bind query_begin k w0) as [[[]|] w2] eqn:E2
  end.
  - destruct (Ht _ _ eq_refl) as (ops & Ho & mid & rows & w0 & w1 & ids & Hmid & -> & HP & Hc & Hd & Hc' & Hd' & Hl & Hx).
    inversion H; subst; simpl. split.
    + eexists. split.
      * rewrite Ho. simpl. rewrite <- !app_assoc. simpl. reflexivity.
      * rewrite <- app_assoc. apply (log_committed mid rows Hmid).
    + intros _. exists w0, w1, ids. simpl in *. repeat (split; [assumption|]). assumption.
  - destruct (Ht _ _ eq_refl) as (ops & Ho & Hcases).
    destruct ((query_rollback ;;; throw) w2) as [r3 w3] eqn:E3.
    apply rollback_outcome in E3 as (-> & Hb3 & Ht3 & Hd3 & ok & Ho3 & Hx3).
    unfold throw in H. inversion H; subst; simpl.
    split; [|discriminate].
    eexists. split.
    + rewrite Ho3, Ho. simpl. rewrite <- !app_assoc. simpl. reflexivity.
    + destruct Hcases as [->|(mid & Hmid & [->|[(rows & ->)|(rows & ->)]])]; simpl.
      * constructor.
      * now constructor.
      * rewrite <- app_assoc. simpl. now constructor.
      * rewrite <- app_assoc. simpl. now constructor.
Qed.


(** X7: the statements of a flush, over every fault and every order of
    the database answers: with nothing pending no statement is sent;
    otherwise the flush sends one of the six sequences of [flush_log].
    The connection obtained is always released, last; every failure
    inside the transaction is followed by a [ROLLBACK]; [COMMIT] comes
    only after a bulk insert that succeeded; and the flush succeeds
    exactly when its [COMMIT] did. *)
Theorem X7_flush_protocol (sched : list nat) (w : World) :
  exists ops,
    oplog (snd (flushBatch sched w)) = oplog w ++ ops /\
    ((dataBatch w = [] /\ ops = [] /\ fst (flushBatch sched w) = Ok tt) \/
     (dataBatch w <> [] /\ flush_log (fst (flushBatch sched w)) ops)) /\
    (In (Commit, true) ops <-> dataBatch w <> [] /\ fst (flushBatch sched w) = Ok tt).
Proof.
  unfold flushBatch.
  destruct (dataBatch w) as [|x b] eqn:Eb.
  { exists []. unfold flushBatch_sync.
    destruct (batchTimer w); cbn; rewrite Eb; cbn; rewrite app_nil_r;
      (split; [reflexivity|]); (split; [left; repeat split|]);
      (split; [intros []|intros [Hne _]; congruence]). }
  rewrite flushBatch_sync_nonempty by (rewrite Eb; discriminate).
  rewrite Eb.
  destruct (flushBatch_async sched (x :: b)
              (set_dataBatch [] (set_batchTimer false w))) as [r w'] eqn:E.
  apply flushBatch_async_cases in E as [(ops & Ho & Hlog) _].
  exists ops. cbn [fst snd]. split; [exact Ho|].
  split; [right; split; [discriminate|exact Hlog]|].
  assert (Hmid : forall mid tl, Forall topic_call mid ->
            In (Commit, true) (mid ++ tl) -> In (Commit, true) tl).
  { intros mid tl Hm Hin. apply in_app_or in Hin as [Hin|Hin]; [|exact Hin].
    rewrite List.Forall_forall in Hm. destruct (Hm _ Hin). }
  destruct Hlog; (split; [intros Hin|intros [_ Hr]]); try discriminate Hr.
  - destruct Hin as [[=]|[]].
  - repeat (destruct Hin as [[=]|Hin]). destruct Hin.
  - destruct Hin as [[=]|[[=]|Hin]]. apply Hmid in Hin; [|assumption].
    repeat (destruct Hin as [[=]|Hin]). destruct Hin.
  - destruct Hin as [[=]|[[=]|Hin]]. apply Hmid in Hin; [|assumption].
    repeat (destruct Hin as [[=]|Hin]). destruct Hin.
  - destruct Hin as [[=]|[[=]|Hin]]. apply Hmid in Hin; [|assumption].
    repeat (destruct Hin as [[=]|Hin]). destruct Hin.
  - split; [discriminate|reflexivity].
  - right. right. apply in_or_app. right. right. now left.
Qed.

(** ** Facts: the identifiers a flush writes *)

Ltac world_simpl :=
  cbn [topicCache db dataBatch batchTimer txn faults oplog inflight
       set_topicCache set_oplog set_faults set_db set_txn set_dataBatch
       set_batchTimer set_inflight] in *.

Lemma stored_mono (d d' : Store) (name : string) (id : nat) :
  (exists rows, topics d' = topics d ++ rows) ->
  stored d name id -> stored d' name id.
Proof.
  intros [rows Hr] (row & Hin & Hn & Hi). exists row.
  split; [|split; assumption]. rewrite Hr. apply in_or_app. now left.
Qed.

Lemma rows_named_head (name : string) (d : Store) (row : TopicRow)
      (rest : list TopicRow) :
  rows_named name d = row :: rest ->
  In row (topics d) /\ topic_name row = name.
Proof.
  intros H. assert (Hin : row ∈ rows_named name d) by (rewrite H; left).
  unfold rows_named in Hin. apply list_elem_of_filter in Hin as [Hn Hin].
  split; [now apply list_elem_of_In|exact Hn].
Qed.

Lemma getTopicId_resume_sound (p : Proc) (w : World) (item : BatchItem) :
  cache_sound w -> proc_for (db w) item p ->
  cache_sound (snd (getTopicId_resume p w)) /\
  proc_for (db (snd (getTopicId_resume p w))) item (fst (getTopicId_resume p w)) /\
  exists rows, topics (db (snd (getTopicId_resume p w))) = topics (db w) ++ rows.
Proof.
  intros Hc Hp.
  destruct p as [it|it|id|]; cbn [getTopicId_resume proc_for] in *;
    try (split; [exact Hc|]; split; [exact Hp|]; exists []; now rewrite app_nil_r).
  - subst it. unfold_m.
    destruct (round_trip (SelectTopic (topic item)) w) as [[[]|] w1] eqn:E;
      apply round_trip_inv in E as (ok & fs & -> & _).
    + cbn [db set_oplog set_faults].
      destruct (rows_named (topic item) (db w)) as [|row rest] eqn:Er; cbn.
      * split; [exact Hc|]. split; [reflexivity|]. exists []. now rewrite app_nil_r.
      * apply rows_named_head in Er as [Hin Hn].
        split; [|split; [|exists []; now rewrite app_nil_r]].
        -- intros name id; world_simpl.
           destruct (decide (name = topic item)) as [->|Hne].
           ++ rewrite lookup_insert_eq. intros [= <-]. exists row. auto.
           ++ rewrite lookup_insert_ne by congruence. apply Hc.
        -- exists row. auto.
    + cbn. split; [exact Hc|]. split; [exact I|]. exists []. now rewrite app_nil_r.
  - subst it. unfold_m.
    destruct (round_trip (InsertTopic (topic item)) w) as [[[]|] w1] eqn:E;
      apply round_trip_inv in E as (ok & fs & -> & _); cbn.
    + assert (Hnew : stored (add_topic_row item (db w)) (topic item) (S (topics_seq (db w)))).
      { eexists. split; [apply in_or_app; right; left; reflexivity|]. split; reflexivity. }
      split; [|split; [exact Hnew|eexists; reflexivity]].
      intros name id; world_simpl.
           destruct (decide (name = topic item)) as [->|Hne].
      * rewrite lookup_insert_eq. intros [= <-]. exact Hnew.
      * rewrite lookup_insert_ne by congruence. intros Hl.
        eapply stored_mono; [|apply Hc; exact Hl]. eexists. reflexivity.
    + split; [exact Hc|]. split; [exact I|]. exists []. now rewrite app_nil_r.
Qed.

Lemma procs_for_mono (d d' : Store) (batch : list BatchItem) (ps : list Proc) :
  (exists rows, topics d' = topics d ++ rows) ->
  procs_for d batch ps -> procs_for d' batch ps.
Proof.
  intros Hext H i item p Hb Hp. specialize (H i item p Hb Hp).
  destruct p; cbn in *; try assumption. eapply stored_mono; eassumption.
Qed.

Lemma run_schedule_sound (sched : list nat) (batch : list BatchItem)
      (ps : list Proc) (w : World) :
  cache_sound w -> procs_for (db w) batch ps ->
  cache_sound (snd (run_schedule sched ps w)) /\
  procs_for (db (snd (run_schedule sched ps w))) batch (fst (run_schedule sched ps w)) /\
  exists rows, topics (db (snd (run_schedule sched ps w))) = topics (db w) ++ rows.
Proof.
  revert ps w. induction sched as [|i sched IH]; intros ps w Hc Hp; cbn [run_schedule].
  - split; [exact Hc|]. split; [exact Hp|]. exists []. now rewrite app_nil_r.
  - destruct (existsb is_rejected ps).
    { split; [exact Hc|]. split; [exact Hp|]. exists []. now rewrite app_nil_r. }
    destruct (ps !! i) as [p|] eqn:Ei; [|now apply IH].
    destruct (batch !! i) as [item|] eqn:Eb.
    + destruct (getTopicId_resume_sound p w item Hc (Hp i item p Eb Ei))
        as (Hc1 & Hp1 & rows1 & Hr1).
      destruct (getTopicId_resume p w) as [p' w1]. cbn [fst snd] in *.
      destruct (IH (<[i := p']> ps) w1 Hc1) as (Hc2 & Hp2 & rows2 & Hr2).
      { intros j item' q Hb Hq.
        destruct (decide (j = i)) as [->|Hne].
        - rewrite list_lookup_insert_eq in Hq by (now apply lookup_lt_Some in Ei).
          injection Hq as <-. rewrite Eb in Hb. injection Hb as <-. exact Hp1.
        - rewrite list_lookup_insert_ne in Hq by congruence.
          eapply (procs_for_mono (db w)); [eexists; exact Hr1|exact Hp|exact Hb|exact Hq]. }
      split; [exact Hc2|]. split; [exact Hp2|].
      exists (rows1 ++ rows2). now rewrite Hr2, Hr1, app_assoc.
    + (* a call beyond the batch: none exists when the calls are one per item *)
      destruct p as [it|it|id|].
      * pose proof (getTopicId_resume_sound (AwaitSelect it) w it Hc eq_refl)
          as (Hc1 & Hp1 & rows1 & Hr1).
        destruct (getTopicId_resume (AwaitSelect it) w) as [p' w1]. cbn [fst snd] in *.
        destruct (IH (<[i := p']> ps) w1 Hc1) as (Hc2 & Hp2 & rows2 & Hr2).
        { intros j item' q Hb Hq.
          destruct (decide (j = i)) as [->|Hne]; [congruence|].
          rewrite list_lookup_insert_ne in Hq by congruence.
          eapply (procs_for_mono (db w)); [eexists; exact Hr1|exact Hp|exact Hb|exact Hq]. }
        split; [exact Hc2|]. split; [exact Hp2|].
        exists (rows1 ++ rows2). now rewrite Hr2, Hr1, app_assoc.
      * pose proof (getTopicId_resume_sound (AwaitInsert it) w it Hc eq_refl)
          as (Hc1 & Hp1 & rows1 & Hr1).
        destruct (getTopicId_resume (AwaitInsert it) w) as [p' w1]. cbn [fst snd] in *.
        destruct (IH (<[i := p']> ps) w1 Hc1) as (Hc2 & Hp2 & rows2 & Hr2).
        { intros j item' q Hb Hq.
          destruct (decide (j = i)) as [->|Hne]; [congruence|].
          rewrite list_lookup_insert_ne in Hq by congruence.
          eapply (procs_for_mono (db w)); [eexists; exact Hr1|exact Hp|exact Hb|exact Hq]. }
        split; [exact Hc2|]. split; [exact Hp2|].
        exists (rows1 ++ rows2). now rewrite Hr2, Hr1, app_assoc.
      * cbn [getTopicId_resume]. rewrite list_insert_id by exact Ei. now apply IH.
      * cbn [getTopicId_resume]. rewrite list_insert_id by exact Ei. now apply IH.
Qed.

Lemma all_resolved_map (ps : list Proc) :
  existsb is_rejected ps = false ->
  (forall i p, ps !! i = Some p -> rank p = 0%nat) ->
  ps = map Resolved (omap resolved_id ps).
Proof.
  induction ps as [|p ps IH]; intros Hrej Hrank; [reflexivity|].
  cbn [existsb] in Hrej. apply orb_false_iff in Hrej as [Hp Hrej].
  pose proof (Hrank 0%nat p eq_refl) as H0.
  destruct p; cbn in H0, Hp; try discriminate.
  cbn [omap list_omap resolved_id map]. f_equal.
  apply IH; [exact Hrej|]. intros i q Hq. exact (Hrank (S i) q Hq).
Qed.

Lemma Promise_all_sound (sched : list nat) (batch : list BatchItem)
      (w : World) (topicIds : list nat) (w' : World) :
  cache_sound w ->
  Promise_all_getTopicId sched batch w = (Ok topicIds, w') ->
  cache_sound w' /\
  Forall2 (fun item id => stored (db w') (topic item) id) batch topicIds /\
  exists rows, topics (db w') = topics (db w) ++ rows.
Proof.
  intros Hc HP. pose proof (Promise_all_ok_length _ _ _ _ _ HP) as Hlen.
  revert HP. unfold Promise_all_getTopicId.
  set (ps := map (fun item => getTopicId_call item w) batch).
  assert (Hps : procs_for (db w) batch ps).
  { intros i item p Hb Hp. unfold ps in Hp.
    change (map ?f ?l) with (f <$> l) in Hp.
    rewrite list_lookup_fmap, Hb in Hp. cbn in Hp. injection Hp as <-.
    unfold getTopicId_call.
    destruct (topicCache w !! topic item) as [id|] eqn:E; cbn; [|reflexivity].
    now apply Hc. }
  pose proof (run_schedule_sound (sched ++ remaining_steps (length batch))
                batch ps w Hc Hps) as (Hc' & Hp' & Hrows).
  pose proof (run_schedule_progress
                (sched ++ remaining_steps (length batch)) ps w) as (Hl & Hprog).
  destruct (run_schedule (sched ++ remaining_steps (length batch)) ps w)
    as [ps' w1]. cbn [fst snd] in *.
  destruct (existsb is_rejected ps') eqn:Erej; [discriminate|].
  intros [= <- <-].
  split; [exact Hc'|]. split; [|exact Hrows].
  destruct Hprog as [Hrej|Hprog]; [congruence|].
  assert (Hmap : ps' = map Resolved (omap resolved_id ps')).
  { apply all_resolved_map; [exact Erej|].
    intros i p' Hp'i.
    assert (Hi : (i < length ps)%nat).
    { rewrite <- Hl. now apply lookup_lt_Some in Hp'i. }
    destruct (lookup_lt_is_Some_2 ps i Hi) as [p Hp].
    destruct (Hprog i p Hp) as (q & Hq & Hr).
    rewrite Hp'i in Hq. injection Hq as <-.
    rewrite turns_app in Hr. unfold remaining_steps in Hr.
    rewrite turns_remaining in Hr.
    + destruct p; cbn in Hr; lia.
    + unfold ps in Hi. rewrite length_map in Hi. lia. }
  apply Forall2_same_length_lookup_2; [now rewrite Hlen|].
  intros i item id Hb Hid.
  assert (Hq : ps' !! i = Some (Resolved id)).
  { rewrite Hmap. change (map ?f ?l) with (f <$> l).
    now rewrite list_lookup_fmap, Hid. }
  exact (Hp' i item (Resolved id) Hb Hq).
Qed.

Lemma values_written (d : Store) (b : list BatchItem) (ids : list nat) :
  Forall2 (fun item id => stored d (topic item) id) b ids ->
  Forall2 (written_for d) b (values b ids).
Proof.
  induction 1 as [|item id b ids H _ IH]; [constructor|].
  cbn. constructor; [split; [reflexivity|exact H]|exact IH].
Qed.

(** X8: a flush that succeeds, whatever the order of the database
    answers, appends to the observations one row per observation of the
    pending buffer, in the buffer's order; each row carries the price of
    its observation and the identifier of a stored Topic Record named as
    the observation's topic.  The cache stays sound for the next flush. *)
Theorem X8_flush_rows_attributed (sched : list nat) (w w' : World) :
  cache_sound w ->
  flushBatch sched w = (Ok tt, w') ->
  cache_sound w' /\
  exists rows,
    ltp_data (db w') = ltp_data (db w) ++ rows /\
    Forall2 (written_for (db w')) (dataBatch w) rows.
Proof.
  intros Hc. unfold flushBatch.
  destruct (dataBatch w) as [|x b] eqn:Eb.
  { unfold flushBatch_sync.
    destruct (batchTimer w); cbn; rewrite Eb; intros [= <-]; cbn;
      (split; [exact Hc|]); exists []; rewrite app_nil_r;
      (split; [reflexivity|constructor]). }
  rewrite flushBatch_sync_nonempty by (rewrite Eb; discriminate).
  rewrite Eb. intros H.
  apply flushBatch_async_cases in H as [_ H].
  destruct (H eq_refl) as (w0 & w1 & ids & HP & Hc0 & Hd0 & Hc1 & Hd1 & Hl & _).
  cbn in Hc0, Hd0, Hl.
  assert (Hs0 : cache_sound w0).
  { intros name id. rewrite Hc0, Hd0. apply Hc. }
  destruct (Promise_all_sound _ _ _ _ _ Hs0 HP) as (Hs1 & Hids & _).
  assert (Hst : forall name id, stored (db w1) name id -> stored (db w') name id).
  { intros name id (row & Hin & Hn & Hi). exists row. rewrite Hd1. auto. }
  split.
  - intros name id. rewrite Hc1. intros Hl1. apply Hst, Hs1, Hl1.
  - exists (values (x :: b) ids). split; [exact Hl|].
    apply values_written.
    eapply Forall2_impl; [exact Hids|]. intros item id. apply Hst.
Qed.

(** ** Facts: the [topics] table in sequential execution *)

Lemma getTopicId_table (item : BatchItem) (w : World) :
  ltp_data (db (snd (getTopicId item w))) = ltp_data (db w) /\
  (topics (db (snd (getTopicId item w))) = topics (db w) \/
   (topics (db (snd (getTopicId item w)))
    = topics (db w) ++ [mkTopicRow (S (topics_seq (db w))) (topic item)
                                   (indexName item) (type item) (strike item)] /\
    topicCache w !! topic item = None /\
    rows_named (topic item) (db w) = [])).
Proof.
  unfold getTopicId.
  destruct (topicCache w !! topic item) as [id0|] eqn:Ec.
  { cbn. split; [reflexivity|now left]. }
  unfold_m.
  destruct (round_trip (SelectTopic (topic item)) w) as [[[]|] w1] eqn:E1;
    apply round_trip_inv in E1 as (ok1 & fs1 & -> & _); world_simpl.
  2:{ cbn. split; [reflexivity|now left]. }
  destruct (rows_named (topic item) (db w)) as [|row rows] eqn:Er.
  2:{ cbn. split; [reflexivity|now left]. }
  match goal with
  | |- context [round_trip (InsertTopic ?n) ?w0] =>
      destruct (round_trip (InsertTopic n) w0) as [[[]|] w2] eqn:E2;
      apply round_trip_inv in E2 as (ok2 & fs2 & -> & _)
  end; cbn.
  - split; [reflexivity|]. right. split; [reflexivity|]. split; reflexivity.
  - split; [reflexivity|now left].
Qed.

Lemma rows_named_nil_fresh (name : string) (d : Store) :
  rows_named name d = [] -> ~ In name (map topic_name (topics d)).
Proof.
  intros Hnil Hin. apply in_map_iff in Hin as (row & Hn & Hin).
  apply list_elem_of_In in Hin.
  exact (filter_nil_not_elem_of _ _ _ Hnil Hn Hin).
Qed.

Lemma getTopicId_one_record (item : BatchItem) (w : World) :
  one_record_per_name (db w) ->
  one_record_per_name (db (snd (getTopicId item w))).
Proof.
  unfold one_record_per_name. intros Hnd.
  destruct (getTopicId_table item w) as [_ [->|(-> & _ & Hnil)]]; [exact Hnd|].
  rewrite map_app. cbn [map topic_name].
  apply NoDup_app. split; [exact Hnd|]. split; [|apply NoDup_singleton].
  intros name Hin Hin'. apply list_elem_of_In in Hin.
  apply list_elem_of_singleton in Hin'. subst name.
  exact (rows_named_nil_fresh _ _ Hnil Hin).
Qed.

Lemma getTopicId_seq_table (calls : list BatchItem) (w : World) :
  ltp_data (db (getTopicId_seq calls w)) = ltp_data (db w) /\
  exists rows,
    topics (db (getTopicId_seq calls w)) = topics (db w) ++ rows /\
    Forall (fun row => exists item, In item calls /\
              row = mkTopicRow (topic_id row) (topic item) (indexName item)
                               (type item) (strike item)) rows.
Proof.
  revert w. induction calls as [|item calls IH]; intros w; cbn [getTopicId_seq].
  - split; [reflexivity|]. exists []. split; [now rewrite app_nil_r|constructor].
  - destruct (IH (snd (getTopicId item w))) as (Hl & rows & Hr & Hall).
    destruct (getTopicId_table item w) as [Hl1 Ht1].
    split; [congruence|].
    assert (Hall' : Forall (fun row => exists item0, In item0 (item :: calls) /\
              row = mkTopicRow (topic_id row) (topic item0) (indexName item0)
                               (type item0) (strike item0)) rows).
    { eapply List.Forall_impl; [|exact Hall].
      intros row (it & Hin & Heq). exists it. split; [now right|exact Heq]. }
    destruct Ht1 as [Ht1|(Ht1 & _)].
    + exists rows. split; [now rewrite Hr, Ht1|exact Hall'].
    + eexists (_ :: rows). split.
      * rewrite Hr, Ht1, <- app_assoc. reflexivity.
      * constructor; [|exact Hall']. exists item. split; [now left|reflexivity].
Qed.

Lemma getTopicId_seq_one_record (calls : list BatchItem) (w : World) :
  one_record_per_name (db w) ->
  one_record_per_name (db (getTopicId_seq calls w)).
Proof.
  revert w. induction calls as [|item calls IH]; intros w H; [exact H|].
  cbn [getTopicId_seq]. apply IH. now apply getTopicId_one_record.
Qed.

(** X9: calls of [getTopicId] made one after the other only ever append
    to the [topics] table: no record is changed or deleted (so the
    metadata stored for a name is that of the call that created it), the
    observations are untouched, every record added carries the arguments
    of one of the calls, and a table with one record per name keeps one
    record per name, whatever the cache holds and whichever calls fail. *)
Theorem X9_sequential_topics_append_only (calls : list BatchItem) (w : World) :
  ltp_data (db (getTopicId_seq calls w)) = ltp_data (db w) /\
  (exists rows,
     topics (db (getTopicId_seq calls w)) = topics (db w) ++ rows /\
     Forall (fun row => exists item, In item calls /\
               row = mkTopicRow (topic_id row) (topic item) (indexName item)
                                (type item) (strike item)) rows) /\
  (one_record_per_name (db w) ->
   one_record_per_name (db (getTopicId_seq calls w))).
Proof.
  destruct (getTopicId_seq_table calls w) as [Hl Hr].
  split; [exact Hl|]. split; [exact Hr|]. apply getTopicId_seq_one_record.
Qed.

(** ** Facts: identifiers across a restart *)

Lemma getTopicId_sound (item : BatchItem) (w : World) :
  cache_sound w ->
  cache_sound (snd (getTopicId item w)) /\
  forall id, fst (getTopicId item w) = Ok id ->
             stored (db (snd (getTopicId item w))) (topic item) id.
Proof.
  intros Hc. rewrite getTopicId_uninterrupted.
  assert (H0 : proc_for (db w) item (getTopicId_call item w)).
  { unfold getTopicId_call.
    destruct (topicCache w !! topic item) eqn:E; cbn; [now apply Hc|reflexivity]. }
  destruct (getTopicId_resume_sound _ w item Hc H0) as (Hc1 & Hp1 & _).
  destruct (getTopicId_resume (getTopicId_call item w) w) as [p1 w1].
  cbn [fst snd] in *.
  destruct (getTopicId_resume_sound _ w1 item Hc1 Hp1) as (Hc2 & Hp2 & _).
  destruct (getTopicId_resume p1 w1) as [p2 w2]. cbn [fst snd] in *.
  split; [exact Hc2|]. intros id Hid. destruct p2; try discriminate.
  injection Hid as ->. exact Hp2.
Qed.

Lemma getTopicId_seq_stored (calls : list BatchItem) (w : World)
      (name : string) (id : nat) :
  stored (db w) name id -> stored (db (getTopicId_seq calls w)) name id.
Proof.
  destruct (getTopicId_seq_table calls w) as (_ & rows & Hr & _).
  apply stored_mono. now exists rows.
Qed.

Lemma one_record_inj (rows : list TopicRow) (r1 r2 : TopicRow) :
  NoDup (map topic_name rows) ->
  In r1 rows -> In r2 rows -> topic_name r1 = topic_name r2 -> r1 = r2.
Proof.
  induction rows as [|r rows IH]; intros Hnd H1 H2 Hn; [destruct H1|].
  cbn [map] in Hnd. apply NoDup_cons in Hnd as [Hnot Hnd].
  destruct H1 as [<-|H1], H2 as [<-|H2].
  - reflexivity.
  - exfalso. apply Hnot. apply list_elem_of_In. rewrite Hn. now apply in_map.
  - exfalso. apply Hnot. apply list_elem_of_In. rewrite <- Hn. now apply in_map.
  - now apply IH.
Qed.

(** A cold cache in front of a table that holds one record for the name:
    the call returns that record's identifier or fails; it never inserts. *)
Lemma getTopicId_cold (item : BatchItem) (d : Store) (f : list bool) (id : nat) :
  one_record_per_name d -> stored d (topic item) id ->
  (fst (getTopicId item (initial d f)) = Ok id \/
   fst (getTopicId item (initial d f)) = Throw) /\
  (f = [] -> fst (getTopicId item (initial d f)) = Ok id) /\
  db (snd (getTopicId item (initial d f))) = d.
Proof.
  intros Hnd (row & Hin & Hn & Hid).
  unfold getTopicId, initial. cbn [topicCache]. rewrite lookup_empty.
  unfold_m. unfold round_trip. cbn [faults].
  assert (Hrows : exists rest, rows_named (topic item) d = row :: rest).
  { destruct (rows_named (topic item) d) as [|row' rest] eqn:Er.
    - exfalso. apply (rows_named_nil_fresh _ _ Er).
      rewrite <- Hn. now apply in_map.
    - apply rows_named_head in Er as [Hin' Hn'].
      exists rest. f_equal.
      apply (one_record_inj (topics d)); [exact Hnd|exact Hin'|exact Hin|congruence]. }
  destruct Hrows as [rest Hrows].
  destruct f as [|[|] fs]; cbn; rewrite ?Hrows; cbn; rewrite ?Hid;
    (split; [auto|]); (split; [try discriminate; auto|reflexivity]).
Qed.

(** X10: identifiers survive a restart.  If the table holds one record
    per name and the cache is sound when [getTopicId] returns [id] for a
    topic, then after any further sequential calls and a restart of the
    module (empty cache, same database) a call for that topic returns
    the same [id] unless its query fails, and inserts nothing; once
    [initialize] has preloaded the cache it returns [id] without any
    query. *)
Theorem X10_topic_id_survives_restart (item item' : BatchItem) (w w1 : World)
        (id : nat) (calls : list BatchItem) (f : list bool) :
  cache_sound w -> one_record_per_name (db w) ->
  getTopicId item w = (Ok id, w1) ->
  topic item' = topic item ->
  let d := db (getTopicId_seq calls w1) in
  (fst (getTopicId item' (initial d f)) = Ok id \/
   fst (getTopicId item' (initial d f)) = Throw) /\
  (f = [] -> fst (getTopicId item' (initial d f)) = Ok id) /\
  db (snd (getTopicId item' (initial d f))) = d /\
  (forall w3, initialize (initial d f) = (Ok tt, w3) ->
              getTopicId item' w3 = (Ok id, w3)).
Proof.
  intros Hc Hnd H Ht d.
  assert (Hst : stored d (topic item') id).
  { rewrite Ht. apply getTopicId_seq_stored.
    destruct (getTopicId_sound item w Hc) as [_ Hs]. rewrite H in Hs.
    apply (Hs id eq_refl). }
  assert (Hnd' : one_record_per_name d).
  { apply getTopicId_seq_one_record.
    pose proof (getTopicId_one_record item w Hnd) as H1. now rewrite H in H1. }
  destruct (getTopicId_cold item' d f id Hnd' Hst) as (H1 & H2 & H3).
  split; [exact H1|]. split; [exact H2|]. split; [exact H3|].
  intros w3 Hinit. apply getTopicId_hit.
  revert Hinit. unfold initialize. unfold_m.
  destruct (round_trip SelectAllTopics (initial d f)) as [[[]|] w2] eqn:E1;
    apply round_trip_inv in E1 as (ok & fs & -> & _); [|discriminate].
  cbn. intros [= <-]. cbn.
  destruct Hst as (row & Hin & Hn & Hid).
  destruct (preload_lookup (topics d) ∅ (topic item'))
    as (row' & Hin' & Hn' & Hl); [eauto|].
  rewrite Hl. f_equal. rewrite <- Hid. f_equal.
  apply (one_record_inj (topics d)); [exact Hnd'|exact Hin'|exact Hin|congruence].
Qed.

(** ** Facts: start-up and shutdown *)

Lemma preload_snoc (rows : list TopicRow) (row : TopicRow) (c : gmap string nat) :
  preload (rows ++ [row]) c = <[topic_name row := topic_id row]> (preload rows c).
Proof. unfold preload. now rewrite fold_left_app. Qed.

Lemma preload_last (rows : list TopicRow) (c : gmap string nat) (name : string) :
  preload rows c !! name
  = match last (filter (fun r => topic_name r = name) rows) with
    | Some row => Some (topic_id row)
    | None => c !! name
    end.
Proof.
  induction rows as [|row rows IH] using rev_ind; [reflexivity|].
  rewrite preload_snoc, filter_app.
  destruct (decide (topic_name row = name)) as [Hn|Hn].
  - rewrite filter_cons_True by exact Hn. rewrite filter_nil, last_snoc.
    rewrite Hn. apply lookup_insert_eq.
  - rewrite filter_cons_False by exact Hn. rewrite filter_nil, app_nil_r.
    rewrite lookup_insert_ne by exact Hn. exact IH.
Qed.

(** X11: [initialize] sends one query.  If it fails, the error is thrown
    again and the cache is as it was; if it succeeds, the cache holds,
    for every name of the table, the identifier of the last record of
    that name, and keeps what it held for every other name.  The
    database and the pending buffer are untouched either way, and a
    sound cache stays sound. *)
Theorem X11_initialize_cache (w : World) :
  db (snd (initialize w)) = db w /\
  dataBatch (snd (initialize w)) = dataBatch w /\
  (exists ok, oplog (snd (initialize w)) = oplog w ++ [(SelectAllTopics, ok)] /\
              fst (initialize w) = if ok then Ok tt else Throw) /\
  match fst (initialize w) with
  | Throw => topicCache (snd (initialize w)) = topicCache w
  | Ok _ =>
      forall name,
        topicCache (snd (initialize w)) !! name
        = match last (rows_named name (db w)) with
          | Some row => Some (topic_id row)
          | None => topicCache w !! name
          end
  end /\
  (cache_sound w -> cache_sound (snd (initialize w))).
Proof.
  unfold initialize. unfold_m.
  destruct (round_trip SelectAllTopics w) as [[[]|] w1] eqn:E1;
    apply round_trip_inv in E1 as (ok & fs & -> & Hr);
    destruct ok; try discriminate Hr; cbn [fst snd]; world_simpl.
  - split; [reflexivity|]. split; [reflexivity|].
    split; [exists true; split; reflexivity|].
    split; [intros name; apply preload_last|].
    intros Hc name id. world_simpl. rewrite preload_last.
    fold (rows_named name (db w)).
    destruct (last (rows_named name (db w))) as [row|] eqn:El; [|apply Hc].
    intros [= <-]. apply last_Some in El as [l' El].
    assert (Hin : row ∈ rows_named name (db w)).
    { rewrite El. apply list_elem_of_In, in_or_app. right. now left. }
    apply list_elem_of_filter in Hin as [Hn Hin].
    exists row. split; [now apply list_elem_of_In|]. split; [exact Hn|reflexivity].
  - split; [reflexivity|]. split; [reflexivity|].
    split; [exists false; split; reflexivity|].
    split; [reflexivity|]. intros Hc. exact Hc.
Qed.

Lemma pool_end_inv (w : World) :
  exists fs, snd (pool_end w) = set_faults fs w.
Proof.
  unfold pool_end. destruct (faults w) as [|[|] fs] eqn:E; cbn.
  - exists []. destruct w; cbn in *; now subst.
  - now exists fs.
  - now exists fs.
Qed.

(** X12: [cleanupDatabase] leaves nothing pending.  When it succeeds,
    the pool has been ended and every observation that was pending is
    durable, in order.  When the final flush fails, the function throws
    before it reaches [pool.end()]: the pool is left open and the
    pending observations are dropped without being written.  The pool is
    ended in every other case. *)
Theorem X12_cleanup_outcome (sched : list nat) (w : World) :
  let '(r, w', ended) := cleanupDatabase sched w in
  dataBatch w' = [] /\
  (r = Ok tt ->
   ended = true /\
   exists rows, ltp_data (db w') = ltp_data (db w) ++ rows /\
                map ltp_value rows = map ltp (dataBatch w)) /\
  (ended = false <->
   dataBatch w <> [] /\ fst (flushBatch sched w) = Throw) /\
  (ended = false -> r = Throw /\ ltp_data (db w') = ltp_data (db w)).
Proof.
  unfold cleanupDatabase.
  destruct (dataBatch w) as [|x b] eqn:Eb; cbn [length Nat.ltb Nat.leb].
  - destruct (pool_end_inv w) as [fs Hfs].
    destruct (pool_end w) as [r w2]. cbn [snd] in Hfs. subst w2. world_simpl.
    split; [exact Eb|]. split; [|split].
    + intros _. split; [reflexivity|]. exists []. now rewrite app_nil_r.
    + split; [discriminate|]. intros [Hne _]. congruence.
    + discriminate.
  - change (0 <? S (length b))%nat with true. cbn iota.
    assert (Hne : dataBatch w <> []) by (rewrite Eb; discriminate).
    assert (Hf : flushBatch sched w
                 = flushBatch_async sched (dataBatch w)
                     (set_dataBatch [] (set_batchTimer false w))).
    { unfold flushBatch. now rewrite flushBatch_sync_nonempty by exact Hne. }
    rewrite <- Eb.
    destruct (flushBatch sched w) as [[[]|] w1] eqn:E.
    + symmetry in Hf.
      apply flushBatch_async_success in Hf as (Hb & ids & Hn & Hl & Hm & _).
      world_simpl.
      destruct (pool_end_inv w1) as [fs Hfs].
      destruct (pool_end w1) as [r w2]. cbn [snd] in Hfs. subst w2. world_simpl.
      split; [exact Hb|]. split; [|split].
      * intros _. split; [reflexivity|]. eexists. split; [exact Hl|exact Hm].
      * split; [discriminate|]. intros [_ Hr]. discriminate Hr.
      * discriminate.
    + symmetry in Hf.
      apply flushBatch_async_failure in Hf as (Hb & _ & Hl & _). world_simpl.
      split; [exact Hb|]. split; [discriminate|]. split.
      * split; [intros _; split; [exact Hne|reflexivity]|reflexivity].
      * intros _. split; [reflexivity|exact Hl].
Qed.

(** ** Facts: how many flushes a run of enqueues invokes *)

Lemma enqueue_all_snapshot (items : list BatchItem) (w : World) :
  snapshots (fst (enqueue_all items w)) ++ dataBatch (snd (enqueue_all items w))
  = dataBatch w ++ items.
Proof.
  revert w. induction items as [|item items IH]; intros w.
  - cbn. now rewrite app_nil_r.
  - cbn [enqueue_all]. pose proof (feed_snapshot (Enqueue item) w) as H1.
    cbn [feed enqueued flat_map app] in H1.
    destruct (saveToDatabase item w) as [c1 w1]. specialize (IH w1).
    destruct (enqueue_all items w1) as [c2 w2]. cbn [fst snd] in *.
    rewrite snapshots_app, <- app_assoc, IH, app_assoc, H1, <- app_assoc.
    reflexivity.
Qed.

(** X22: with a positive [batchSize] and fewer than [batchSize]
    observations pending, enqueuing [n] observations with no timer
    callback in between invokes one flush each time the buffer reaches
    [batchSize]: [(pending + n) / batchSize] flushes in all, each with a
    snapshot of exactly [batchSize] observations, and
    [(pending + n) mod batchSize] observations stay pending. *)
Theorem X22_size_triggered_flush_count (items : list BatchItem) (w : World) :
  (0 < batchSize)%nat ->
  (length (dataBatch w) < batchSize)%nat ->
  let r := enqueue_all items w in
  length (fst r) = ((length (dataBatch w) + length items) / batchSize)%nat /\
  length (dataBatch (snd r))
  = ((length (dataBatch w) + length items) mod batchSize)%nat /\
  Forall (fun c => exists b, c = Snapshot b /\ length b = batchSize) (fst r).
Proof.
  intros Hpos. revert w. induction items as [|item items IH]; intros w Hlt.
  - cbn. rewrite Nat.add_0_r, Nat.div_small, Nat.mod_small by exact Hlt.
    split; [reflexivity|]. split; [reflexivity|constructor].
  - cbn [enqueue_all length].
    destruct (Nat.lt_ge_cases (S (length (dataBatch w))) batchSize) as [Hb|Hb].
    + rewrite saveToDatabase_below by exact Hb.
      match goal with
      | |- context [enqueue_all items ?w0] => specialize (IH w0)
      end.
      cbn [dataBatch set_batchTimer set_dataBatch] in IH.
      rewrite length_app in IH. cbn [length] in IH.
      specialize (IH ltac:(lia)). cbv zeta in IH.
      destruct (enqueue_all items _) as [c2 w2]. cbn [fst snd app] in *.
      replace (length (dataBatch w) + S (length items))%nat
        with (length (dataBatch w) + 1 + length items)%nat by lia.
      exact IH.
    + rewrite saveToDatabase_reaches by exact Hb.
      match goal with
      | |- context [enqueue_all items ?w0] => specialize (IH w0)
      end.
      cbn [dataBatch set_batchTimer set_dataBatch length] in IH.
      specialize (IH Hpos). cbv zeta in IH.
      destruct (enqueue_all items _) as [c2 w2]. cbn [fst snd app length] in *.
      destruct IH as (Hn & Hm & Hall).
      assert (Hfull : S (length (dataBatch w)) = batchSize) by lia.
      replace (length (dataBatch w) + S (length items))%nat
        with (1 * batchSize + length items)%nat by lia.
      rewrite Nat.div_add_l by lia.
      rewrite (Nat.add_comm (1 * batchSize)), Nat.Div0.mod_add.
      cbn [Nat.add] in Hn, Hm.
      split; [now rewrite Hn|]. split; [exact Hm|].
      constructor; [|exact Hall].
      exists (dataBatch w ++ [item]). split; [reflexivity|].
      rewrite length_app. cbn. lia.
Qed.

End Operations.


(** ** Concrete runs *)

Definition nifty_tick (p : Q) : BatchItem :=
  mkBatchItem "index/NIFTY" p (Some "NIFTY"%string) None None.

(** A freshly loaded module in front of an empty database that never fails. *)
Definition fresh : World := initial (mkStore [] 0 []) [].

(** One tick pending; the fifth database call of the flush, the bulk
    insert, fails. *)
Definition bulk_insert_fails : World :=
  set_faults [false; false; false; false; true]
    (snd (saveToDatabase 100 (nifty_tick 20010) fresh)).



(** The statements of that failed flush, as the database saw them: the
    topic insert went through on its own connection and stays; the
    transaction was rolled back. *)
Example failed_flush_log :
  oplog (snd (flushBatch [] bulk_insert_fails))
  = [(Connect, true); (Begin, true);
     (SelectTopic "index/NIFTY", true); (InsertTopic "index/NIFTY", true);
     (InsertLtp [mkLtpRow 1 20010], false);
     (Rollback, true); (Release, true)] /\
  length (topics (db (snd (flushBatch [] bulk_insert_fails)))) = 1%nat.
Proof. vm_compute. split; reflexivity. Qed.

Lemma C4_size_triggered_flush_witness :
  (0 < 100)%nat /\
  length (replicate 100 (nifty_tick 20010)) = 100%nat /\
  dataBatch fresh = [] /\
  enqueue_all 100 (replicate 100 (nifty_tick 20010)) fresh
    = ([Snapshot (replicate 100 (nifty_tick 20010))], set_batchTimer false fresh).
Proof.
  split; [lia|]. split; [reflexivity|]. split; [reflexivity|].
  exact (proj1 (C4_size_triggered_flush 100 (replicate 100 (nifty_tick 20010))
                  fresh ltac:(lia) eq_refl eq_refl)).
Defined.

Lemma C10_cached_topic_id_witness :
  getTopicId (nifty_tick 20010) fresh
    = (Ok 1%nat, snd (getTopicId (nifty_tick 20010) fresh)) /\
  getTopicId (nifty_tick 20020)
    (getTopicId_seq [nifty_tick 20030] (snd (getTopicId (nifty_tick 20010) fresh)))
  = (Ok 1%nat,
     getTopicId_seq [nifty_tick 20030] (snd (getTopicId (nifty_tick 20010) fresh))).
Proof.
  assert (H : getTopicId (nifty_tick 20010) fresh
              = (Ok 1%nat, snd (getTopicId (nifty_tick 20010) fresh)))
    by (vm_compute; reflexivity).
  split; [exact H|].
  exact (proj1 (proj1 (C10_cached_topic_id _ _ _ _ H)
                  [nifty_tick 20030] (nifty_tick 20020) eq_refl)).
Defined.

(** C9 (violated by the code): two flushes that overlap and resolve the
    unseen identifier "index/NIFTY" at the same time each find the cache
    and the table empty and each insert a Topic Record: the store ends up
    with two records for the one identifier, the flushes use ids 1 and 2,
    and the cache keeps the later one. *)
Theorem C9_concurrent_first_sight_two_records :
  let '(pA, pB, w') :=
    first_sight_race (nifty_tick 20010) (nifty_tick 20020) fresh in
  pA = Resolved 1 /\
  pB = Resolved 2 /\
  rows_named "index/NIFTY" (db w')
  = [mkTopicRow 1 "index/NIFTY" (Some "NIFTY"%string) None None;
     mkTopicRow 2 "index/NIFTY" (Some "NIFTY"%string) None None] /\
  topicCache w' !! "index/NIFTY"%string = Some 2%nat.
Proof. vm_compute. repeat split. Qed.

(** The same race inside one flush: [Promise.all] starts a call per item,
    so two ticks of one unseen identifier in one snapshot are enough. *)
Example one_flush_two_records :
  let w := snd (enqueue_all 100 [nifty_tick 20010; nifty_tick 20020] fresh) in
  let '(r, w') := flushBatch [0; 1; 0; 1]%nat w in
  r = Ok tt /\
  length (rows_named "index/NIFTY" (db w')) = 2%nat /\
  ltp_data (db w') = [mkLtpRow 1 20010; mkLtpRow 2 20020].
Proof. vm_compute. repeat split. Qed.
Lemma X6_buffer_invariant_witness :
  (0 < 2)%nat /\
  buffer_ok 2
    (snd (feed_all 2 [Enqueue (nifty_tick 20010); TimerFires;
                      Enqueue (nifty_tick 20020); Enqueue (nifty_tick 20030);
                      Enqueue (nifty_tick 20040)]
            (initial (mkStore [] 0 []) []))).
Proof.
  split; [lia|].
  exact (proj1 (X6_buffer_invariant 2 _ (mkStore [] 0 []) [] ltac:(lia))).
Defined.

Lemma X8_flush_rows_attributed_witness :
  let w := snd (enqueue_all 100 [nifty_tick 20010; nifty_tick 20020] fresh) in
  cache_sound w /\
  flushBatch [1; 0; 1; 0]%nat w = (Ok tt, snd (flushBatch [1; 0; 1; 0]%nat w)) /\
  cache_sound (snd (flushBatch [1; 0; 1; 0]%nat w)).
Proof.
  intros w.
  assert (Hc : cache_sound w) by (intros name id Hl; vm_compute in Hl; discriminate).
  assert (H : flushBatch [1; 0; 1; 0]%nat w
              = (Ok tt, snd (flushBatch [1; 0; 1; 0]%nat w)))
    by (vm_compute; reflexivity).
  split; [exact Hc|]. split; [exact H|].
  exact (proj1 (X8_flush_rows_attributed _ _ _ Hc H)).
Defined.

Lemma X10_topic_id_survives_restart_witness :
  getTopicId (nifty_tick 20010) fresh
    = (Ok 1%nat, snd (getTopicId (nifty_tick 20010) fresh)) /\
  fst (getTopicId (nifty_tick 20050)
         (initial (db (getTopicId_seq [nifty_tick 20020]
                         (snd (getTopicId (nifty_tick 20010) fresh)))) []))
  = Ok 1%nat.
Proof.
  assert (H : getTopicId (nifty_tick 20010) fresh
              = (Ok 1%nat, snd (getTopicId (nifty_tick 20010) fresh)))
    by (vm_compute; reflexivity).
  split; [exact H|].
  assert (Hc : cache_sound fresh) by (intros name id Hl; vm_compute in Hl; discriminate).
  assert (Hnd : one_record_per_name (db fresh)) by constructor.
  exact (proj1 (proj2 (X10_topic_id_survives_restart
                         (nifty_tick 20010) (nifty_tick 20050) fresh _ 1%nat
                         [nifty_tick 20020] [] Hc Hnd H eq_refl)) eq_refl).
Defined.

Lemma X22_size_triggered_flush_count_witness :
  (0 < 2)%nat /\
  (length (dataBatch fresh) < 2)%nat /\
  length (fst (enqueue_all 2 (replicate 5 (nifty_tick 20010)) fresh)) = 2%nat /\
  length (dataBatch (snd (enqueue_all 2 (replicate 5 (nifty_tick 20010)) fresh)))
  = 1%nat.
Proof.
  split; [lia|]. split; [cbn; lia|].
  destruct (X22_size_triggered_flush_count 2 (replicate 5 (nifty_tick 20010)) fresh
              ltac:(lia) ltac:(cbn; lia)) as (Hn & Hm & _).
  split; [exact Hn|exact Hm].
Defined.

End Sink.

(* ================================================================== *)
(** * Subscription manager *)
(* ================================================================== *)

Module SubscriptionManager.

(** ** Data *)

(** [optionType: "ce" | "pe"]. *)
Inductive OptionType : Type := ce | pe.

Definition optionType_text (o : OptionType) : string :=
  match o with ce => "ce" | pe => "pe" end.

(** What [await response.json()] yields: a rejected promise, [null] (on
    which [data.token] throws), an object without a truthy [token], or an
    object with one.  A token is modelled by the text the template literal
    renders it to; the empty text is falsy. *)
Inductive Body : Type :=
| MalformedBody
| JsonNullish
| JsonNoToken
| JsonToken (token : string).

(** What [await fetch(url)] yields. *)
Inductive Response : Type :=
| NetworkError
| HttpResponse (status : Z) (body : Body).

(** The calls that leave the module, in the order they are made. *)
Inductive call : Type :=
| LogExpansion (indexName : string) (atmStrike : Z)
    (* console.log(`Subscribing to ${indexName} options around ATM ...`) *)
| Fetch (url : string)                      (* fetch(url) *)
| LogTokenError (indexName : string) (strikePrice : Z) (optionType : OptionType)
    (* console.error(`Error fetching token for ...`) *)
| Subscribe (topic : string).               (* client.subscribe(topic) *)

(** [activeSubscriptions] and [isFirstIndexMessage]. *)
Record state : Type := mkState {
  activeSubscriptions : gset string;
  isFirstIndexMessage : gmap string bool
}.

Definition initial : state := mkState ∅ ∅.

Definition subscribes (log : list call) : list string :=
  omap (fun c => match c with Subscribe t => Some t | _ => None end) log.

Definition fetches (log : list call) : list string :=
  omap (fun c => match c with Fetch u => Some u | _ => None end) log.

Definition expansions (log : list call) : list (string * Z) :=
  omap (fun c => match c with LogExpansion i k => Some (i, k) | _ => None end) log.

(** ** Numbers

    Strikes are JavaScript numbers: binary64.  An integer of magnitude up
    to 2^53 is one; a larger one is rounded to the nearest number with a
    53-bit significand, ties to the even significand.  [round64] is that
    rounding on the integers (the overflow to [Infinity], beyond 2^1024,
    has no counterpart here), and [+] and [*] on integer-valued numbers
    are the exact operation followed by it. *)
Definition round64 (x : Z) : Z :=
  let a := Z.abs x in
  if (a <=? 2 ^ 53)%Z then x
  else
    let ulp := (2 ^ (Z.log2 a - 52))%Z in
    let q := (a / ulp)%Z in
    let r := (a mod ulp)%Z in
    let q' := if (2 * r <? ulp)%Z then q
              else if (ulp <? 2 * r)%Z then (q + 1)%Z
              else if Z.even q then q else (q + 1)%Z in
    (Z.sgn x * (q' * ulp))%Z.

Definition js_add (x y : Z) : Z := round64 (x + y).
Definition js_mul (x y : Z) : Z := round64 (x * y).

(** ** The module's functions *)

Section Operations.

(** From [config]: the tracked indices, their expiry dates and the chain
    half-width; from [utils]: the strike increment of an index; and the
    token endpoint behind [fetch]. *)
Variable INDICES : list string.
Variable EXPIRY_DATES : string -> option string.
Variable STRIKE_RANGE : Z.
Variable getStrikeDiff : string -> Z.
Variable fetch : string -> Response.

(** [subscribeToAllIndices]. *)
Definition subscribeIndex (acc : state * list call) (indexName : string)
  : state * list call :=
  let '(st, log) := acc in
  let topic := "index/" +:+ indexName in
  (mkState ({[topic]} ∪ activeSubscriptions st) (isFirstIndexMessage st),
   log ++ [Subscribe topic]).

Definition subscribeToAllIndices (st : state) : state * list call :=
  fold_left subscribeIndex INDICES (st, []).

(** [initializeFirstMessageTracking]. *)
Definition initializeFirstMessageTracking (st : state) : state :=
  mkState (activeSubscriptions st)
          (fold_left (fun m indexName => <[indexName := true]> m) INDICES
                     (isFirstIndexMessage st)).

(** The URL of one token lookup. *)
Definition tokenUrl (indexName : string) (strikePrice : Z) (optionType : OptionType)
  : string :=
  let expiryDate := default "undefined" (EXPIRY_DATES indexName) in
  "https://api.trado.trade/token?index=" +:+ indexName
    +:+ "&expiryDate=" +:+ expiryDate
    +:+ "&optionType=" +:+ optionType_text optionType
    +:+ "&strikePrice=" +:+ pretty strikePrice.

(** [response.ok]. *)
Definition response_ok (status : Z) : bool :=
  (200 <=? status)%Z && (status <=? 299)%Z.

(** [getOptionToken]: the token, or [None] for [null]. *)
Definition getOptionToken (indexName : string) (strikePrice : Z)
           (optionType : OptionType) : option string * list call :=
  let url := tokenUrl indexName strikePrice optionType in
  let caught := (None, [Fetch url; LogTokenError indexName strikePrice optionType]) in
  match fetch url with
  | NetworkError => caught
  | HttpResponse status body =>
      if response_ok status then
        match body with
        | MalformedBody => caught
        | JsonNullish => caught
        | JsonNoToken => (None, [Fetch url])
        | JsonToken token =>
            (if bool_decide (token = "") then None else Some token, [Fetch url])
        end
      else caught
  end.

(** [if (token) { ... if (!activeSubscriptions.has(topic)) { ... } }]. *)
Definition optionTopic (token : string) : string := "index/NSE_FO|" +:+ token.

Definition subscribeOption (st : state) (token : option string)
  : state * list call :=
  match token with
  | Some t =>
      let topic := optionTopic t in
      if bool_decide (topic ∈ activeSubscriptions st) then (st, [])
      else (mkState ({[topic]} ∪ activeSubscriptions st) (isFirstIndexMessage st),
            [Subscribe topic])
  | None => (st, [])
  end.

(** The body of [for (const strike of strikes)]. *)
Definition subscribeStrike (indexName : string) (acc : state * list call)
           (strike : Z) : state * list call :=
  let '(st, log) := acc in
  let '(ceToken, l1) := getOptionToken indexName strike ce in
  let '(peToken, l2) := getOptionToken indexName strike pe in
  let '(st1, l3) := subscribeOption st ceToken in
  let '(st2, l4) := subscribeOption st1 peToken in
  (st2, log ++ l1 ++ l2 ++ l3 ++ l4).

(** [for (let i = -STRIKE_RANGE; i <= STRIKE_RANGE; i++)
       strikes.push(atmStrike + i * strikeDiff)]: the product and the sum
    are operations on numbers.  The counter runs over the integers from
    [-STRIKE_RANGE] to [STRIKE_RANGE], as [i++] does for a half-width
    below 2^53. *)
Definition chainStrikes (indexName : string) (atmStrike : Z) : list Z :=
  let strikeDiff := getStrikeDiff indexName in
  map (fun i => js_add atmStrike (js_mul i strikeDiff))
      (seqZ (- STRIKE_RANGE) (2 * STRIKE_RANGE + 1)).

(** [subscribeToAtmOptions]. *)
Definition subscribeToAtmOptions (st : state) (indexName : string) (atmStrike : Z)
  : state * list call :=
  fold_left (subscribeStrike indexName) (chainStrikes indexName atmStrike)
            (st, [LogExpansion indexName atmStrike]).


(** ** Vocabulary of the statements *)

(** The legs of a chain, in the order the loop visits them. *)
Definition legs (strikes : list Z) : list (Z * OptionType) :=
  flat_map (fun strike => [(strike, ce); (strike, pe)]) strikes.

Definition legUrl (indexName : string) (leg : Z * OptionType) : string :=
  tokenUrl indexName (fst leg) (snd leg).

(** The token [getOptionToken] returns for a leg. *)
Definition resolve (indexName : string) (leg : Z * OptionType) : option string :=
  fst (getOptionToken indexName (fst leg) (snd leg)).

(** A failed resolution: network error, non-success status, malformed body. *)
Definition failed (r : Response) : Prop :=
  match r with
  | NetworkError => True
  | HttpResponse status body => response_ok status = false \/ body = MalformedBody
  end.

(** A successful resolution: a success status and a body that carries a
    non-empty token. *)
Definition succeeded (r : Response) (t : string) : Prop :=
  exists status,
    r = HttpResponse status (JsonToken t) /\ response_ok status = true /\ t <> "".

(** Subscribing a list of tokens one after the other; the result lists
    the topics for which [client.subscribe] was called. *)
Fixpoint subscribeTokens (st : state) (tokens : list string) : state * list string :=
  match tokens with
  | [] => (st, [])
  | t :: rest =>
      let '(st1, l) := subscribeOption st (Some t) in
      let '(st2, out) := subscribeTokens st1 rest in
      (st2, subscribes l ++ out)
  end.

(** Expansions made one after the other, as the processor requests them. *)
Fixpoint expand_all (reqs : list (string * Z)) (st : state) : state * list call :=
  match reqs with
  | [] => (st, [])
  | (indexName, atmStrike) :: rest =>
      let '(st1, l1) := subscribeToAtmOptions st indexName atmStrike in
      let '(st2, l2) := expand_all rest st1 in
      (st2, l1 ++ l2)
  end.

(** ** Facts: token lookup *)

Lemma subscribes_app (l l' : list call) :
  subscribes (l ++ l') = subscribes l ++ subscribes l'.
Proof. apply omap_app. Qed.

Lemma fetches_app (l l' : list call) :
  fetches (l ++ l') = fetches l ++ fetches l'.
Proof. apply omap_app. Qed.

Lemma expansions_app (l l' : list call) :
  expansions (l ++ l') = expansions l ++ expansions l'.
Proof. apply omap_app. Qed.

(** One call of [getOptionToken] sends one request, whatever comes back. *)
Lemma getOptionToken_calls (indexName : string) (strike : Z) (o : OptionType) :
  fetches (snd (getOptionToken indexName strike o)) = [tokenUrl indexName strike o] /\
  subscribes (snd (getOptionToken indexName strike o)) = [] /\
  expansions (snd (getOptionToken indexName strike o)) = [].
Proof.
  unfold getOptionToken.
  destruct (fetch _) as [|status body]; simpl; [auto|].
  destruct (response_ok status); simpl; [|auto].
  destruct body; simpl; auto.
Qed.

Lemma getOptionToken_failed (indexName : string) (strike : Z) (o : OptionType) :
  failed (fetch (tokenUrl indexName strike o)) ->
  getOptionToken indexName strike o
  = (None, [Fetch (tokenUrl indexName strike o);
            LogTokenError indexName strike o]).
Proof.
  unfold getOptionToken, failed.
  destruct (fetch _) as [|status body]; [reflexivity|].
  intros [Hs| ->].
  - now rewrite Hs.
  - now destruct (response_ok status).
Qed.

Lemma subscribeOption_calls (st : state) (token : option string) :
  fetches (snd (subscribeOption st token)) = [] /\
  expansions (snd (subscribeOption st token)) = [].
Proof.
  unfold subscribeOption. destruct token as [t|]; [|auto].
  destruct (bool_decide _); auto.
Qed.

Lemma subscribeOption_flags (st : state) (token : option string) :
  isFirstIndexMessage (fst (subscribeOption st token)) = isFirstIndexMessage st.
Proof.
  unfold subscribeOption. destruct token as [t|]; [|reflexivity].
  now destruct (bool_decide _).
Qed.

(** ** Facts: one strike, then the whole chain *)

Lemma subscribeOption_None (st : state) : subscribeOption st None = (st, []).
Proof. reflexivity. Qed.

Lemma subscribeTokens_two (st : state) (a b : option string) :
  subscribeTokens st (omap id [a; b]) =
    let '(st1, l3) := subscribeOption st a in
    let '(st2, l4) := subscribeOption st1 b in
    (st2, subscribes l3 ++ subscribes l4).
Proof.
  destruct a as [ta|]; destruct b as [tb|]; cbn [omap list_omap id subscribeTokens].
  - destruct (subscribeOption st (Some ta)) as [st1 l3].
    destruct (subscribeOption st1 (Some tb)) as [st2 l4].
    now rewrite app_nil_r.
  - destruct (subscribeOption st (Some ta)) as [st1 l3].
    rewrite subscribeOption_None. reflexivity.
  - rewrite subscribeOption_None. cbv beta iota.
    destruct (subscribeOption st (Some tb)) as [st2 l4].
    now rewrite app_nil_r.
  - rewrite subscribeOption_None. cbv beta iota.
    rewrite subscribeOption_None. reflexivity.
Qed.

Lemma subscribeStrike_spec (indexName : string) (st : state) (log : list call)
      (strike : Z) :
  let r := subscribeStrike indexName (st, log) strike in
  let '(st', out) :=
    subscribeTokens st (omap (resolve indexName) [(strike, ce); (strike, pe)]) in
  fst r = st' /\
  subscribes (snd r) = subscribes log ++ out /\
  fetches (snd r) = fetches log ++ [tokenUrl indexName strike ce;
                                    tokenUrl indexName strike pe] /\
  expansions (snd r) = expansions log.
Proof.
  change (omap (resolve indexName) [(strike, ce); (strike, pe)])
    with (omap id [resolve indexName (strike, ce); resolve indexName (strike, pe)]).
  rewrite subscribeTokens_two.
  unfold subscribeStrike, resolve. cbn [fst snd].
  pose proof (getOptionToken_calls indexName strike ce) as (Hf1 & Hs1 & He1).
  pose proof (getOptionToken_calls indexName strike pe) as (Hf2 & Hs2 & He2).
  destruct (getOptionToken indexName strike ce) as [ceToken l1].
  destruct (getOptionToken indexName strike pe) as [peToken l2].
  cbn [fst snd] in *.
  pose proof (subscribeOption_calls st ceToken) as (Hf3 & He3).
  destruct (subscribeOption st ceToken) as [st1 l3].
  pose proof (subscribeOption_calls st1 peToken) as (Hf4 & He4).
  destruct (subscribeOption st1 peToken) as [st2 l4].
  cbn [fst snd] in *.
  rewrite !subscribes_app, !fetches_app, !expansions_app.
  rewrite Hs1, Hs2, Hf1, Hf2, Hf3, Hf4, He1, He2, He3, He4.
  cbn [app]. rewrite !app_nil_r. auto.
Qed.

Lemma subscribeTokens_app (st : state) (xs ys : list string) :
  subscribeTokens st (xs ++ ys) =
    let '(st1, out1) := subscribeTokens st xs in
    let '(st2, out2) := subscribeTokens st1 ys in
    (st2, out1 ++ out2).
Proof.
  revert st. induction xs as [|x xs IH]; intros st; cbn [subscribeTokens app].
  - now destruct (subscribeTokens st ys).
  - destruct (subscribeOption st (Some x)) as [st1 l].
    rewrite IH. destruct (subscribeTokens st1 xs) as [st2 out1].
    destruct (subscribeTokens st2 ys) as [st3 out2].
    now rewrite app_assoc.
Qed.

Lemma fold_subscribeStrike_spec (indexName : string) (strikes : list Z)
      (st : state) (log : list call) :
  let r := fold_left (subscribeStrike indexName) strikes (st, log) in
  let '(st', out) :=
    subscribeTokens st (omap (resolve indexName) (legs strikes)) in
  fst r = st' /\
  subscribes (snd r) = subscribes log ++ out /\
  fetches (snd r) = fetches log ++ map (legUrl indexName) (legs strikes) /\
  expansions (snd r) = expansions log.
Proof.
  revert st log. induction strikes as [|k strikes IH]; intros st log.
  - simpl. rewrite !app_nil_r. auto.
  - cbn [fold_left legs flat_map].
    change (flat_map (fun strike => [(strike, ce); (strike, pe)]) strikes)
      with (legs strikes).
    rewrite omap_app, subscribeTokens_app.
    pose proof (subscribeStrike_spec indexName st log k) as Hk.
    cbv zeta in Hk.
    destruct (subscribeTokens st (omap (resolve indexName) [(k, ce); (k, pe)]))
      as [st1 out1].
    destruct Hk as (Hst & Hsub & Hfet & Hexp).
    destruct (subscribeStrike indexName (st, log) k) as [st1' log1].
    simpl in Hst, Hsub, Hfet, Hexp. subst st1'.
    specialize (IH st1 log1). cbv zeta in IH.
    destruct (subscribeTokens st1 (omap (resolve indexName) (legs strikes)))
      as [st2 out2].
    destruct IH as (-> & -> & -> & ->).
    rewrite Hsub, Hfet, Hexp. simpl. rewrite <- !app_assoc. auto.
Qed.

(** ** Facts: what a run of subscriptions does *)

Lemma subscribeTokens_props (st : state) (tokens : list string) :
  let r := subscribeTokens st tokens in
  activeSubscriptions (fst r)
    = activeSubscriptions st ∪ list_to_set (map optionTopic tokens) /\
  isFirstIndexMessage (fst r) = isFirstIndexMessage st /\
  (forall topic, In topic (snd r) ->
     (topic ∉ activeSubscriptions st) /\
     exists t, In t tokens /\ topic = optionTopic t) /\
  (forall t, In t tokens ->
     optionTopic t ∈ activeSubscriptions st \/ In (optionTopic t) (snd r)) /\
  List.NoDup (snd r).
Proof using Type.
  clear.
  revert st. induction tokens as [|t tokens IH]; intros st.
  - cbn [subscribeTokens fst snd map list_to_set].
    refine (conj _ (conj eq_refl (conj _ (conj _ _)))).
    + set_solver.
    + intros topic [].
    + intros t [].
    + constructor.
  - cbn [subscribeTokens]. unfold subscribeOption.
    destruct (bool_decide (optionTopic t ∈ activeSubscriptions st)) eqn:Hin.
    + apply bool_decide_eq_true_1 in Hin.
      specialize (IH st). cbv zeta in IH.
      destruct (subscribeTokens st tokens) as [st2 out].
      destruct IH as (Ha & Hf & Hnew & Hall & Hnd). cbn [fst snd] in *.
      cbn [subscribes omap list_omap app].
      refine (conj _ (conj Hf (conj _ (conj _ Hnd)))).
      * rewrite Ha. cbn [map list_to_set]. set_solver.
      * intros topic Ht. destruct (Hnew topic Ht) as (Hn & t' & Ht' & ->).
        split; [exact Hn|]. exists t'. split; [now right|reflexivity].
      * intros t' [<-|Ht']; [now left|]. now apply Hall.
    + apply bool_decide_eq_false_1 in Hin.
      match goal with
      | |- context [subscribeTokens ?s tokens] => specialize (IH s)
      end.
      cbv zeta in IH.
      match goal with
      | |- context [subscribeTokens ?s tokens] =>
          destruct (subscribeTokens s tokens) as [st2 out]
      end.
      destruct IH as (Ha & Hf & Hnew & Hall & Hnd). cbn [fst snd] in *.
      cbn [activeSubscriptions isFirstIndexMessage] in *.
      change (subscribes [Subscribe (optionTopic t)] ++ out)
        with (optionTopic t :: out).
      refine (conj _ (conj Hf (conj _ (conj _ _)))).
      * rewrite Ha. cbn [map list_to_set]. set_solver.
      * intros topic [<-|Ht].
        -- split; [exact Hin|]. exists t. split; [now left|reflexivity].
        -- destruct (Hnew topic Ht) as (Hn & t' & Ht' & ->).
           split; [set_solver|]. exists t'. split; [now right|reflexivity].
      * intros t' [<-|Ht']; [right; now left|].
        destruct (Hall t' Ht') as [Hact|Hout]; [|right; now right].
        apply elem_of_union in Hact as [Heq|Hact]; [|now left].
        apply elem_of_singleton in Heq. right. left. now rewrite Heq.
      * constructor; [|exact Hnd].
        intros Hcontra. destruct (Hnew _ Hcontra) as (Hn & _).
        apply Hn. set_solver.
Qed.

(** A topic that is already active is not subscribed again by an
    expansion, and an expansion that resolves only active topics changes
    nothing. *)
Lemma subscribeToAtmOptions_no_resubscribe (st : state) (indexName : string)
      (atmStrike : Z) (topic : string) :
  topic ∈ activeSubscriptions st ->
  ~ In (Subscribe topic) (snd (subscribeToAtmOptions st indexName atmStrike)).
Proof.
  intros Hact Hin.
  pose proof (fold_subscribeStrike_spec indexName
                (chainStrikes indexName atmStrike) st
                [LogExpansion indexName atmStrike]) as H.
  cbv zeta in H. fold (subscribeToAtmOptions st indexName atmStrike) in H.
  pose proof (subscribeTokens_props st
                (omap (resolve indexName)
                      (legs (chainStrikes indexName atmStrike)))) as P.
  cbv zeta in P.
  destruct (subscribeTokens st _) as [st' out].
  destruct H as (_ & Hsub & _). destruct P as (_ & _ & Hnew & _).
  cbn [snd subscribes omap list_omap app] in *.
  assert (Hout : In topic out).
  { rewrite <- Hsub. unfold subscribes.
    apply list_elem_of_In. apply list_elem_of_omap.
    exists (Subscribe topic). split; [now apply list_elem_of_In|reflexivity]. }
  destruct (Hnew topic Hout) as (Hn & _). contradiction.
Qed.

(** ** Facts: the first-message flags *)

Lemma subscribeToAtmOptions_flags (st : state) (indexName : string) (atmStrike : Z) :
  isFirstIndexMessage (fst (subscribeToAtmOptions st indexName atmStrike))
  = isFirstIndexMessage st.
Proof.
  pose proof (fold_subscribeStrike_spec indexName
                (chainStrikes indexName atmStrike) st
                [LogExpansion indexName atmStrike]) as H.
  cbv zeta in H. fold (subscribeToAtmOptions st indexName atmStrike) in H.
  pose proof (subscribeTokens_props st
                (omap (resolve indexName)
                      (legs (chainStrikes indexName atmStrike)))) as P.
  cbv zeta in P.
  destruct (subscribeTokens st _) as [st' out].
  destruct H as (-> & _). destruct P as (_ & Hf & _). exact Hf.
Qed.

(** An expansion announces itself exactly once. *)
Lemma subscribeToAtmOptions_expansions (st : state) (indexName : string)
      (atmStrike : Z) :
  expansions (snd (subscribeToAtmOptions st indexName atmStrike))
  = [(indexName, atmStrike)].
Proof.
  pose proof (fold_subscribeStrike_spec indexName
                (chainStrikes indexName atmStrike) st
                [LogExpansion indexName atmStrike]) as H.
  cbv zeta in H. fold (subscribeToAtmOptions st indexName atmStrike) in H.
  destruct (subscribeTokens st _) as [st' out].
  destruct H as (_ & _ & _ & ->). reflexivity.
Qed.

Lemma fold_set_true_lookup (indices : list string) (m : gmap string bool)
      (indexName : string) :
  fold_left (fun m i => <[i := true]> m) indices m !! indexName
  = if bool_decide (indexName ∈ indices) then Some true else m !! indexName.
Proof using Type.
  clear.
  revert m. induction indices as [|i indices IH]; intros m; cbn [fold_left].
  - rewrite bool_decide_eq_false_2 by apply not_elem_of_nil. reflexivity.
  - rewrite IH. destruct (decide (indexName ∈ indices)) as [Hin|Hnin].
    + rewrite (bool_decide_eq_true_2 _ Hin).
      rewrite bool_decide_eq_true_2 by now right. reflexivity.
    + rewrite (bool_decide_eq_false_2 _ Hnin).
      destruct (decide (i = indexName)) as [->|Hne].
      * rewrite bool_decide_eq_true_2 by left. apply lookup_insert_eq.
      * rewrite bool_decide_eq_false_2.
        -- now apply lookup_insert_ne.
        -- intros Hin. apply elem_of_cons in Hin as [->|Hin]; tauto.
Qed.

Lemma initializeFirstMessageTracking_lookup (st : state) (indexName : string) :
  isFirstIndexMessage (initializeFirstMessageTracking st) !! indexName
  = if bool_decide (indexName ∈ INDICES) then Some true
    else isFirstIndexMessage st !! indexName.
Proof using Type. apply fold_set_true_lookup. Qed.

(** ** Facts: the base channels *)

Lemma fold_subscribeIndex (indices : list string) (st : state) (log : list call) :
  snd (fold_left subscribeIndex indices (st, log))
    = log ++ map (fun i => Subscribe ("index/" +:+ i)) indices /\
  activeSubscriptions (fst (fold_left subscribeIndex indices (st, log)))
    = activeSubscriptions st ∪ list_to_set (map (fun i => "index/" +:+ i) indices) /\
  isFirstIndexMessage (fst (fold_left subscribeIndex indices (st, log)))
    = isFirstIndexMessage st.
Proof using Type.
  clear.
  revert st log. induction indices as [|i indices IH]; intros st log.
  - simpl. rewrite app_nil_r. repeat split. set_solver.
  - cbn [fold_left subscribeIndex map list_to_set].
    destruct (IH (mkState ({["index/" +:+ i]} ∪ activeSubscriptions st)
                          (isFirstIndexMessage st))
                 (log ++ [Subscribe ("index/" +:+ i)])) as (Hl & Ha & Hf).
    rewrite Hl, Ha, Hf. cbn [activeSubscriptions isFirstIndexMessage].
    rewrite <- app_assoc. repeat split. set_solver.
Qed.

(** [subscribeToAllIndices] calls [client.subscribe] for every configured
    index, whether or not its channel is already in the set. *)
Lemma subscribeToAllIndices_calls (st : state) :
  snd (subscribeToAllIndices st)
    = map (fun i => Subscribe ("index/" +:+ i)) INDICES /\
  activeSubscriptions (fst (subscribeToAllIndices st))
    = activeSubscriptions st ∪ list_to_set (map (fun i => "index/" +:+ i) INDICES).
Proof.
  unfold subscribeToAllIndices.
  destruct (fold_subscribeIndex INDICES st []) as (Hl & Ha & _).
  rewrite Hl, Ha. split; reflexivity.
Qed.

(** The token a lookup returns is the one the endpoint sent: a lookup
    yields a token exactly when it succeeded. *)
Lemma resolve_succeeded (indexName : string) (leg : Z * OptionType) (t : string) :
  resolve indexName leg = Some t <-> succeeded (fetch (legUrl indexName leg)) t.
Proof.
  unfold resolve, legUrl, getOptionToken, succeeded.
  destruct (fetch _) as [|status body].
  { cbn. split; [discriminate|]. intros (status & [=] & _). }
  destruct (response_ok status) eqn:Es.
  - destruct body as [| | |token]; cbn;
      try (split; [discriminate|]; intros (status' & [=] & _)).
    destruct (decide (token = "")) as [->|Hne].
    + cbn. split; [discriminate|]. intros (status' & [= _ <-] & _ & Hne). congruence.
    + rewrite bool_decide_eq_false_2 by exact Hne. split.
      * intros [= <-]. exists status. auto.
      * intros (status' & [= _ <-] & _). reflexivity.
  - cbn. split; [discriminate|]. intros (status' & [= <- _] & Hok & _). congruence.
Qed.

Lemma In_subscribes (topic : string) (log : list call) :
  In topic (subscribes log) -> In (Subscribe topic) log.
Proof.
  intros Hin. apply list_elem_of_In, list_elem_of_omap in Hin as (c & Hc & Heq).
  destruct c; try discriminate. injection Heq as ->. now apply list_elem_of_In.
Qed.

(** C8: during a chain expansion every leg is looked up exactly once, in
    chain order, whatever the other lookups returned (no leg is retried,
    no leg is given up because another failed); a lookup that fails
    (network error, non-success status, malformed body) yields no token;
    and the subscriptions made are exactly those of the legs that did
    yield a token, taken in chain order: a failed leg contributes no
    subscription, and every resolved leg's topic is active afterwards.
    A lookup yields a token exactly when it succeeds, and then it is the
    token the endpoint sent: every leg of the chain whose lookup
    succeeds is subscribed in this expansion, unless its topic was
    active already, whatever happened to the other legs. *)
Theorem C8_failed_leg_skipped (st : state) (indexName : string) (atmStrike : Z) :
  let chain := legs (chainStrikes indexName atmStrike) in
  let r := subscribeToAtmOptions st indexName atmStrike in
  fetches (snd r) = map (legUrl indexName) chain /\
  (forall leg, failed (fetch (legUrl indexName leg)) ->
     resolve indexName leg = None /\
     fetches (snd (getOptionToken indexName (fst leg) (snd leg)))
       = [legUrl indexName leg]) /\
  (fst r, subscribes (snd r))
    = subscribeTokens st (omap (resolve indexName) chain) /\
  (forall topic, In (Subscribe topic) (snd r) ->
     exists leg t, In leg chain /\ resolve indexName leg = Some t /\
                   topic = optionTopic t) /\
  (forall leg t, In leg chain -> resolve indexName leg = Some t ->
     optionTopic t ∈ activeSubscriptions (fst r)) /\
  (forall leg t,
     resolve indexName leg = Some t <-> succeeded (fetch (legUrl indexName leg)) t) /\
  (forall leg t, In leg chain -> succeeded (fetch (legUrl indexName leg)) t ->
     optionTopic t ∈ activeSubscriptions (fst r) /\
     (optionTopic t ∈ activeSubscriptions st \/
      In (Subscribe (optionTopic t)) (snd r))).
Proof.
  intros chain r.
  pose proof (fold_subscribeStrike_spec indexName
                (chainStrikes indexName atmStrike) st
                [LogExpansion indexName atmStrike]) as H.
  cbv zeta in H. fold (subscribeToAtmOptions st indexName atmStrike) in H.
  fold r in H. fold chain in H.
  pose proof (subscribeTokens_props st (omap (resolve indexName) chain)) as P.
  cbv zeta in P.
  destruct (subscribeTokens st (omap (resolve indexName) chain)) as [st' out].
  destruct H as (Hst & Hsub & Hfet & _).
  destruct P as (Hact & _ & Hnew & Hall & _).
  cbn [fst snd subscribes fetches omap list_omap app] in *.
  assert (Hactive : forall leg t, In leg chain -> resolve indexName leg = Some t ->
                      optionTopic t ∈ activeSubscriptions (fst r)).
  { intros leg t Hleg Hres. rewrite Hst, Hact.
    apply elem_of_union_r. apply elem_of_list_to_set.
    apply list_elem_of_In. apply in_map. apply list_elem_of_In.
    apply list_elem_of_omap. exists leg. split; [now apply list_elem_of_In|exact Hres]. }
  refine (conj Hfet (conj _ (conj _ (conj _ (conj Hactive (conj _ _)))))).
  - intros [strike o] Hfail. unfold resolve, legUrl in *. cbn [fst snd] in *.
    rewrite (getOptionToken_failed _ _ _ Hfail). split; reflexivity.
  - destruct r as [st1 log1]. cbn [fst snd] in *. now subst.
  - intros topic Hin.
    assert (Hout : In topic out).
    { rewrite <- Hsub. unfold subscribes.
      apply list_elem_of_In. apply list_elem_of_omap.
      exists (Subscribe topic). split; [now apply list_elem_of_In|reflexivity]. }
    destruct (Hnew topic Hout) as (_ & t & Ht & ->).
    apply list_elem_of_In in Ht. apply list_elem_of_omap in Ht as (leg & Hleg & Hres).
    exists leg, t. split; [now apply list_elem_of_In|]. split; [exact Hres|reflexivity].
  - intros leg t. apply resolve_succeeded.
  - intros leg t Hleg Hok. apply resolve_succeeded in Hok.
    split; [exact (Hactive leg t Hleg Hok)|].
    assert (Ht : In t (omap (resolve indexName) chain)).
    { apply list_elem_of_In, list_elem_of_omap.
      exists leg. split; [now apply list_elem_of_In|exact Hok]. }
    destruct (Hall t Ht) as [Ha|Ho]; [now left|right].
    apply In_subscribes. fold (subscribes (snd r)). now rewrite Hsub.
Qed.

(** ** Facts: the shape and the cost of a chain *)

Lemma legs_length (strikes : list Z) : length (legs strikes) = (2 * length strikes)%nat.
Proof.
  induction strikes as [|k strikes IH]; [reflexivity|].
  cbn [legs flat_map app length]. fold (legs strikes). rewrite IH. lia.
Qed.

Lemma round64_exact (x : Z) : (Z.abs x <= 2 ^ 53)%Z -> round64 x = x.
Proof.
  intros H. unfold round64. cbv zeta.
  destruct (Z.leb_spec (Z.abs x) (2 ^ 53)) as [_|Hgt]; [reflexivity|lia].
Qed.

(** X13: as long as the strikes stay among the integers that numbers
    hold exactly (the half-width below 2^53, and
    [|atmStrike| + STRIKE_RANGE * |strikeDiff|] at most 2^53), the chain
    of an expansion holds [2 * STRIKE_RANGE + 1] strikes, the strike at
    position [i] is [atmStrike + (i - STRIKE_RANGE) * strikeDiff], so the
    ATM strike sits in the middle and neighbours are one increment
    apart; with a non-zero increment no strike occurs twice; a negative
    [STRIKE_RANGE] gives an empty chain.  Every expansion sends two token
    requests per strike, whatever is subscribed already. *)
Theorem X13_chain_shape (st : state) (indexName : string) (atmStrike : Z) :
  (STRIKE_RANGE < 2 ^ 53)%Z ->
  (Z.abs atmStrike + STRIKE_RANGE * Z.abs (getStrikeDiff indexName) <= 2 ^ 53)%Z ->
  let chain := chainStrikes indexName atmStrike in
  length chain = Z.to_nat (2 * STRIKE_RANGE + 1) /\
  (forall i : nat,
     (Z.of_nat i < 2 * STRIKE_RANGE + 1)%Z ->
     chain !! i
     = Some (atmStrike + (Z.of_nat i - STRIKE_RANGE) * getStrikeDiff indexName)%Z) /\
  ((0 <= STRIKE_RANGE)%Z -> chain !! Z.to_nat STRIKE_RANGE = Some atmStrike) /\
  (getStrikeDiff indexName <> 0%Z -> NoDup chain) /\
  ((STRIKE_RANGE < 0)%Z -> chain = []) /\
  length (fetches (snd (subscribeToAtmOptions st indexName atmStrike)))
  = (2 * length chain)%nat.
Proof.
  intros _ Hsafe chain.
  assert (Hlen : length chain = Z.to_nat (2 * STRIKE_RANGE + 1)).
  { unfold chain, chainStrikes. now rewrite length_map, length_seqZ. }
  assert (Hlook : forall i : nat,
     (Z.of_nat i < 2 * STRIKE_RANGE + 1)%Z ->
     chain !! i
     = Some (atmStrike + (Z.of_nat i - STRIKE_RANGE) * getStrikeDiff indexName)%Z).
  { intros i Hi. unfold chain, chainStrikes.
    change (map ?f ?l) with (f <$> l).
    rewrite list_lookup_fmap, lookup_seqZ_lt by exact Hi. cbn [fmap option_fmap option_map].
    f_equal. unfold js_add, js_mul.
    set (d := getStrikeDiff indexName) in *.
    set (j := (- STRIKE_RANGE + Z.of_nat i)%Z).
    assert (Hj : (Z.abs j <= STRIKE_RANGE)%Z) by (unfold j; lia).
    assert (Hjd : (Z.abs (j * d) <= STRIKE_RANGE * Z.abs d)%Z).
    { rewrite Z.abs_mul. apply Z.mul_le_mono_nonneg_r; [apply Z.abs_nonneg|exact Hj]. }
    rewrite (round64_exact (j * d)) by lia.
    rewrite round64_exact by lia. unfold j. lia. }
  split; [exact Hlen|]. split; [exact Hlook|]. split; [|split; [|split]].
  - intros H0. rewrite Hlook by lia. f_equal. rewrite Z2Nat.id by exact H0. lia.
  - intros Hd. apply NoDup_alt. intros i k x Hi Hk.
    assert (Hi' : (Z.of_nat i < 2 * STRIKE_RANGE + 1)%Z).
    { apply lookup_lt_Some in Hi. rewrite Hlen in Hi. lia. }
    assert (Hk' : (Z.of_nat k < 2 * STRIKE_RANGE + 1)%Z).
    { apply lookup_lt_Some in Hk. rewrite Hlen in Hk. lia. }
    rewrite Hlook in Hi, Hk by assumption.
    rewrite <- Hk in Hi. injection Hi as Heq.
    assert (Hz : ((Z.of_nat i - Z.of_nat k) * getStrikeDiff indexName = 0)%Z) by lia.
    apply Z.mul_eq_0 in Hz as [Hz|Hz]; [lia|contradiction].
  - intros Hneg. unfold chain, chainStrikes. now rewrite seqZ_nil by lia.
  - clear Hlook Hlen. subst chain.
    pose proof (fold_subscribeStrike_spec indexName
                  (chainStrikes indexName atmStrike) st
                  [LogExpansion indexName atmStrike]) as H.
    cbv zeta in H. fold (subscribeToAtmOptions st indexName atmStrike) in H.
    destruct (subscribeTokens st _) as [st' out].
    destruct H as (_ & _ & -> & _).
    cbn [fetches omap list_omap app]. now rewrite length_map, legs_length.
Qed.

(** ** Facts: subscriptions over several expansions *)

Lemma subscribeToAtmOptions_grows (st : state) (indexName : string) (atmStrike : Z) :
  let r := subscribeToAtmOptions st indexName atmStrike in
  NoDup (subscribes (snd r)) /\
  (forall topic, topic ∈ subscribes (snd r) -> topic ∉ activeSubscriptions st) /\
  (forall topic, topic ∈ activeSubscriptions (fst r) <->
                 topic ∈ activeSubscriptions st \/ topic ∈ subscribes (snd r)) /\
  isFirstIndexMessage (fst r) = isFirstIndexMessage st.
Proof.
  intros r.
  pose proof (fold_subscribeStrike_spec indexName
                (chainStrikes indexName atmStrike) st
                [LogExpansion indexName atmStrike]) as H.
  cbv zeta in H. fold (subscribeToAtmOptions st indexName atmStrike) in H.
  fold r in H.
  pose proof (subscribeTokens_props st
                (omap (resolve indexName)
                      (legs (chainStrikes indexName atmStrike)))) as P.
  cbv zeta in P.
  destruct (subscribeTokens st _) as [st' out].
  destruct H as (Hst & Hsub & _). destruct P as (Hact & Hf & Hnew & Hall & Hnd).
  cbn [fst snd subscribes omap list_omap app] in *.
  fold (subscribes (snd r)) in Hsub. rewrite Hsub, Hst.
  split; [now apply NoDup_ListNoDup|]. split; [|split; [|exact Hf]].
  - intros topic Hin. apply list_elem_of_In in Hin. now destruct (Hnew topic Hin).
  - intros topic. rewrite Hact, elem_of_union, elem_of_list_to_set. split.
    + intros [Ha|Hin]; [now left|].
      apply list_elem_of_In, in_map_iff in Hin as (t & <- & Ht).
      destruct (Hall t Ht) as [Ha|Ho]; [now left|right; now apply list_elem_of_In].
    + intros [Ha|Hin]; [now left|]. right.
      apply list_elem_of_In in Hin. destruct (Hnew topic Hin) as (_ & t & Ht & ->).
      apply list_elem_of_In. now apply in_map.
Qed.

(** X14: over any number of expansions, for any indices and strikes, no
    topic is subscribed twice and no topic that was active at the start
    is subscribed again; the Active Subscription Set only grows, by
    exactly the topics subscribed (nothing is ever removed when the chain
    moves); the first-message flags are not touched. *)
Theorem X14_expansions_never_resubscribe (reqs : list (string * Z)) (st : state) :
  let r := expand_all reqs st in
  NoDup (subscribes (snd r)) /\
  (forall topic, topic ∈ subscribes (snd r) -> topic ∉ activeSubscriptions st) /\
  (forall topic, topic ∈ activeSubscriptions (fst r) <->
                 topic ∈ activeSubscriptions st \/ topic ∈ subscribes (snd r)) /\
  isFirstIndexMessage (fst r) = isFirstIndexMessage st.
Proof.
  revert st. induction reqs as [|[indexName atmStrike] rest IH]; intros st.
  - cbn. split; [constructor|]. split; [intros topic Hin; inversion Hin|].
    split; [|reflexivity]. intros topic. split; [now left|].
    intros [H|H]; [exact H|inversion H].
  - cbn [expand_all].
    pose proof (subscribeToAtmOptions_grows st indexName atmStrike) as H1.
    cbv zeta in H1.
    destruct (subscribeToAtmOptions st indexName atmStrike) as [st1 l1].
    specialize (IH st1). cbv zeta in IH.
    destruct (expand_all rest st1) as [st2 l2]. cbn [fst snd] in *.
    destruct H1 as (Hnd1 & Hnew1 & Hact1 & Hf1).
    destruct IH as (Hnd2 & Hnew2 & Hact2 & Hf2).
    rewrite subscribes_app.
    split; [|split; [|split; [|congruence]]].
    + apply NoDup_app. split; [exact Hnd1|]. split; [|exact Hnd2].
      intros topic Hin1 Hin2. apply (Hnew2 topic Hin2). apply Hact1. now right.
    + intros topic Hin. apply elem_of_app in Hin as [Hin|Hin]; [now apply Hnew1|].
      intros Ha. apply (Hnew2 topic Hin). apply Hact1. now left.
    + intros topic. rewrite Hact2, Hact1, elem_of_app. tauto.
Qed.

(** ** Facts: the base channels on every connect *)

(** X15: [subscribeToAllIndices] calls [client.subscribe] once for every
    configured index, in the configured order and whatever the state is
    (it does not consult the Active Subscription Set); afterwards every
    base channel is active, nothing has been removed, and the
    first-message flags are as before; a further call changes no state. *)
Theorem X15_base_channels_every_connect (st : state) :
  let r := subscribeToAllIndices st in
  snd r = map (fun i => Subscribe ("index/" +:+ i)) INDICES /\
  (forall topic, topic ∈ activeSubscriptions (fst r) <->
     topic ∈ activeSubscriptions st \/
     exists i, i ∈ INDICES /\ topic = "index/" +:+ i) /\
  isFirstIndexMessage (fst r) = isFirstIndexMessage st /\
  fst (subscribeToAllIndices (fst r)) = fst r.
Proof.
  intros r. unfold r, subscribeToAllIndices.
  destruct (fold_subscribeIndex INDICES st []) as (Hl & Ha & Hf).
  destruct (fold_subscribeIndex INDICES
              (fst (fold_left subscribeIndex INDICES (st, []))) [])
    as (_ & Ha2 & Hf2).
  split; [exact Hl|]. split; [|split; [exact Hf|]].
  - intros topic. rewrite Ha, elem_of_union, elem_of_list_to_set. split.
    + intros [H|H]; [now left|]. right.
      apply list_elem_of_In, in_map_iff in H as (i & <- & Hi).
      exists i. split; [now apply list_elem_of_In|reflexivity].
    + intros [H|(i & Hi & ->)]; [now left|]. right.
      apply list_elem_of_In. apply in_map. now apply list_elem_of_In.
  - destruct (fst (fold_left subscribeIndex INDICES
                     (fst (fold_left subscribeIndex INDICES (st, [])), [])))
      as [a2 f2].
    destruct (fst (fold_left subscribeIndex INDICES (st, []))) as [a1 f1].
    cbn [activeSubscriptions isFirstIndexMessage] in *. subst f2. f_equal.
    rewrite Ha2. apply set_eq. intros topic.
    rewrite elem_of_union. split; [|now left].
    intros [H|H]; [exact H|]. rewrite Ha. apply elem_of_union. now right.
Qed.


(** ** Facts: what an expansion sends, for its callers *)

Lemma subscribeToAtmOptions_fetches (st : state) (indexName : string) (atmStrike : Z) :
  fetches (snd (subscribeToAtmOptions st indexName atmStrike))
  = map (legUrl indexName) (legs (chainStrikes indexName atmStrike)).
Proof.
  pose proof (fold_subscribeStrike_spec indexName
                (chainStrikes indexName atmStrike) st
                [LogExpansion indexName atmStrike]) as H.
  cbv zeta in H. fold (subscribeToAtmOptions st indexName atmStrike) in H.
  destruct (subscribeTokens st _) as [st' out].
  destruct H as (_ & _ & -> & _). reflexivity.
Qed.

Lemma subscribeToAtmOptions_topics (st : state) (indexName : string)
      (atmStrike : Z) (topic : string) :
  In (Subscribe topic) (snd (subscribeToAtmOptions st indexName atmStrike)) ->
  exists t, topic = optionTopic t.
Proof.
  intros Hin.
  pose proof (fold_subscribeStrike_spec indexName
                (chainStrikes indexName atmStrike) st
                [LogExpansion indexName atmStrike]) as H.
  cbv zeta in H. fold (subscribeToAtmOptions st indexName atmStrike) in H.
  pose proof (subscribeTokens_props st
                (omap (resolve indexName)
                      (legs (chainStrikes indexName atmStrike)))) as P.
  cbv zeta in P.
  destruct (subscribeTokens st _) as [st' out].
  destruct H as (_ & Hsub & _). destruct P as (_ & _ & Hnew & _).
  cbn [snd subscribes omap list_omap app] in *.
  assert (Hout : In topic out).
  { rewrite <- Hsub. unfold subscribes.
    apply list_elem_of_In. apply list_elem_of_omap.
    exists (Subscribe topic). split; [now apply list_elem_of_In|reflexivity]. }
  destruct (Hnew topic Hout) as (_ & t & _ & ->). now exists t.
Qed.

End Operations.


(** ** Concrete runs *)

Ltac by_computation := apply (bool_decide_unpack _); vm_compute; exact I.

Definition demo_INDICES : list string := ["NIFTY"; "BANKNIFTY"].

Definition demo_EXPIRY_DATES (indexName : string) : option string :=
  if String.eqb indexName "NIFTY" then Some "20250626"%string
  else if String.eqb indexName "BANKNIFTY" then Some "20250626"%string
  else None.

Definition demo_getStrikeDiff (indexName : string) : Z :=
  if String.eqb indexName "BANKNIFTY" then 100 else 50.

(** A token endpoint that knows five of the six legs around NIFTY 20000
    and answers 404 for the call at 20000. *)
Definition demo_tokens : list (string * string) :=
  [(tokenUrl demo_EXPIRY_DATES "NIFTY" 19950 ce, "43001"%string);
   (tokenUrl demo_EXPIRY_DATES "NIFTY" 19950 pe, "43002"%string);
   (tokenUrl demo_EXPIRY_DATES "NIFTY" 20000 pe, "43004"%string);
   (tokenUrl demo_EXPIRY_DATES "NIFTY" 20050 ce, "43005"%string);
   (tokenUrl demo_EXPIRY_DATES "NIFTY" 20050 pe, "43006"%string)].

Definition demo_fetch (url : string) : Response :=
  match List.find (fun e => String.eqb (fst e) url) demo_tokens with
  | Some e => HttpResponse 200 (JsonToken (snd e))
  | None => HttpResponse 404 JsonNoToken
  end.

Definition demo_expand (st : state) : state * list call :=
  subscribeToAtmOptions demo_EXPIRY_DATES 1 demo_getStrikeDiff demo_fetch
                        st "NIFTY" 20000.

Example demo_expand_calls :
  snd (demo_expand initial)
  = [LogExpansion "NIFTY" 20000;
     Fetch (tokenUrl demo_EXPIRY_DATES "NIFTY" 19950 ce);
     Fetch (tokenUrl demo_EXPIRY_DATES "NIFTY" 19950 pe);
     Subscribe "index/NSE_FO|43001"; Subscribe "index/NSE_FO|43002";
     Fetch (tokenUrl demo_EXPIRY_DATES "NIFTY" 20000 ce);
     LogTokenError "NIFTY" 20000 ce;
     Fetch (tokenUrl demo_EXPIRY_DATES "NIFTY" 20000 pe);
     Subscribe "index/NSE_FO|43004";
     Fetch (tokenUrl demo_EXPIRY_DATES "NIFTY" 20050 ce);
     Fetch (tokenUrl demo_EXPIRY_DATES "NIFTY" 20050 pe);
     Subscribe "index/NSE_FO|43005"; Subscribe "index/NSE_FO|43006"].
Proof. vm_compute. reflexivity. Qed.

Example demo_tokenUrl :
  tokenUrl demo_EXPIRY_DATES "NIFTY" 20000 ce
  = "https://api.trado.trade/token?index=NIFTY&expiryDate=20250626&optionType=ce&strikePrice=20000"%string.
Proof. vm_compute. reflexivity. Qed.

Lemma C8_failed_leg_skipped_witness :
  failed (demo_fetch (legUrl demo_EXPIRY_DATES "NIFTY" (20000%Z, ce))) /\
  resolve demo_EXPIRY_DATES demo_fetch "NIFTY" (20000%Z, ce) = None /\
  subscribes (snd (demo_expand initial))
  = ["index/NSE_FO|43001"; "index/NSE_FO|43002"; "index/NSE_FO|43004";
     "index/NSE_FO|43005"; "index/NSE_FO|43006"]%string /\
  succeeded (demo_fetch (legUrl demo_EXPIRY_DATES "NIFTY" (20000%Z, pe))) "43004" /\
  resolve demo_EXPIRY_DATES demo_fetch "NIFTY" (20000%Z, pe) = Some "43004"%string /\
  In (Subscribe "index/NSE_FO|43004") (snd (demo_expand initial)).
Proof.
  assert (Hf : failed (demo_fetch (legUrl demo_EXPIRY_DATES "NIFTY" (20000%Z, ce))))
    by (vm_compute; left; reflexivity).
  assert (Hs : succeeded (demo_fetch (legUrl demo_EXPIRY_DATES "NIFTY" (20000%Z, pe)))
                         "43004").
  { exists 200%Z. split; [vm_compute; reflexivity|]. split; [reflexivity|discriminate]. }
  assert (Hleg : In (20000%Z, pe)
                    (legs (chainStrikes 1 demo_getStrikeDiff "NIFTY" 20000))).
  { vm_compute. right. right. right. left. reflexivity. }
  pose proof (C8_failed_leg_skipped demo_EXPIRY_DATES 1 demo_getStrikeDiff
                demo_fetch initial "NIFTY" 20000)
    as (_ & Hskip & _ & _ & _ & Hiff & Hsub).
  split; [exact Hf|]. split; [exact (proj1 (Hskip (20000%Z, ce) Hf))|].
  split; [vm_compute; reflexivity|]. split; [exact Hs|].
  split; [exact (proj2 (Hiff (20000%Z, pe) "43004"%string) Hs)|].
  destruct (Hsub (20000%Z, pe) "43004"%string Hleg Hs) as [_ [Hin|Hin]].
  - exfalso. revert Hin. apply not_elem_of_empty.
  - exact Hin.
Defined.

(** A second expansion over the same chain subscribes nothing: option
    topics are guarded by the set. *)
Example demo_expand_twice :
  subscribes (snd (demo_expand (fst (demo_expand initial)))) = [] /\
  fst (demo_expand (fst (demo_expand initial))) = fst (demo_expand initial).
Proof. vm_compute. split; reflexivity. Qed.

Lemma X13_chain_shape_witness :
  (1 < 2 ^ 53)%Z /\
  (Z.abs 20000 + 1 * Z.abs (demo_getStrikeDiff "NIFTY") <= 2 ^ 53)%Z /\
  chainStrikes 1 demo_getStrikeDiff "NIFTY" 20000 !! 2%nat = Some 20050%Z /\
  NoDup (chainStrikes 1 demo_getStrikeDiff "NIFTY" 20000).
Proof.
  assert (H1 : (1 < 2 ^ 53)%Z) by reflexivity.
  assert (H2 : (Z.abs 20000 + 1 * Z.abs (demo_getStrikeDiff "NIFTY") <= 2 ^ 53)%Z)
    by (vm_compute; discriminate).
  pose proof (X13_chain_shape demo_EXPIRY_DATES 1 demo_getStrikeDiff demo_fetch
                initial "NIFTY" 20000 H1 H2) as (_ & Hlook & _ & Hnd & _).
  split; [exact H1|]. split; [exact H2|]. split.
  - exact (Hlook 2%nat ltac:(reflexivity)).
  - apply Hnd. vm_compute. discriminate.
Defined.

(** Beyond 2^53 the strikes are rounded: around an ATM strike of 2^53
    with increment 1, the strike above the ATM is the ATM again. *)
Example chain_beyond_exact_integers :
  chainStrikes 1 (fun _ => 1%Z) "NIFTY" (2 ^ 53)
  = [9007199254740991; 9007199254740992; 9007199254740992]%Z.
Proof. vm_compute. reflexivity. Qed.

(** C6 (violated by the code for base index channels): after a first
    [subscribeToAllIndices] the channel "index/NIFTY" is in the Active
    Subscription Set; a second call, as made on the next connect, issues
    [client.subscribe("index/NIFTY")] again (and likewise for every other
    configured index).  The set itself is unchanged. *)
Theorem C6_base_channel_resubscribed :
  let st1 := fst (subscribeToAllIndices demo_INDICES initial) in
  let '(st2, calls) := subscribeToAllIndices demo_INDICES st1 in
  "index/NIFTY"%string ∈ activeSubscriptions st1 /\
  calls = [Subscribe "index/NIFTY"; Subscribe "index/BANKNIFTY"] /\
  st2 = st1.
Proof.
  cbv zeta.
  destruct (subscribeToAllIndices demo_INDICES
              (fst (subscribeToAllIndices demo_INDICES initial)))
    as [st2 calls] eqn:E.
  split; [by_computation|].
  vm_compute in E. inversion E. split; reflexivity.
Qed.
End SubscriptionManager.

(* ================================================================== *)
(** * Message processor *)
(* ================================================================== *)

Module MessageProcessor.

Import SubscriptionManager.

(** ** JavaScript values

    What the decoders hand back is typed [any]; the code inspects it with
    truthiness tests, property reads, [typeof] and [Array.isArray]. *)
Inductive jsval : Type :=
| JUndefined
| JNull
| JBool (b : bool)
| JNumber (n : Q)
| JString (s : string)
| JArray (elems : list jsval)
| JObject (fields : list (string * jsval)).

Definition truthy (v : jsval) : bool :=
  match v with
  | JUndefined | JNull => false
  | JBool b => b
  | JNumber n => negb (Qeq_bool n 0)
  | JString s => negb (bool_decide (s = ""))
  | JArray _ | JObject _ => true
  end.

(** [v.name]; [None] is the [TypeError] of reading a property of [null]
    or [undefined].  The names read here ([ltp], [data]) are not defined
    on primitives or arrays. *)
Definition get (v : jsval) (name : string) : option jsval :=
  match v with
  | JUndefined | JNull => None
  | JObject fields =>
      match List.find (fun f => String.eqb (fst f) name) fields with
      | Some f => Some (snd f)
      | None => Some JUndefined
      end
  | _ => Some JUndefined
  end.

(** [typeof v === "number"], returning the number. *)
Definition as_number (v : jsval) : option Q :=
  match v with JNumber n => Some n | _ => None end.

(** [topic.split('/')]. *)
Fixpoint split_slash (s : string) : list string :=
  match s with
  | EmptyString => [EmptyString]
  | String c rest =>
      if Ascii.eqb c "/" then EmptyString :: split_slash rest
      else match split_slash rest with
           | part :: parts => String c part :: parts
           | [] => [String c EmptyString]
           end
  end.

(** What the processor sends out. *)
Inductive effect : Type :=
| LogDecodeFailure (topic : string)
    (* console.error("Failed to decode message as protobuf or JSON ...") *)
| Manager (c : call)                      (* calls made by an expansion *)
| SaveToDatabase (item : Sink.BatchItem). (* db.saveToDatabase(...) *)

Definition saved (log : list effect) : list Sink.BatchItem :=
  omap (fun e => match e with SaveToDatabase i => Some i | _ => None end) log.

Definition decode_failures (log : list effect) : list string :=
  omap (fun e => match e with LogDecodeFailure t => Some t | _ => None end) log.

Definition manager_calls (log : list effect) : list call :=
  omap (fun e => match e with Manager c => Some c | _ => None end) log.

(** [indexLtpMap] and [atmStrikeMap]. *)
Record state : Type := mkState {
  indexLtpMap : gmap string Q;
  atmStrikeMap : gmap string Z
}.

Definition initial : state := mkState ∅ ∅.

Section Operations.

(** [config.app.indexPrefix]; [utils.getAtmStrike], [utils.getStrikeDiff];
    the configuration and endpoint of the subscription manager; and the
    three decoders, [None] standing for a thrown error. *)
Variable indexPrefix : string.
Variable getAtmStrike : string -> Q -> Z.
Variable getStrikeDiff : string -> Z.
Variable INDICES : list string.
Variable EXPIRY_DATES : string -> option string.
Variable STRIKE_RANGE : Z.
Variable fetch : string -> Response.
Variable decodeMarketData : string -> option jsval.
Variable decodeMarketDataBatch : string -> option jsval.
Variable JSON_parse : string -> option jsval.

(** ** Decoding (the nested [try] blocks) *)

(** [if (decoded && typeof decoded.ltp === "number") ltpValues.push(...)]. *)
Definition single_ltp (decoded : jsval) : list Q :=
  if truthy decoded then
    match get decoded "ltp" with
    | Some (JNumber n) => [n]
    | _ => []
    end
  else [].

(** [data.map((d) => d.ltp)]: throws when an element is [null] or
    [undefined]. *)
Fixpoint map_ltp (data : list jsval) : option (list jsval) :=
  match data with
  | [] => Some []
  | d :: rest =>
      match get d "ltp", map_ltp rest with
      | Some v, Some vs => Some (v :: vs)
      | _, _ => None
      end
  end.

(** [if (decoded && Array.isArray(decoded.data))
       ltpValues = decoded.data.map(...).filter(...)]. *)
Definition batch_ltps (decoded : jsval) : option (list Q) :=
  if truthy decoded then
    match get decoded "data" with
    | Some (JArray data) =>
        match map_ltp data with
        | Some vs => Some (omap as_number vs)
        | None => None
        end
    | _ => Some []
    end
  else Some [].

Definition decode (topic : string) (message : string) : list Q * list effect :=
  match decodeMarketData message with
  | Some decoded => (single_ltp decoded, [])
  | None =>
      match
        match decodeMarketDataBatch message with
        | Some decoded => batch_ltps decoded
        | None => None
        end
      with
      | Some ltpValues => (ltpValues, [])
      | None =>
          match JSON_parse message with
          | Some decoded => (single_ltp decoded, [])
          | None => ([], [LogDecodeFailure topic])
          end
      end
  end.

(** ** The loop over the decoded prices *)

(** [topic.startsWith(`${config.app.indexPrefix}/`)]. *)
Definition isIndexTopic (topic : string) : bool :=
  String.prefix (indexPrefix +:+ "/") topic.

(** [topic.split('/')[1]]. *)
Definition indexNameOf (topic : string) : string :=
  nth 1 (split_slash topic) EmptyString.

(** [isFirstMessage ||
     (prevLtp !== undefined &&
      Math.abs(atmStrike - (atmStrikeMap.get(indexName) || 0))
        >= utils.getStrikeDiff(indexName))]. *)
Definition shouldExpand (isFirstMessage : option bool) (prevLtp : option Q)
           (atmStrike : Z) (recorded : option Z) (strikeDiff : Z) : bool :=
  default false isFirstMessage
  || (bool_decide (is_Some prevLtp)
      && (strikeDiff <=? Z.abs (atmStrike - default 0 recorded))%Z).

(** An expansion that has been started and is being awaited: the index,
    the strike, and the value of [isFirstMessage] the handler holds. *)
Record awaited : Type := mkAwaited {
  aw_index : string;
  aw_strike : Z;
  aw_first : option bool
}.

(** The index branch up to the [await]: the price is recorded, the strike
    computed, the decision taken and, if an expansion is due, the tracked
    strike updated. *)
Definition observe (mp : state) (sm : SubscriptionManager.state)
           (indexName : string) (ltp : Q) : state * option awaited :=
  let prevLtp := indexLtpMap mp !! indexName in
  let mp1 := mkState (<[indexName := ltp]> (indexLtpMap mp)) (atmStrikeMap mp) in
  let atmStrike := getAtmStrike indexName ltp in
  let isFirstMessage := isFirstIndexMessage sm !! indexName in
  if shouldExpand isFirstMessage prevLtp atmStrike
                  (atmStrikeMap mp1 !! indexName) (getStrikeDiff indexName)
  then (mkState (indexLtpMap mp1) (<[indexName := atmStrike]> (atmStrikeMap mp1)),
        Some (mkAwaited indexName atmStrike isFirstMessage))
  else (mp1, None).

(** The awaited expansion and the code after it:
    [if (isFirstMessage) isFirstIndexMessage.set(indexName, false)]. *)
Definition complete (sm : SubscriptionManager.state) (a : awaited)
  : SubscriptionManager.state * list call :=
  let '(sm1, calls) :=
    subscribeToAtmOptions EXPIRY_DATES STRIKE_RANGE getStrikeDiff fetch
                          sm (aw_index a) (aw_strike a) in
  (if default false (aw_first a)
   then SubscriptionManager.mkState
          (activeSubscriptions sm1)
          (<[aw_index a := false]> (isFirstIndexMessage sm1))
   else sm1,
   calls).

(** One turn of [for (const ltp of ltpValues)], run without interruption. *)
Definition processLtp (topic : string)
           (acc : state * SubscriptionManager.state * list effect) (ltp : Q)
  : state * SubscriptionManager.state * list effect :=
  let '(mp, sm, log) := acc in
  let '(mp1, sm1, log1) :=
    if isIndexTopic topic then
      let indexName := indexNameOf topic in
      match observe mp sm indexName ltp with
      | (mp1, Some a) =>
          let '(sm1, calls) := complete sm a in
          (mp1, sm1, log ++ map Manager calls)
      | (mp1, None) => (mp1, sm, log)
      end
    else (mp, sm, log) in
  let indexName :=
    if isIndexTopic topic then Some (indexNameOf topic) else None in
  (mp1, sm1,
   log1 ++ [SaveToDatabase (Sink.mkBatchItem topic ltp indexName None None)]).

(** [processMessage]. *)
Definition processMessage (topic : string) (message : string)
           (mp : state) (sm : SubscriptionManager.state)
  : state * SubscriptionManager.state * list effect :=
  let '(ltpValues, log) := decode topic message in
  fold_left (processLtp topic) ltpValues (mp, sm, log).


(** ** The expansion trigger

    [processMessage] is an [async] function: while it awaits an expansion
    the next message is handled.  The maps it reads are therefore followed
    through every interleaving: a step is the handling of a connect
    ([subscribeToAllIndices], [initializeFirstMessageTracking]), the part
    of an index observation that runs before the [await], or the return
    of an awaited expansion. *)

Record tracking : Type := mkTracking {
  tr_mp : state;
  tr_sm : SubscriptionManager.state;
  tr_awaited : list awaited
}.

Definition flag (t : tracking) (indexName : string) : option bool :=
  isFirstIndexMessage (tr_sm t) !! indexName.

Definition awaited_list (a : option awaited) : list awaited :=
  match a with Some a => [a] | None => [] end.

Inductive step : tracking -> tracking -> Prop :=
| step_subscribe (t : tracking) :
    step t (mkTracking (tr_mp t)
                       (fst (subscribeToAllIndices INDICES (tr_sm t)))
                       (tr_awaited t))
| step_track (t : tracking) :
    step t (mkTracking (tr_mp t)
                       (initializeFirstMessageTracking INDICES (tr_sm t))
                       (tr_awaited t))
| step_observe (t : tracking) (topic : string) (ltp : Q) :
    isIndexTopic topic = true ->
    step t (mkTracking
              (fst (observe (tr_mp t) (tr_sm t) (indexNameOf topic) ltp))
              (tr_sm t)
              (tr_awaited t
                 ++ awaited_list
                      (snd (observe (tr_mp t) (tr_sm t) (indexNameOf topic) ltp))))
| step_complete (t : tracking) (a : awaited) (before after : list awaited) :
    tr_awaited t = before ++ a :: after ->
    step t (mkTracking (tr_mp t) (fst (complete (tr_sm t) a)) (before ++ after)).

(** The service once tracking has been initialised, before any message. *)
Definition started : tracking :=
  mkTracking initial
             (initializeFirstMessageTracking INDICES SubscriptionManager.initial)
             [].

Inductive reachable : tracking -> Prop :=
| reachable_start : reachable started
| reachable_step (t t' : tracking) : reachable t -> step t t' -> reachable t'.

(** Does the observation invoke an expansion? *)
Definition triggers (t : tracking) (topic : string) (ltp : Q) : bool :=
  match snd (observe (tr_mp t) (tr_sm t) (indexNameOf topic) ltp) with
  | Some _ => true
  | None => false
  end.

(** An index has been observed: its price and its strike are recorded. *)
Definition tracked (mp : state) (indexName : string) : Prop :=
  is_Some (indexLtpMap mp !! indexName) /\ is_Some (atmStrikeMap mp !! indexName).

Record Inv (t : tracking) : Prop := mkInv {
  inv_configured : forall i, i ∈ INDICES -> is_Some (flag t i);
  inv_seen : forall i, flag t i = Some false -> tracked (tr_mp t) i;
  inv_awaited : forall a, In a (tr_awaited t) -> tracked (tr_mp t) (aw_index a)
}.

(** ** Vocabulary of the statements *)

(** The observation [processMessage] hands to [saveToDatabase] for a
    price: index channels carry the index name, [type] and [strike] are
    never set here. *)
Definition observation (topic : string) (ltp : Q) : Sink.BatchItem :=
  Sink.mkBatchItem topic ltp
    (if isIndexTopic topic then Some (indexNameOf topic) else None) None None.

Definition is_record (v : jsval) : Prop := exists fields, v = JObject fields.

(** The element carries a numeric price field. *)
Definition has_numeric_ltp (d : jsval) : bool :=
  match get d "ltp" with
  | Some (JNumber _) => true
  | _ => false
  end.

(** The payload matches none of the three formats: it is no single
    record, no batch, and no JSON text holding an object with a numeric
    price field. *)
Definition matches_no_format (message : string) : Prop :=
  decodeMarketData message = None /\
  decodeMarketDataBatch message = None /\
  forall decoded, JSON_parse message = Some decoded -> single_ltp decoded = [].

(** No [/] in the text. *)
Fixpoint slash_free (s : string) : bool :=
  match s with
  | EmptyString => true
  | String c rest => negb (Ascii.eqb c "/") && slash_free rest
  end.

(** [null] or [undefined]: the values on which a property read throws. *)
Definition nullish (v : jsval) : Prop := v = JUndefined \/ v = JNull.

(** The recorded strike of an index is the strike of the latest price,
    or less than one increment away from it. *)
Definition within_increment (mp : state) (indexName : string) : Prop :=
  forall p, indexLtpMap mp !! indexName = Some p ->
    exists k, atmStrikeMap mp !! indexName = Some k /\
      (k = getAtmStrike indexName p \/
       (Z.abs (getAtmStrike indexName p - k) < getStrikeDiff indexName)%Z).

(** Every attempt of the decoding chain throws; the second one also when
    the batch was decoded but one of its elements is [null] or
    [undefined]. *)
Definition all_throw (message : string) : Prop :=
  decodeMarketData message = None /\
  (decodeMarketDataBatch message = None \/
   exists d data,
     decodeMarketDataBatch message = Some d /\ truthy d = true /\
     get d "data" = Some (JArray data) /\ Exists nullish data) /\
  JSON_parse message = None.

(** ** Facts: one observation forwarded per decoded price *)

Lemma saved_app (l l' : list effect) : saved (l ++ l') = saved l ++ saved l'.
Proof. apply omap_app. Qed.

Lemma decode_failures_app (l l' : list effect) :
  decode_failures (l ++ l') = decode_failures l ++ decode_failures l'.
Proof. apply omap_app. Qed.

Lemma manager_calls_app (l l' : list effect) :
  manager_calls (l ++ l') = manager_calls l ++ manager_calls l'.
Proof. apply omap_app. Qed.

Lemma Manager_only (calls : list call) :
  saved (map Manager calls) = [] /\
  decode_failures (map Manager calls) = [] /\
  manager_calls (map Manager calls) = calls.
Proof.
  induction calls as [|c calls (IH1 & IH2 & IH3)]; [auto|].
  cbn [map]. change (Manager c :: map Manager calls)
    with ([Manager c] ++ map Manager calls).
  rewrite saved_app, decode_failures_app, manager_calls_app, IH1, IH2, IH3.
  auto.
Qed.

Lemma processLtp_log (topic : string) (mp : state)
      (sm : SubscriptionManager.state) (log : list effect) (ltp : Q) :
  let r := processLtp topic (mp, sm, log) ltp in
  saved (snd r) = saved log ++ [observation topic ltp] /\
  decode_failures (snd r) = decode_failures log.
Proof.
  unfold processLtp, observation.
  destruct (isIndexTopic topic).
  - destruct (observe mp sm (indexNameOf topic) ltp) as [mp1 [a|]].
    + destruct (complete sm a) as [sm1 calls]. cbn [snd].
      destruct (Manager_only calls) as (Hs & Hd & _).
      rewrite !saved_app, !decode_failures_app, Hs, Hd.
      cbn. rewrite !app_nil_r. auto.
    + cbn [snd]. rewrite saved_app, decode_failures_app. cbn.
      rewrite app_nil_r. auto.
  - cbn [snd]. rewrite saved_app, decode_failures_app. cbn.
    rewrite app_nil_r. auto.
Qed.

Lemma fold_processLtp_log (topic : string) (ltpValues : list Q) (mp : state)
      (sm : SubscriptionManager.state) (log : list effect) :
  let r := fold_left (processLtp topic) ltpValues (mp, sm, log) in
  saved (snd r) = saved log ++ map (observation topic) ltpValues /\
  decode_failures (snd r) = decode_failures log.
Proof.
  revert mp sm log. induction ltpValues as [|ltp rest IH]; intros mp sm log.
  - cbn. rewrite app_nil_r. auto.
  - cbn [fold_left map].
    pose proof (processLtp_log topic mp sm log ltp) as Hstep. cbv zeta in Hstep.
    destruct (processLtp topic (mp, sm, log) ltp) as [[mp1 sm1] log1].
    cbn [snd] in Hstep. destruct Hstep as (Hs & Hd).
    specialize (IH mp1 sm1 log1). cbv zeta in IH. destruct IH as (-> & ->).
    rewrite Hs, Hd, <- app_assoc. auto.
Qed.

(** The observations forwarded are the decoded prices, one each, in
    order; only the decoder reports decode failures. *)
Lemma processMessage_saved (topic message : string) (mp : state)
      (sm : SubscriptionManager.state) :
  let log := snd (processMessage topic message mp sm) in
  saved log = map (observation topic) (fst (decode topic message)) /\
  decode_failures log = decode_failures (snd (decode topic message)).
Proof.
  unfold processMessage.
  destruct (decode topic message) as [ltpValues log0] eqn:E.
  pose proof (fold_processLtp_log topic ltpValues mp sm log0) as H.
  cbv zeta in H. destruct H as (Hs & Hd). cbn [fst snd].
  rewrite Hs, Hd. split; [|reflexivity].
  assert (H0 : saved log0 = []).
  { unfold decode in E.
    destruct (decodeMarketData message); [now inversion E|].
    destruct (match decodeMarketDataBatch message with
              | Some d => batch_ltps d | None => None end);
      [now inversion E|].
    destruct (JSON_parse message); now inversion E. }
  now rewrite H0.
Qed.

(** ** Facts: decoding *)

Lemma map_ltp_records (data : list jsval) :
  Forall is_record data ->
  exists vs, map_ltp data = Some vs /\
             length (omap as_number vs) = length (List.filter has_numeric_ltp data).
Proof.
  induction 1 as [|d data [fields ->] _ (vs & Hvs & Hlen)].
  - exists []. split; reflexivity.
  - cbn [map_ltp]. rewrite Hvs. unfold has_numeric_ltp.
    cbn [List.filter].
    destruct (get (JObject fields) "ltp") as [v|] eqn:Eg.
    + exists (v :: vs). split; [reflexivity|].
      destruct v; cbn [omap list_omap as_number length]; now rewrite ?Hlen.
    + cbn in Eg. destruct (List.find _ fields); discriminate.
Qed.

(** C3 (amended): a payload that the single-record decoder accepts as a
    tick record with a numeric price yields exactly one price and exactly
    one forwarded observation; a payload that the single-record decoder
    rejects and that decodes as a batch of records yields as many
    forwarded observations as the batch has elements with a numeric price
    field. *)
Theorem C3_forwarded_observations (topic message : string) (mp : state)
        (sm : SubscriptionManager.state) :
  let log := snd (processMessage topic message mp sm) in
  (forall fields p,
     decodeMarketData message = Some (JObject fields) ->
     get (JObject fields) "ltp" = Some (JNumber p) ->
     fst (decode topic message) = [p] /\
     saved log = [observation topic p]) /\
  (forall fields data,
     decodeMarketData message = None ->
     decodeMarketDataBatch message = Some (JObject fields) ->
     get (JObject fields) "data" = Some (JArray data) ->
     Forall is_record data ->
     length (saved log) = length (List.filter has_numeric_ltp data)).
Proof.
  intros log.
  destruct (processMessage_saved topic message mp sm) as (Hs & _).
  fold log in Hs. split.
  - intros fields p Hd Hp.
    assert (Hdec : fst (decode topic message) = [p]).
    { unfold decode. rewrite Hd. unfold single_ltp.
      cbn [truthy fst]. now rewrite Hp. }
    split; [exact Hdec|]. now rewrite Hs, Hdec.
  - intros fields data Hd Hb Hdata Hrec.
    destruct (map_ltp_records data Hrec) as (vs & Hvs & Hlen).
    assert (Hdec : fst (decode topic message) = omap as_number vs).
    { unfold decode. rewrite Hd, Hb. unfold batch_ltps.
      cbn [truthy]. now rewrite Hdata, Hvs. }
    now rewrite Hs, Hdec, length_map.
Qed.

(** C7 (amended): a payload that matches none of the three formats
    forwards no observation and leaves the processor's state as it was,
    so later messages are handled as usual; a decode failure is reported,
    exactly once, when the payload is not even JSON text; JSON text
    without a numeric price field is dropped without a report. *)
Theorem C7_undecodable_payload (topic message : string) (mp : state)
        (sm : SubscriptionManager.state) :
  matches_no_format message ->
  let r := processMessage topic message mp sm in
  saved (snd r) = [] /\
  fst r = (mp, sm) /\
  (JSON_parse message = None -> snd r = [LogDecodeFailure topic]) /\
  (JSON_parse message <> None -> snd r = []).
Proof.
  intros (Hd & Hb & Hj). unfold processMessage, decode. rewrite Hd, Hb.
  destruct (JSON_parse message) as [decoded|] eqn:Ej.
  - rewrite (Hj decoded eq_refl). cbn.
    split; [reflexivity|]. split; [reflexivity|]. split; [discriminate|reflexivity].
  - cbn.
    split; [reflexivity|]. split; [reflexivity|]. split; [reflexivity|congruence].
Qed.

(** ** Facts: the expansion trigger *)

Lemma triggers_shouldExpand (t : tracking) (topic : string) (ltp : Q) :
  triggers t topic ltp
  = shouldExpand (flag t (indexNameOf topic))
                 (indexLtpMap (tr_mp t) !! indexNameOf topic)
                 (getAtmStrike (indexNameOf topic) ltp)
                 (atmStrikeMap (tr_mp t) !! indexNameOf topic)
                 (getStrikeDiff (indexNameOf topic)).
Proof.
  unfold triggers, observe, flag. cbn [atmStrikeMap].
  now destruct (shouldExpand _ _ _ _ _).
Qed.

Lemma observe_tracked_mono (mp : state) (sm : SubscriptionManager.state)
      (j : string) (ltp : Q) (i : string) :
  tracked mp i -> tracked (fst (observe mp sm j ltp)) i.
Proof.
  intros [Hl Ha]. unfold observe, tracked.
  destruct (shouldExpand _ _ _ _ _); cbn [fst indexLtpMap atmStrikeMap];
    (split; [|]);
    try (destruct (decide (j = i)) as [->|Hne];
         [rewrite lookup_insert_eq; eauto | now rewrite lookup_insert_ne]);
    assumption.
Qed.

Lemma observe_awaited (mp : state) (sm : SubscriptionManager.state)
      (j : string) (ltp : Q) (a : awaited) :
  snd (observe mp sm j ltp) = Some a ->
  aw_index a = j /\
  aw_strike a = getAtmStrike j ltp /\
  aw_first a = isFirstIndexMessage sm !! j /\
  tracked (fst (observe mp sm j ltp)) j.
Proof.
  unfold observe, tracked.
  destruct (shouldExpand _ _ _ _ _); cbn [fst snd]; [|discriminate].
  intros [= <-]. cbn [aw_index aw_strike aw_first indexLtpMap atmStrikeMap].
  rewrite !lookup_insert_eq. repeat split; eauto.
Qed.

Lemma complete_flags (sm : SubscriptionManager.state) (a : awaited) :
  isFirstIndexMessage (fst (complete sm a))
  = if default false (aw_first a)
    then <[aw_index a := false]> (isFirstIndexMessage sm)
    else isFirstIndexMessage sm.
Proof.
  unfold complete.
  pose proof (subscribeToAtmOptions_flags EXPIRY_DATES STRIKE_RANGE
                getStrikeDiff fetch sm (aw_index a) (aw_strike a)) as Hf.
  destruct (subscribeToAtmOptions _ _ _ _ sm (aw_index a) (aw_strike a))
    as [sm1 calls].
  cbn [fst] in *. destruct (default false (aw_first a)); cbn; now rewrite Hf.
Qed.

Lemma Inv_started : Inv started.
Proof.
  split.
  - intros i Hi. unfold flag, started. cbn [tr_sm].
    rewrite initializeFirstMessageTracking_lookup.
    rewrite bool_decide_eq_true_2 by assumption. eauto.
  - intros i. unfold flag, started. cbn [tr_sm].
    rewrite initializeFirstMessageTracking_lookup.
    destruct (bool_decide (i ∈ INDICES)); [discriminate|].
    cbn. rewrite lookup_empty. discriminate.
  - intros a [].
Qed.

Lemma Inv_step (t t' : tracking) : Inv t -> step t t' -> Inv t'.
Proof.
  intros [Hc Hs Ha] Hstep.
  destruct Hstep as [t|t|t topic ltp Htopic|t a before after Haw].
  - (* subscribeToAllIndices leaves the flags alone *)
    assert (Hf : forall i, flag (mkTracking (tr_mp t)
                     (fst (subscribeToAllIndices INDICES (tr_sm t)))
                     (tr_awaited t)) i = flag t i).
    { intros i. unfold flag, subscribeToAllIndices. cbn [tr_sm].
      now destruct (fold_subscribeIndex INDICES (tr_sm t) []) as (_ & _ & ->). }
    split; cbn [tr_mp tr_awaited].
    + intros i Hi. rewrite Hf. now apply Hc.
    + intros i Hi. rewrite Hf in Hi. now apply Hs.
    + exact Ha.
  - split; cbn [tr_mp tr_awaited]; unfold flag; cbn [tr_sm].
    + intros i Hi. rewrite initializeFirstMessageTracking_lookup.
      rewrite bool_decide_eq_true_2 by assumption. eauto.
    + intros i. rewrite initializeFirstMessageTracking_lookup.
      destruct (bool_decide (i ∈ INDICES)); [discriminate|]. apply Hs.
    + exact Ha.
  - split; cbn [tr_mp tr_awaited]; unfold flag; cbn [tr_sm].
    + exact Hc.
    + intros i Hi. apply observe_tracked_mono. now apply Hs.
    + intros a Hin. apply in_app_or in Hin as [Hin|Hin].
      * apply observe_tracked_mono. now apply Ha.
      * destruct (snd (observe (tr_mp t) (tr_sm t) (indexNameOf topic) ltp))
          as [a'|] eqn:Eo; cbn in Hin; [|contradiction].
        destruct Hin as [<-|[]].
        apply observe_awaited in Eo as (-> & _ & _ & Htr). exact Htr.
  - assert (Hta : tracked (tr_mp t) (aw_index a)).
    { apply Ha. rewrite Haw. apply in_or_app. right. now left. }
    split; cbn [tr_mp tr_awaited]; unfold flag; cbn [tr_sm];
      try rewrite complete_flags.
    + intros i Hi. specialize (Hc i Hi). unfold flag in Hc.
      destruct (default false (aw_first a)); [|exact Hc].
      destruct (decide (aw_index a = i)) as [->|Hne];
        [rewrite lookup_insert_eq; eauto | now rewrite lookup_insert_ne].
    + intros i. destruct (default false (aw_first a)); [|apply Hs].
      destruct (decide (aw_index a = i)) as [<-|Hne].
      * intros _. exact Hta.
      * rewrite lookup_insert_ne by assumption. apply Hs.
    + intros a' Hin. apply Ha. rewrite Haw.
      apply in_app_or in Hin as [Hin|Hin]; apply in_or_app;
        [now left | right; now right].
Qed.

Lemma reachable_Inv (t : tracking) : reachable t -> Inv t.
Proof.
  induction 1 as [|t t' _ IH Hstep]; [apply Inv_started|].
  exact (Inv_step t t' IH Hstep).
Qed.

(** Handling a whole message without interruption stays within the
    reachable states: each price on an index channel is one [step_observe],
    followed by one [step_complete] if an expansion was started. *)
Lemma processLtp_reachable (topic : string) (mp : state)
      (sm : SubscriptionManager.state) (aw : list awaited)
      (log : list effect) (ltp : Q) :
  reachable (mkTracking mp sm aw) ->
  reachable (mkTracking (fst (fst (processLtp topic (mp, sm, log) ltp)))
                        (snd (fst (processLtp topic (mp, sm, log) ltp)))
                        aw).
Proof.
  intros Hr. unfold processLtp.
  destruct (isIndexTopic topic) eqn:Htopic; [|exact Hr].
  pose proof (step_observe (mkTracking mp sm aw) topic ltp Htopic) as Hobs.
  cbn [tr_mp tr_sm tr_awaited] in Hobs.
  destruct (observe mp sm (indexNameOf topic) ltp) as [mp1 [a|]];
    cbn [fst snd awaited_list] in *.
  - pose proof (step_complete (mkTracking mp1 sm (aw ++ [a])) a aw [] eq_refl)
      as Hcomp.
    cbn [tr_mp tr_sm] in Hcomp. rewrite app_nil_r in Hcomp.
    destruct (complete sm a) as [sm1 calls]. cbn [fst snd] in *.
    eapply reachable_step; [|exact Hcomp].
    eapply reachable_step; [exact Hr|exact Hobs].
  - rewrite app_nil_r in Hobs.
    eapply reachable_step; [exact Hr|exact Hobs].
Qed.

Lemma processMessage_reachable (topic message : string) (mp : state)
      (sm : SubscriptionManager.state) (aw : list awaited) :
  reachable (mkTracking mp sm aw) ->
  reachable (mkTracking (fst (fst (processMessage topic message mp sm)))
                        (snd (fst (processMessage topic message mp sm)))
                        aw).
Proof.
  unfold processMessage.
  destruct (decode topic message) as [ltpValues log].
  revert mp sm log. induction ltpValues as [|ltp rest IH]; intros mp sm log Hr.
  - exact Hr.
  - cbn [fold_left].
    pose proof (processLtp_reachable topic mp sm aw log ltp Hr) as H1.
    destruct (processLtp topic (mp, sm, log) ltp) as [[mp1 sm1] log1].
    cbn [fst snd] in H1. exact (IH mp1 sm1 log1 H1).
Qed.

(** Run without interruption, an index observation invokes the
    expansions its first part has decided on: one or none. *)
Lemma processLtp_expansions (topic : string) (t : tracking) (ltp : Q) :
  isIndexTopic topic = true ->
  expansions
    (manager_calls (snd (processLtp topic (tr_mp t, tr_sm t, []) ltp)))
  = if triggers t topic ltp
    then [(indexNameOf topic, getAtmStrike (indexNameOf topic) ltp)]
    else [].
Proof.
  intros Htopic. unfold processLtp, triggers. rewrite Htopic.
  destruct (observe (tr_mp t) (tr_sm t) (indexNameOf topic) ltp)
    as [mp1 [a|]] eqn:Eo; cbn [snd].
  - assert (Ha : snd (observe (tr_mp t) (tr_sm t) (indexNameOf topic) ltp)
                 = Some a) by now rewrite Eo.
    apply observe_awaited in Ha as (Hi & Hk & _).
    unfold complete.
    pose proof (subscribeToAtmOptions_expansions EXPIRY_DATES STRIKE_RANGE
                  getStrikeDiff fetch (tr_sm t) (aw_index a) (aw_strike a))
      as He.
    destruct (subscribeToAtmOptions _ _ _ _ (tr_sm t) (aw_index a) (aw_strike a))
      as [sm1 calls].
    cbn [snd] in *. rewrite manager_calls_app. cbn [app].
    destruct (Manager_only calls) as (_ & _ & ->).
    cbn. rewrite app_nil_r, He, Hi, Hk. reflexivity.
  - reflexivity.
Qed.

(** C1: on a base index channel of a configured index, in every state the
    service can reach once first-message tracking is initialised, an
    observation invokes chain expansion if and only if the index's
    first-message flag is still set or the newly computed ATM strike is at
    least one strike increment away from the recorded one; handled without
    interruption it invokes exactly one expansion in that case and none
    otherwise.  The first observation of a configured index triggers one
    expansion whatever the price.  With increment 50, recorded strike
    20000 and the flag cleared, a computed strike of 20000 does not
    trigger, 20050 and 19950 do. *)
Theorem C1_expansion_trigger (t : tracking) (topic : string) (ltp : Q) :
  reachable t ->
  isIndexTopic topic = true ->
  indexNameOf topic ∈ INDICES ->
  let i := indexNameOf topic in
  let atmStrike := getAtmStrike i ltp in
  let strikeDiff := getStrikeDiff i in
  (triggers t topic ltp = true <->
     flag t i = Some true \/
     exists recorded,
       atmStrikeMap (tr_mp t) !! i = Some recorded /\
       (strikeDiff <= Z.abs (atmStrike - recorded))%Z) /\
  expansions
    (manager_calls (snd (processLtp topic (tr_mp t, tr_sm t, []) ltp)))
    = (if triggers t topic ltp then [(i, atmStrike)] else []) /\
  (indexLtpMap (tr_mp t) !! i = None -> triggers t topic ltp = true) /\
  (flag t i = Some false ->
   strikeDiff = 50%Z ->
   atmStrikeMap (tr_mp t) !! i = Some 20000%Z ->
   (atmStrike = 20000%Z -> triggers t topic ltp = false) /\
   (atmStrike = 20050%Z \/ atmStrike = 19950%Z -> triggers t topic ltp = true)).
Proof.
  intros Hreach Htopic Hconf i atmStrike strikeDiff.
  destruct (reachable_Inv t Hreach) as [Hc Hs _].
  specialize (Hc i Hconf). specialize (Hs i).
  assert (Hiff :
    triggers t topic ltp = true <->
    flag t i = Some true \/
    exists recorded,
      atmStrikeMap (tr_mp t) !! i = Some recorded /\
      (strikeDiff <= Z.abs (atmStrike - recorded))%Z).
  { rewrite triggers_shouldExpand. fold i atmStrike strikeDiff.
    unfold shouldExpand.
    destruct Hc as [[|] Hf]; rewrite Hf; cbn [default from_option id orb].
    - split; [now left|reflexivity].
    - destruct (Hs Hf) as [[p Hp] [k Hk]]. rewrite Hp, Hk.
      rewrite bool_decide_eq_true_2 by eauto.
      cbn [default from_option id orb andb].
      rewrite Z.leb_le. split.
      + intros Hle. right. exists k. split; [reflexivity|exact Hle].
      + intros [Hcontra|(k' & [= <-] & Hle)]; [discriminate|exact Hle]. }
  split; [exact Hiff|]. split; [now apply processLtp_expansions|]. split.
  - intros Hnone. apply Hiff. left.
    destruct Hc as [[|] Hf]; [exact Hf|].
    destruct (Hs Hf) as [[p Hp] _]. congruence.
  - intros Hf Hdiff Hrec. split.
    + intros Hatm. apply not_true_is_false. intros Etr.
      apply Hiff in Etr as [Hcontra|(k & Hk & Hle)]; [congruence|].
      rewrite Hrec in Hk. injection Hk as <-. lia.
    + intros Hatm. apply Hiff. right. exists 20000%Z.
      split; [exact Hrec|]. lia.
Qed.

(** ** Facts: topics *)

Lemma split_slash_slash_free (s : string) :
  slash_free s = true -> split_slash s = [s].
Proof.
  induction s as [|c s IH]; [reflexivity|].
  cbn [slash_free split_slash]. intros H.
  apply andb_true_iff in H as [Hc Hs]. apply negb_true_iff in Hc.
  now rewrite Hc, (IH Hs).
Qed.

Lemma slash_free_app (a b : string) :
  slash_free (a +:+ b) = slash_free a && slash_free b.
Proof.
  induction a as [|c a IH]; [reflexivity|].
  change (String c a +:+ b) with (String c (a +:+ b)).
  cbn [slash_free]. now rewrite IH, andb_assoc.
Qed.

Lemma prefix_append (a x : string) : String.prefix a (a +:+ x) = true.
Proof.
  induction a as [|c a IH]; [now destruct x|].
  change (String c a +:+ x) with (String c (a +:+ x)). cbn [String.prefix].
  destruct (ascii_dec c c) as [_|Hne]; [exact IH|congruence].
Qed.

(** X16: with the prefix configured as "index", every topic the
    subscription manager subscribes is an index topic for the processor,
    base channels and option channels alike: the observations of an
    option channel go through the strike bookkeeping and are stored with
    the index name "NSE_FO|<token>", without type or strike; on the base
    channel of an index whose name holds no "/" the name read back from
    the topic is the index name. *)
Theorem X16_subscribed_topics_are_index_topics :
  indexPrefix = "index"%string ->
  (forall i, isIndexTopic ("index/" +:+ i) = true /\
             (slash_free i = true -> indexNameOf ("index/" +:+ i) = i)) /\
  (forall t ltp,
     isIndexTopic (optionTopic t) = true /\
     (slash_free t = true ->
      indexNameOf (optionTopic t) = "NSE_FO|" +:+ t /\
      observation (optionTopic t) ltp
      = Sink.mkBatchItem (optionTopic t) ltp (Some ("NSE_FO|" +:+ t)) None None)) /\
  (forall st topic,
     In (Subscribe topic) (snd (subscribeToAllIndices INDICES st)) ->
     isIndexTopic topic = true) /\
  (forall st indexName atmStrike topic,
     In (Subscribe topic)
        (snd (subscribeToAtmOptions EXPIRY_DATES STRIKE_RANGE getStrikeDiff fetch
                st indexName atmStrike)) ->
     isIndexTopic topic = true).
Proof.
  intros Hp.
  assert (Hbase : forall x, isIndexTopic ("index/" +:+ x) = true).
  { intros x. unfold isIndexTopic. rewrite Hp. apply (prefix_append "index/"). }
  assert (Hopt : forall t, isIndexTopic (optionTopic t) = true).
  { intros t. unfold isIndexTopic, optionTopic. rewrite Hp.
    change ("index/NSE_FO|" +:+ t) with ("index/" +:+ ("NSE_FO|" +:+ t)).
    apply (prefix_append "index/"). }
  assert (Hname : forall t, slash_free t = true ->
                            indexNameOf (optionTopic t) = "NSE_FO|" +:+ t).
  { intros t Ht. unfold indexNameOf, optionTopic.
    change (split_slash ("index/NSE_FO|" +:+ t))
      with ("index"%string :: split_slash ("NSE_FO|" +:+ t)).
    rewrite split_slash_slash_free; [reflexivity|].
    rewrite slash_free_app, Ht. reflexivity. }
  split; [|split; [|split]].
  - intros i. split; [apply Hbase|]. intros Hi. unfold indexNameOf.
    change (split_slash ("index/" +:+ i)) with ("index"%string :: split_slash i).
    now rewrite split_slash_slash_free.
  - intros t ltp. split; [apply Hopt|]. intros Ht.
    split; [now apply Hname|]. unfold observation. now rewrite Hopt, Hname.
  - intros st topic Hin.
    destruct (subscribeToAllIndices_calls INDICES st) as [Hl _].
    rewrite Hl in Hin. apply in_map_iff in Hin as (i & [= <-] & _). apply Hbase.
  - intros st indexName atmStrike topic Hin.
    apply subscribeToAtmOptions_topics in Hin as [t ->]. apply Hopt.
Qed.

(** ** Facts: the recorded strike *)

Lemma observe_frame (mp : state) (sm : SubscriptionManager.state)
      (j : string) (ltp : Q) (i : string) :
  j <> i ->
  indexLtpMap (fst (observe mp sm j ltp)) !! i = indexLtpMap mp !! i /\
  atmStrikeMap (fst (observe mp sm j ltp)) !! i = atmStrikeMap mp !! i.
Proof.
  intros Hne. unfold observe.
  destruct (shouldExpand _ _ _ _ _); cbn [fst indexLtpMap atmStrikeMap];
    rewrite ?lookup_insert_ne by exact Hne; split; reflexivity.
Qed.

Lemma observe_within_increment (t : tracking) (i : string) (ltp : Q) :
  Inv t -> i ∈ INDICES ->
  within_increment (fst (observe (tr_mp t) (tr_sm t) i ltp)) i.
Proof.
  intros [Hc Hs _] Hi. destruct (Hc i Hi) as [b Hb]. unfold flag in Hb.
  unfold within_increment, observe.
  destruct (shouldExpand _ _ _ _ _) eqn:E; cbn [fst indexLtpMap atmStrikeMap];
    rewrite lookup_insert_eq; intros p [= <-].
  - exists (getAtmStrike i ltp). rewrite lookup_insert_eq. split; [reflexivity|now left].
  - unfold shouldExpand in E. cbn [atmStrikeMap] in E.
    apply orb_false_iff in E as [E1 E2].
    rewrite Hb in E1. cbn in E1. subst b.
    destruct (Hs i Hb) as [[p0 Hp0] [k Hk]].
    rewrite Hp0, Hk in E2.
    rewrite bool_decide_eq_true_2 in E2 by eauto.
    cbn [andb default from_option id] in E2. apply Z.leb_gt in E2.
    exists k. split; [exact Hk|now right].
Qed.

(** X17: in every state the service can reach, for every configured
    index that has been observed, a strike is recorded, and it is the
    strike computed from the latest price or less than one strike
    increment away from it. *)
Theorem X17_recorded_strike_within_increment (t : tracking) (i : string) :
  reachable t -> i ∈ INDICES -> within_increment (tr_mp t) i.
Proof.
  intros Hr Hi. induction Hr as [|t t' Hr IH Hstep].
  - intros p Hp. cbn in Hp. rewrite lookup_empty in Hp. discriminate.
  - pose proof (reachable_Inv t Hr) as HInv.
    destruct Hstep as [t|t|t topic ltp Htopic|t a before after Haw];
      cbn [tr_mp]; try exact IH.
    destruct (decide (indexNameOf topic = i)) as [<-|Hne].
    + now apply observe_within_increment.
    + destruct (observe_frame (tr_mp t) (tr_sm t) (indexNameOf topic) ltp i Hne)
        as [Hl Ha].
      intros p. rewrite Hl, Ha. apply IH.
Qed.


(** ** Facts: prices that stay within the increment *)

Lemma processLtp_quiet (topic : string) (mp : state)
      (sm : SubscriptionManager.state) (log : list effect) (ltp : Q) (k : Z) :
  isIndexTopic topic = true ->
  isFirstIndexMessage sm !! indexNameOf topic <> Some true ->
  atmStrikeMap mp !! indexNameOf topic = Some k ->
  (Z.abs (getAtmStrike (indexNameOf topic) ltp - k)
   < getStrikeDiff (indexNameOf topic))%Z ->
  processLtp topic (mp, sm, log) ltp
  = (mkState (<[indexNameOf topic := ltp]> (indexLtpMap mp)) (atmStrikeMap mp),
     sm, log ++ [SaveToDatabase (observation topic ltp)]).
Proof.
  intros Htopic Hflag Hk Hlt. unfold processLtp, observation, observe.
  rewrite Htopic. cbn [atmStrikeMap]. rewrite Hk.
  assert (E : shouldExpand (isFirstIndexMessage sm !! indexNameOf topic)
                (indexLtpMap mp !! indexNameOf topic)
                (getAtmStrike (indexNameOf topic) ltp) (Some k)
                (getStrikeDiff (indexNameOf topic)) = false).
  { unfold shouldExpand. apply orb_false_iff. split.
    - destruct (isFirstIndexMessage sm !! indexNameOf topic) as [[|]|];
        [congruence|reflexivity|reflexivity].
    - apply andb_false_iff. right. cbn [default from_option id].
      apply Z.leb_gt. exact Hlt. }
  rewrite E. reflexivity.
Qed.

Lemma fold_processLtp_quiet (topic : string) (prices : list Q) (mp : state)
      (sm : SubscriptionManager.state) (log : list effect) (k : Z) :
  isIndexTopic topic = true ->
  isFirstIndexMessage sm !! indexNameOf topic <> Some true ->
  atmStrikeMap mp !! indexNameOf topic = Some k ->
  Forall (fun p => (Z.abs (getAtmStrike (indexNameOf topic) p - k)
                    < getStrikeDiff (indexNameOf topic))%Z) prices ->
  fold_left (processLtp topic) prices (mp, sm, log)
  = (mkState (fold_left (fun m p => <[indexNameOf topic := p]> m) prices
                        (indexLtpMap mp))
             (atmStrikeMap mp),
     sm, log ++ map (fun p => SaveToDatabase (observation topic p)) prices).
Proof.
  intros Htopic Hflag. revert mp log.
  induction prices as [|p prices IH]; intros mp log Hk Hall.
  - cbn. rewrite app_nil_r. now destruct mp.
  - apply Forall_cons in Hall as [Hp Hall]. cbn [fold_left map].
    rewrite (processLtp_quiet topic mp sm log p k Htopic Hflag Hk Hp).
    rewrite IH by assumption. cbn [indexLtpMap atmStrikeMap].
    now rewrite <- app_assoc.
Qed.

Lemma fold_insert_last (i : string) (prices : list Q) (m : gmap string Q) :
  (forall j, j <> i ->
     fold_left (fun m p => <[i := p]> m) prices m !! j = m !! j) /\
  fold_left (fun m p => <[i := p]> m) prices m !! i
  = match last prices with Some p => Some p | None => m !! i end.
Proof.
  induction prices as [|p prices IH] using rev_ind; [split; reflexivity|].
  rewrite fold_left_app, last_snoc. cbn [fold_left]. split.
  - intros j Hj. rewrite lookup_insert_ne by congruence. now apply IH.
  - apply lookup_insert_eq.
Qed.

Lemma saved_forwarded (topic : string) (prices : list Q) :
  saved (map (fun p => SaveToDatabase (observation topic p)) prices)
  = map (observation topic) prices /\
  manager_calls (map (fun p => SaveToDatabase (observation topic p)) prices) = [].
Proof.
  induction prices as [|p prices [IH1 IH2]]; [split; reflexivity|].
  cbn [map saved manager_calls omap list_omap].
  fold (saved (map (fun p => SaveToDatabase (observation topic p)) prices)).
  fold (manager_calls (map (fun p => SaveToDatabase (observation topic p)) prices)).
  now rewrite IH1, IH2.
Qed.

Lemma decode_log (topic message : string) :
  saved (snd (decode topic message)) = [] /\
  manager_calls (snd (decode topic message)) = [].
Proof.
  unfold decode.
  destruct (decodeMarketData message); [split; reflexivity|].
  destruct (match decodeMarketDataBatch message with
            | Some d => batch_ltps d | None => None end);
    [split; reflexivity|].
  destruct (JSON_parse message); split; reflexivity.
Qed.

(** X18: while the first-message flag of the index is not set and every
    price of a message gives a strike less than one increment away from
    the recorded one, the message starts no expansion and makes no call
    to the subscription manager; the recorded strikes and the manager's
    state stay as they are; the index keeps the last price of the
    message; and every price is forwarded. *)
Theorem X18_quiet_within_increment (topic message : string) (mp : state)
        (sm : SubscriptionManager.state) (k : Z) :
  isIndexTopic topic = true ->
  isFirstIndexMessage sm !! indexNameOf topic <> Some true ->
  atmStrikeMap mp !! indexNameOf topic = Some k ->
  Forall (fun p => (Z.abs (getAtmStrike (indexNameOf topic) p - k)
                    < getStrikeDiff (indexNameOf topic))%Z)
         (fst (decode topic message)) ->
  let r := processMessage topic message mp sm in
  snd (fst r) = sm /\
  atmStrikeMap (fst (fst r)) = atmStrikeMap mp /\
  manager_calls (snd r) = [] /\
  saved (snd r) = map (observation topic) (fst (decode topic message)) /\
  (forall j, j <> indexNameOf topic ->
     indexLtpMap (fst (fst r)) !! j = indexLtpMap mp !! j) /\
  indexLtpMap (fst (fst r)) !! indexNameOf topic
  = match last (fst (decode topic message)) with
    | Some p => Some p
    | None => indexLtpMap mp !! indexNameOf topic
    end.
Proof.
  intros Htopic Hflag Hk Hall r. unfold r, processMessage.
  destruct (decode_log topic message) as [Hs0 Hm0].
  destruct (decode topic message) as [prices log0]. cbn [fst snd] in *.
  rewrite (fold_processLtp_quiet topic prices mp sm log0 k Htopic Hflag Hk Hall).
  cbn [fst snd atmStrikeMap indexLtpMap].
  destruct (saved_forwarded topic prices) as [Hs Hm].
  destruct (fold_insert_last (indexNameOf topic) prices (indexLtpMap mp)) as [Hj Hi].
  rewrite manager_calls_app, saved_app, Hs0, Hm0, Hs, Hm.
  repeat (split; [reflexivity|]). split; [exact Hj|exact Hi].
Qed.

(** ** Facts: the tick after a connect *)

(** X19: once [initializeFirstMessageTracking] has run, as it does on
    every connect, the next observation of a configured index starts an
    expansion whatever its price and whatever was recorded: the whole
    chain is looked up again, but no topic that is already active is
    subscribed again; the flag is cleared and the strike recorded, so
    that the same price coming again starts nothing (for a positive
    strike increment). *)
Theorem X19_first_tick_after_connect (topic : string) (ltp : Q) (mp : state)
        (sm : SubscriptionManager.state) :
  isIndexTopic topic = true ->
  indexNameOf topic ∈ INDICES ->
  let i := indexNameOf topic in
  let r := processLtp topic (mp, initializeFirstMessageTracking INDICES sm, []) ltp in
  expansions (manager_calls (snd r)) = [(i, getAtmStrike i ltp)] /\
  fetches (manager_calls (snd r))
  = map (legUrl EXPIRY_DATES i)
        (legs (chainStrikes STRIKE_RANGE getStrikeDiff i (getAtmStrike i ltp))) /\
  (forall topic', topic' ∈ activeSubscriptions sm ->
                  ~ In (Subscribe topic') (manager_calls (snd r))) /\
  isFirstIndexMessage (snd (fst r)) !! i = Some false /\
  atmStrikeMap (fst (fst r)) !! i = Some (getAtmStrike i ltp) /\
  ((0 < getStrikeDiff i)%Z ->
   manager_calls (snd (processLtp topic (fst (fst r), snd (fst r), []) ltp)) = []).
Proof.
  intros Htopic Hconf i r.
  assert (H5 :
    expansions (manager_calls (snd r)) = [(i, getAtmStrike i ltp)] /\
    fetches (manager_calls (snd r))
    = map (legUrl EXPIRY_DATES i)
          (legs (chainStrikes STRIKE_RANGE getStrikeDiff i (getAtmStrike i ltp))) /\
    (forall topic', topic' ∈ activeSubscriptions sm ->
                    ~ In (Subscribe topic') (manager_calls (snd r))) /\
    isFirstIndexMessage (snd (fst r)) !! i = Some false /\
    atmStrikeMap (fst (fst r)) !! i = Some (getAtmStrike i ltp)).
  { set (sm1 := initializeFirstMessageTracking INDICES sm) in *.
    assert (Hflag : isFirstIndexMessage sm1 !! i = Some true).
    { unfold sm1. rewrite initializeFirstMessageTracking_lookup.
      now rewrite bool_decide_eq_true_2 by exact Hconf. }
    assert (Hact : activeSubscriptions sm1 = activeSubscriptions sm) by reflexivity.
    unfold r, processLtp. rewrite Htopic. fold i. unfold observe. rewrite Hflag.
    cbn [shouldExpand default from_option id orb].
    unfold complete. cbn [aw_index aw_strike aw_first default from_option id].
    pose proof (subscribeToAtmOptions_expansions EXPIRY_DATES STRIKE_RANGE
                  getStrikeDiff fetch sm1 i (getAtmStrike i ltp)) as He.
    pose proof (subscribeToAtmOptions_fetches EXPIRY_DATES STRIKE_RANGE
                  getStrikeDiff fetch sm1 i (getAtmStrike i ltp)) as Hf.
    pose proof (subscribeToAtmOptions_no_resubscribe EXPIRY_DATES STRIKE_RANGE
                  getStrikeDiff fetch sm1 i (getAtmStrike i ltp)) as Hn.
    destruct (subscribeToAtmOptions EXPIRY_DATES STRIKE_RANGE getStrikeDiff fetch
                sm1 i (getAtmStrike i ltp)) as [sm2 calls].
    cbn [fst snd] in *.
    assert (Hcalls : manager_calls
                       (([] ++ map Manager calls)
                        ++ [SaveToDatabase
                              (Sink.mkBatchItem topic ltp (Some i) None None)])
                     = calls).
    { rewrite manager_calls_app. cbn [app].
      destruct (Manager_only calls) as (_ & _ & ->). cbn. apply app_nil_r. }
    rewrite Hcalls. cbn [atmStrikeMap indexLtpMap isFirstIndexMessage].
    split; [exact He|]. split; [exact Hf|]. split; [|split].
    - intros topic' Hin. apply Hn. now rewrite Hact.
    - apply lookup_insert_eq.
    - apply lookup_insert_eq. }
  destruct H5 as (He & Hf & Hn & Hfl & Hat).
  split; [exact He|]. split; [exact Hf|]. split; [exact Hn|].
  split; [exact Hfl|]. split; [exact Hat|].
  intros Hpos. destruct r as [[mp' sm'] log']. cbn [fst snd] in *.
  rewrite (processLtp_quiet topic mp' sm' [] ltp (getAtmStrike i ltp) Htopic).
  - reflexivity.
  - fold i. rewrite Hfl. discriminate.
  - exact Hat.
  - fold i. rewrite Z.sub_diag. exact Hpos.
Qed.

(** ** Facts: when a decode failure is reported *)

Lemma map_ltp_None (data : list jsval) :
  map_ltp data = None <-> Exists nullish data.
Proof.
  induction data as [|d data IH]; cbn [map_ltp].
  - split; [discriminate|intros H; inversion H].
  - destruct (get d "ltp") as [v|] eqn:Eg.
    + destruct (map_ltp data) as [vs|].
      * split; [discriminate|]. intros H. apply Exists_cons in H as [[-> | ->]|H].
        -- discriminate Eg.
        -- discriminate Eg.
        -- now apply IH in H.
      * split; [|reflexivity]. intros _. apply Exists_cons. right. now apply IH.
    + split; [|reflexivity]. intros _. apply Exists_cons. left.
      destruct d; try discriminate Eg; [now left|now right|].
      cbn in Eg. destruct (List.find _ fields); discriminate.
Qed.

Lemma batch_ltps_None (d : jsval) :
  batch_ltps d = None <->
  truthy d = true /\ exists data, get d "data" = Some (JArray data) /\ Exists nullish data.
Proof.
  unfold batch_ltps. destruct (truthy d).
  - destruct (get d "data") as [[| | | | |data|]|];
      try (split; [discriminate|intros (_ & data' & [=] & _)]).
    destruct (map_ltp data) as [vs|] eqn:Em.
    + split; [discriminate|]. intros (_ & data' & [= <-] & Hex).
      apply map_ltp_None in Hex. congruence.
    + split; [|reflexivity]. intros _. split; [reflexivity|].
      exists data. split; [reflexivity|]. now apply map_ltp_None.
  - split; [discriminate|]. intros [[=] _].
Qed.

(** X20: a decode failure is reported exactly when all three attempts
    throw (the batch attempt also throws when the decoded batch holds a
    [null] or [undefined] element); then the message does nothing else:
    no state changes, nothing is forwarded, no call is made.  In every
    other case no failure is reported. *)
Theorem X20_decode_failure_report (topic message : string) (mp : state)
        (sm : SubscriptionManager.state) :
  let r := processMessage topic message mp sm in
  (all_throw message -> r = (mp, sm, [LogDecodeFailure topic])) /\
  (decode_failures (snd r) <> [] -> all_throw message) /\
  (decode_failures (snd r) = [] \/ decode_failures (snd r) = [topic]).
Proof.
  intros r.
  destruct (processMessage_saved topic message mp sm) as [_ Hd].
  fold r in Hd. rewrite Hd.
  assert (Hcases :
    (all_throw message /\ decode topic message = ([], [LogDecodeFailure topic])) \/
    (~ all_throw message /\ snd (decode topic message) = [])).
  { unfold decode, all_throw.
    destruct (decodeMarketData message) as [d1|].
    { right. split; [intros [[=] _]|reflexivity]. }
    destruct (decodeMarketDataBatch message) as [d2|].
    - destruct (batch_ltps d2) as [vs|] eqn:Eb.
      + right. split; [|reflexivity].
        intros (_ & [[=]|(d & data & [= <-] & Ht & Hg & Hex)] & _).
        assert (batch_ltps d2 = None) by (apply batch_ltps_None; eauto).
        congruence.
      + apply batch_ltps_None in Eb as (Ht & data & Hg & Hex).
        destruct (JSON_parse message) as [d3|].
        * right. split; [intros (_ & _ & [=])|reflexivity].
        * left. split; [|reflexivity]. split; [reflexivity|].
          split; [|reflexivity]. right. exists d2, data. auto.
    - destruct (JSON_parse message) as [d3|].
      + right. split; [intros (_ & _ & [=])|reflexivity].
      + left. split; [|reflexivity]. split; [reflexivity|].
        split; [now left|reflexivity]. }
  destruct Hcases as [[Hall Hdec]|[Hnot Hlog]].
  - split; [|split].
    + intros _. unfold r, processMessage. rewrite Hdec. reflexivity.
    + intros _. exact Hall.
    + rewrite Hdec. right. reflexivity.
  - rewrite Hlog. split; [|split].
    + intros Hall. contradiction.
    + intros Hne. now contradiction Hne.
    + now left.
Qed.

(** ** Facts: topics outside the index prefix *)

(** X21: a message on a topic that does not start with the index prefix
    changes neither the processor's maps nor the subscription manager's
    state and makes no call to the manager; each of its prices is
    forwarded with the topic and without index name, type or strike. *)
Theorem X21_other_topics_only_forwarded (topic message : string) (mp : state)
        (sm : SubscriptionManager.state) :
  isIndexTopic topic = false ->
  let r := processMessage topic message mp sm in
  fst r = (mp, sm) /\
  manager_calls (snd r) = [] /\
  saved (snd r)
  = map (fun p => Sink.mkBatchItem topic p None None None) (fst (decode topic message)).
Proof.
  intros Htopic r. unfold r, processMessage.
  destruct (decode_log topic message) as [Hs0 Hm0].
  destruct (decode topic message) as [prices log0]. cbn [fst snd] in *.
  assert (H : forall log,
    fst (fold_left (processLtp topic) prices (mp, sm, log)) = (mp, sm) /\
    manager_calls (snd (fold_left (processLtp topic) prices (mp, sm, log)))
    = manager_calls log /\
    saved (snd (fold_left (processLtp topic) prices (mp, sm, log)))
    = saved log ++ map (fun p => Sink.mkBatchItem topic p None None None) prices).
  { induction prices as [|p prices IH]; intros log.
    - cbn. rewrite app_nil_r. auto.
    - cbn [fold_left map]. unfold processLtp at 2 4 6. rewrite Htopic.
      destruct (IH (log ++ [SaveToDatabase (Sink.mkBatchItem topic p None None None)]))
        as (H1 & H2 & H3).
      rewrite H1, H2, H3, manager_calls_app, saved_app. cbn.
      rewrite app_nil_r, <- app_assoc. auto. }
  destruct (H log0) as (H1 & H2 & H3). rewrite H1, H2, H3, Hs0, Hm0. auto.
Qed.


(** ** Facts: from a message to the pending buffer *)

(** X23: the prices of a message, handled without interruption and
    handed to [saveToDatabase] in the order the processor forwards them,
    all end up in the snapshots of the flushes invoked or in the pending
    buffer, after what was pending and in the order they were decoded,
    each with the topic of the message. *)
Theorem X23_message_observations_buffered (batchSize : nat)
        (topic message : string) (mp : state)
        (sm : SubscriptionManager.state) (w : Sink.World) :
  let log := snd (processMessage topic message mp sm) in
  let r := Sink.enqueue_all batchSize (saved log) w in
  Sink.snapshots (fst r) ++ Sink.dataBatch (snd r)
  = Sink.dataBatch w ++ map (observation topic) (fst (decode topic message)) /\
  Forall (fun item => Sink.topic item = topic)
         (map (observation topic) (fst (decode topic message))).
Proof.
  intros log r. unfold r.
  rewrite Sink.enqueue_all_snapshot.
  destruct (processMessage_saved topic message mp sm) as [Hs _].
  fold log in Hs. rewrite Hs. split; [reflexivity|].
  apply List.Forall_forall. intros item Hin.
  apply in_map_iff in Hin as (p & <- & _). reflexivity.
Qed.

End Operations.


(** ** Concrete runs *)

Definition demo_indexPrefix : string := "index".

(** Modelled from the spec: [utils] is not part of the sources.  The spec
    describes [getAtmStrike] as the nearest valid strike for an index and a
    price: the price divided by the increment, rounded as [Math.round]
    does, times the increment. *)
Definition demo_getAtmStrike (indexName : string) (ltp : Q) : Z :=
  let strikeDiff := demo_getStrikeDiff indexName in
  (Qfloor (ltp / inject_Z strikeDiff + (1 # 2)) * strikeDiff)%Z.

(** Stand-ins for the generated protobuf decoders and for [JSON.parse]:
    they accept the sample payloads below and throw on every other one.
    The empty payload is accepted by both protobuf decoders, as a message
    with every field at its default. *)
Definition single_payload : string := "<MarketData ltp=20010>".
Definition batch_payload : string := "<MarketDataBatch 20010, -, 20060>".

Definition demo_decodeMarketData (message : string) : option jsval :=
  if String.eqb message single_payload
  then Some (JObject [("symbol"%string, JString "NIFTY"); ("ltp"%string, JNumber 20010)])
  else if String.eqb message EmptyString
  then Some (JObject [("symbol"%string, JString EmptyString); ("ltp"%string, JNumber 0)])
  else None.

Definition demo_decodeMarketDataBatch (message : string) : option jsval :=
  if String.eqb message batch_payload
  then Some (JObject
               [("data"%string,
                 JArray [JObject [("ltp"%string, JNumber 20010)];
                         JObject [("ltp"%string, JString "n/a")];
                         JObject [("ltp"%string, JNumber 20060)]])])
  else if String.eqb message EmptyString
  then Some (JObject [("data"%string, JArray [])])
  else None.

Definition demo_JSON_parse (message : string) : option jsval :=
  if String.eqb message "{}" then Some (JObject [])
  else if String.eqb message "null" then Some JNull
  else None.

Definition demo_processMessage (topic message : string) (mp : state)
           (sm : SubscriptionManager.state) :=
  processMessage demo_indexPrefix demo_getAtmStrike demo_getStrikeDiff
                 demo_EXPIRY_DATES 1 demo_fetch
                 demo_decodeMarketData demo_decodeMarketDataBatch
                 demo_JSON_parse topic message mp sm.

Definition demo_started : tracking := started demo_INDICES.

Definition demo_reachable : tracking -> Prop :=
  reachable demo_indexPrefix demo_getAtmStrike demo_getStrikeDiff
            demo_INDICES demo_EXPIRY_DATES 1 demo_fetch.

Definition demo_triggers : tracking -> string -> Q -> bool :=
  triggers demo_getAtmStrike demo_getStrikeDiff.

(** The first NIFTY tick, 20010, up to the [await] ... *)
Definition demo_observed : tracking :=
  mkTracking
    (fst (observe demo_getAtmStrike demo_getStrikeDiff
            (tr_mp demo_started) (tr_sm demo_started)
            (indexNameOf "index/NIFTY") 20010))
    (tr_sm demo_started)
    (tr_awaited demo_started
       ++ awaited_list
            (snd (observe demo_getAtmStrike demo_getStrikeDiff
                    (tr_mp demo_started) (tr_sm demo_started)
                    (indexNameOf "index/NIFTY") 20010))).

(** ... and after the awaited expansion has returned. *)
Definition demo_expanded : tracking :=
  mkTracking
    (tr_mp demo_observed)
    (fst (complete demo_getStrikeDiff demo_EXPIRY_DATES 1 demo_fetch
            (tr_sm demo_observed) (mkAwaited "NIFTY" 20000 (Some true))))
    ([] ++ []).

Lemma demo_expanded_reachable : demo_reachable demo_expanded.
Proof.
  unfold demo_reachable.
  apply reachable_step with (t := demo_observed).
  - apply reachable_step with (t := demo_started).
    + apply reachable_start.
    + apply (step_observe demo_indexPrefix demo_getAtmStrike demo_getStrikeDiff
               demo_INDICES demo_EXPIRY_DATES 1 demo_fetch
               demo_started "index/NIFTY" 20010).
      vm_compute. reflexivity.
  - apply (step_complete demo_indexPrefix demo_getAtmStrike demo_getStrikeDiff
             demo_INDICES demo_EXPIRY_DATES 1 demo_fetch
             demo_observed (mkAwaited "NIFTY" 20000 (Some true)) [] []).
    vm_compute. reflexivity.
Qed.

Lemma C1_expansion_trigger_witness :
  demo_reachable demo_expanded /\
  isIndexTopic demo_indexPrefix "index/NIFTY" = true /\
  indexNameOf "index/NIFTY" ∈ demo_INDICES /\
  flag demo_expanded "NIFTY" = Some false /\
  atmStrikeMap (tr_mp demo_expanded) !! "NIFTY"%string = Some 20000%Z /\
  demo_triggers demo_expanded "index/NIFTY" 20020 = false /\
  demo_triggers demo_expanded "index/NIFTY" 20030 = true /\
  demo_triggers demo_started "index/NIFTY" 20010 = true.
Proof.
  assert (Ht : isIndexTopic demo_indexPrefix "index/NIFTY" = true)
    by (vm_compute; reflexivity).
  assert (Hi : indexNameOf "index/NIFTY" ∈ demo_INDICES)
    by (apply (bool_decide_unpack _); vm_compute; exact I).
  assert (Hf : flag demo_expanded "NIFTY" = Some false)
    by (vm_compute; reflexivity).
  assert (Hr : atmStrikeMap (tr_mp demo_expanded) !! "NIFTY"%string = Some 20000%Z)
    by (vm_compute; reflexivity).
  pose proof (C1_expansion_trigger demo_indexPrefix demo_getAtmStrike
                demo_getStrikeDiff demo_INDICES demo_EXPIRY_DATES 1 demo_fetch
                demo_expanded "index/NIFTY" 20020
                demo_expanded_reachable Ht Hi) as (_ & _ & _ & Hsame).
  pose proof (C1_expansion_trigger demo_indexPrefix demo_getAtmStrike
                demo_getStrikeDiff demo_INDICES demo_EXPIRY_DATES 1 demo_fetch
                demo_expanded "index/NIFTY" 20030
                demo_expanded_reachable Ht Hi) as (_ & _ & _ & Hmoved).
  pose proof (C1_expansion_trigger demo_indexPrefix demo_getAtmStrike
                demo_getStrikeDiff demo_INDICES demo_EXPIRY_DATES 1 demo_fetch
                demo_started "index/NIFTY" 20010
                (reachable_start _ _ _ _ _ _ _) Ht Hi) as (_ & _ & Hfirst & _).
  split; [exact demo_expanded_reachable|].
  split; [exact Ht|]. split; [exact Hi|]. split; [exact Hf|].
  split; [exact Hr|]. split; [|split].
  - apply (Hsame Hf eq_refl Hr). vm_compute. reflexivity.
  - apply (Hmoved Hf eq_refl Hr). left. vm_compute. reflexivity.
  - apply Hfirst. vm_compute. reflexivity.
Defined.

(** Outside the configured indices the guard on the previous price
    decides.  An option channel sits under the index prefix too
    ("index/NSE_FO|43001"): its first tick starts no expansion although no
    strike is recorded for it; its second one does. *)
Example option_channel_first_tick :
  isIndexTopic demo_indexPrefix "index/NSE_FO|43001" = true /\
  indexNameOf "index/NSE_FO|43001" = "NSE_FO|43001"%string /\
  flag demo_started "NSE_FO|43001" = None /\
  demo_getAtmStrike "NSE_FO|43001" 120 = 100%Z /\
  demo_triggers demo_started "index/NSE_FO|43001" 120 = false /\
  demo_triggers
    (mkTracking
       (fst (observe demo_getAtmStrike demo_getStrikeDiff
               (tr_mp demo_started) (tr_sm demo_started) "NSE_FO|43001" 120))
       (tr_sm demo_started) [])
    "index/NSE_FO|43001" 120 = true.
Proof. vm_compute. repeat split. Qed.

Lemma C3_forwarded_observations_witness :
  demo_decodeMarketData single_payload
    = Some (JObject [("symbol"%string, JString "NIFTY"); ("ltp"%string, JNumber 20010)]) /\
  saved (snd (demo_processMessage "index/NIFTY" single_payload initial
                (tr_sm demo_started)))
    = [observation demo_indexPrefix "index/NIFTY" 20010] /\
  length (saved (snd (demo_processMessage "index/NIFTY" batch_payload initial
                        (tr_sm demo_started)))) = 2%nat.
Proof.
  pose proof (C3_forwarded_observations demo_indexPrefix demo_getAtmStrike
                demo_getStrikeDiff demo_EXPIRY_DATES 1 demo_fetch
                demo_decodeMarketData demo_decodeMarketDataBatch demo_JSON_parse
                "index/NIFTY" single_payload initial (tr_sm demo_started))
    as (Hsingle & _).
  pose proof (C3_forwarded_observations demo_indexPrefix demo_getAtmStrike
                demo_getStrikeDiff demo_EXPIRY_DATES 1 demo_fetch
                demo_decodeMarketData demo_decodeMarketDataBatch demo_JSON_parse
                "index/NIFTY" batch_payload initial (tr_sm demo_started))
    as (_ & Hbatch).
  split; [reflexivity|]. split.
  - exact (proj2 (Hsingle _ 20010%Q eq_refl eq_refl)).
  - refine (Hbatch _ _ eq_refl eq_refl eq_refl _).
    repeat constructor; eexists; reflexivity.
Defined.

(** The decoders are tried in order and the first that does not throw
    wins: a payload that both protobuf decoders accept is a single record.
    The empty payload, an empty batch for the second decoder, is forwarded
    as one observation at price 0. *)
Example empty_payload_is_single :
  demo_decodeMarketDataBatch EmptyString = Some (JObject [("data"%string, JArray [])]) /\
  saved (snd (demo_processMessage "index/NIFTY" EmptyString initial
                (tr_sm demo_started)))
    = [observation demo_indexPrefix "index/NIFTY" 0].
Proof. vm_compute. split; reflexivity. Qed.

(** C3, as the spec words it, fails for batches: the empty payload
    decodes as a valid batch without elements, so that no observation
    should be forwarded; but the single-record decoder, which is tried
    first, accepts it as well, and one observation is forwarded. *)
Lemma C3_batch_taken_as_single_counterexample :
  demo_decodeMarketDataBatch EmptyString
    = Some (JObject [("data"%string, JArray [])]) /\
  Forall is_record ([] : list jsval) /\
  length (List.filter has_numeric_ltp []) = 0%nat /\
  length (saved (snd (demo_processMessage "index/NIFTY" EmptyString initial
                        (tr_sm demo_started)))) = 1%nat /\
  length (saved (snd (demo_processMessage "index/NIFTY" EmptyString initial
                        (tr_sm demo_started))))
  <> length (List.filter has_numeric_ltp []).
Proof.
  split; [reflexivity|]. split; [constructor|]. split; [reflexivity|].
  split; [vm_compute; reflexivity|]. vm_compute. discriminate.
Qed.

(** C7, as the spec words it, fails: the payload "{}" is rejected by both
    protobuf decoders and is JSON text without a price field, so it matches
    none of the three formats; it is dropped, and no decode failure is
    reported. *)
Lemma C7_silent_drop_counterexample :
  matches_no_format demo_decodeMarketData demo_decodeMarketDataBatch
                    demo_JSON_parse "{}" /\
  snd (demo_processMessage "index/NIFTY" "{}" initial (tr_sm demo_started)) = [] /\
  length (decode_failures
            (snd (demo_processMessage "index/NIFTY" "{}" initial
                    (tr_sm demo_started)))) <> 1%nat.
Proof.
  split; [|split].
  - split; [reflexivity|]. split; [reflexivity|].
    intros decoded. vm_compute. intros [= <-]. reflexivity.
  - vm_compute. reflexivity.
  - vm_compute. discriminate.
Qed.

Lemma C7_undecodable_payload_witness :
  matches_no_format demo_decodeMarketData demo_decodeMarketDataBatch
                    demo_JSON_parse "not a tick" /\
  demo_processMessage "index/NIFTY" "not a tick" initial (tr_sm demo_started)
    = (initial, tr_sm demo_started, [LogDecodeFailure "index/NIFTY"]).
Proof.
  assert (Hm : matches_no_format demo_decodeMarketData demo_decodeMarketDataBatch
                                 demo_JSON_parse "not a tick").
  { split; [reflexivity|]. split; [reflexivity|].
    intros decoded. vm_compute. discriminate. }
  split; [exact Hm|].
  pose proof (C7_undecodable_payload demo_indexPrefix demo_getAtmStrike
                demo_getStrikeDiff demo_EXPIRY_DATES 1 demo_fetch
                demo_decodeMarketData demo_decodeMarketDataBatch demo_JSON_parse
                "index/NIFTY" "not a tick" initial (tr_sm demo_started) Hm)
    as (_ & Hst & Hlog & _).
  unfold demo_processMessage.
  destruct (processMessage _ _ _ _ _ _ _ _ _ _ _ _ _) as [[mp sm] log].
  cbn [fst snd] in *. injection Hst as -> ->. now rewrite (Hlog eq_refl).
Defined.

(** A whole message on a configured index: the first NIFTY tick is
    decoded, starts the one expansion, and is forwarded. *)
Example first_tick_processed :
  let '(mp, sm, log) :=
    demo_processMessage "index/NIFTY" single_payload initial (tr_sm demo_started) in
  expansions (manager_calls log) = [("NIFTY"%string, 20000%Z)] /\
  saved log = [Sink.mkBatchItem "index/NIFTY" 20010 (Some "NIFTY"%string) None None] /\
  isFirstIndexMessage sm !! "NIFTY"%string = Some false /\
  atmStrikeMap mp !! "NIFTY"%string = Some 20000%Z.
Proof. vm_compute. repeat split. Qed.
Lemma X16_subscribed_topics_are_index_topics_witness :
  demo_indexPrefix = "index"%string /\
  isIndexTopic demo_indexPrefix (optionTopic "43001") = true /\
  indexNameOf (optionTopic "43001") = "NSE_FO|43001"%string /\
  indexNameOf "index/NIFTY" = "NIFTY"%string.
Proof.
  pose proof (X16_subscribed_topics_are_index_topics demo_indexPrefix
                demo_getStrikeDiff demo_INDICES demo_EXPIRY_DATES 1 demo_fetch
                eq_refl) as (Hbase & Hopt & _).
  split; [reflexivity|].
  split; [exact (proj1 (Hopt "43001"%string 0%Q))|].
  split; [exact (proj1 (proj2 (Hopt "43001"%string 0%Q) eq_refl))|].
  exact (proj2 (Hbase "NIFTY"%string) eq_refl).
Defined.

Lemma X17_recorded_strike_within_increment_witness :
  demo_reachable demo_expanded /\
  "NIFTY"%string ∈ demo_INDICES /\
  within_increment demo_getAtmStrike demo_getStrikeDiff (tr_mp demo_expanded) "NIFTY".
Proof.
  assert (Hi : "NIFTY"%string ∈ demo_INDICES)
    by (apply (bool_decide_unpack _); vm_compute; exact I).
  split; [exact demo_expanded_reachable|]. split; [exact Hi|].
  exact (X17_recorded_strike_within_increment demo_indexPrefix demo_getAtmStrike
           demo_getStrikeDiff demo_INDICES demo_EXPIRY_DATES 1 demo_fetch
           demo_expanded "NIFTY" demo_expanded_reachable Hi).
Defined.

Lemma X18_quiet_within_increment_witness :
  isIndexTopic demo_indexPrefix "index/NIFTY" = true /\
  isFirstIndexMessage (tr_sm demo_expanded) !! indexNameOf "index/NIFTY" <> Some true /\
  atmStrikeMap (tr_mp demo_expanded) !! indexNameOf "index/NIFTY" = Some 20000%Z /\
  manager_calls
    (snd (demo_processMessage "index/NIFTY" single_payload
            (tr_mp demo_expanded) (tr_sm demo_expanded))) = [].
Proof.
  assert (Ht : isIndexTopic demo_indexPrefix "index/NIFTY" = true)
    by (vm_compute; reflexivity).
  assert (Hf : isFirstIndexMessage (tr_sm demo_expanded) !! indexNameOf "index/NIFTY"
               <> Some true)
    by (vm_compute; discriminate).
  assert (Hk : atmStrikeMap (tr_mp demo_expanded) !! indexNameOf "index/NIFTY"
               = Some 20000%Z)
    by (vm_compute; reflexivity).
  assert (Hall : Forall (fun p => (Z.abs (demo_getAtmStrike (indexNameOf "index/NIFTY") p
                                          - 20000)
                                   < demo_getStrikeDiff (indexNameOf "index/NIFTY"))%Z)
                        (fst (decode demo_decodeMarketData demo_decodeMarketDataBatch
                                demo_JSON_parse "index/NIFTY" single_payload))).
  { vm_compute. constructor; [reflexivity|constructor]. }
  split; [exact Ht|]. split; [exact Hf|]. split; [exact Hk|].
  exact (proj1 (proj2 (proj2
           (X18_quiet_within_increment demo_indexPrefix demo_getAtmStrike
              demo_getStrikeDiff demo_EXPIRY_DATES 1 demo_fetch
              demo_decodeMarketData demo_decodeMarketDataBatch demo_JSON_parse
              "index/NIFTY" single_payload (tr_mp demo_expanded)
              (tr_sm demo_expanded) 20000%Z Ht Hf Hk Hall)))).
Defined.

Lemma X19_first_tick_after_connect_witness :
  isIndexTopic demo_indexPrefix "index/NIFTY" = true /\
  indexNameOf "index/NIFTY" ∈ demo_INDICES /\
  expansions
    (manager_calls
       (snd (processLtp demo_indexPrefix demo_getAtmStrike demo_getStrikeDiff
               demo_EXPIRY_DATES 1 demo_fetch "index/NIFTY"
               (tr_mp demo_expanded,
                initializeFirstMessageTracking demo_INDICES (tr_sm demo_expanded),
                []) 20010)))
  = [(indexNameOf "index/NIFTY", demo_getAtmStrike (indexNameOf "index/NIFTY") 20010)].
Proof.
  assert (Ht : isIndexTopic demo_indexPrefix "index/NIFTY" = true)
    by (vm_compute; reflexivity).
  assert (Hi : indexNameOf "index/NIFTY" ∈ demo_INDICES)
    by (apply (bool_decide_unpack _); vm_compute; exact I).
  split; [exact Ht|]. split; [exact Hi|].
  exact (proj1 (X19_first_tick_after_connect demo_indexPrefix demo_getAtmStrike
                  demo_getStrikeDiff demo_INDICES demo_EXPIRY_DATES 1 demo_fetch
                  "index/NIFTY" 20010 (tr_mp demo_expanded) (tr_sm demo_expanded)
                  Ht Hi)).
Defined.

Lemma X21_other_topics_only_forwarded_witness :
  isIndexTopic demo_indexPrefix "NSE_FO|43001" = false /\
  fst (demo_processMessage "NSE_FO|43001" single_payload initial (tr_sm demo_started))
  = (initial, tr_sm demo_started).
Proof.
  assert (Ht : isIndexTopic demo_indexPrefix "NSE_FO|43001" = false)
    by (vm_compute; reflexivity).
  split; [exact Ht|].
  exact (proj1 (X21_other_topics_only_forwarded demo_indexPrefix demo_getAtmStrike
                  demo_getStrikeDiff demo_EXPIRY_DATES 1 demo_fetch
                  demo_decodeMarketData demo_decodeMarketDataBatch demo_JSON_parse
                  "NSE_FO|43001" single_payload initial (tr_sm demo_started) Ht)).
Defined.

End MessageProcessor.
